(** * webvtt/structures.py: captions, timestamps, cue markup and styles

    A shallow embedding of [webvtt/structures.py].

    - A Python [str] is a list of characters ([pystr]); characters are the
      code points below 256 ([ascii]).
    - The regular expressions of the module are values of [regex], run by a
      backtracking matcher [mt] that tries alternatives in the priority
      order of Python's [re] (greedy before lazy, leftmost first).
    - A Python [float] is an IEEE 754 binary64 number: [spec_float] with the
      operations of [SpecFloat] at precision 53 and maximal exponent 1024.
    - A raised exception is a value of [exn] inside [result]. *)

From Stdlib Require Import Ascii String List ZArith Lia Bool Arith.
From Stdlib Require Import Floats.SpecFloat.
Import ListNotations.

Set Implicit Arguments.

(** ** Strings *)

Definition pystr := list ascii.

Definition str (s : string) : pystr := list_ascii_of_string s.

Definition chr (n : nat) : ascii := ascii_of_nat n.

(** Line feed, carriage return, double quote. *)
Definition LF : ascii := chr 10.
Definition CR : ascii := chr 13.
Definition DQ : ascii := chr 34.

Definition ascii_eqb (a b : ascii) : bool := Ascii.eqb a b.

Fixpoint pystr_eqb (a b : pystr) : bool :=
  match a, b with
  | [], [] => true
  | x :: a', y :: b' => ascii_eqb x y && pystr_eqb a' b'
  | _, _ => false
  end.

Fixpoint mem_ascii (c : ascii) (l : list ascii) : bool :=
  match l with
  | [] => false
  | d :: l' => ascii_eqb c d || mem_ascii c l'
  end.

(** [str.join]: [sep.join(parts)]. *)
Fixpoint join (sep : pystr) (parts : list pystr) : pystr :=
  match parts with
  | [] => []
  | [p] => p
  | p :: rest => p ++ sep ++ join sep rest
  end.

(** ** Character sets of the patterns *)

Definition is_digit (c : ascii) : bool :=
  let n := nat_of_ascii c in (48 <=? n) && (n <=? 57).

(** [\s] and [str.strip()]: the white space of [str.isspace] below 256. *)
Definition is_space (c : ascii) : bool :=
  let n := nat_of_ascii c in
  ((9 <=? n) && (n <=? 13)) || ((28 <=? n) && (n <=? 32))
  || (n =? 133) || (n =? 160).

Inductive cset : Type :=
| CAny                      (* [.]   : every character but the line feed *)
| CDigit                    (* [\d] *)
| CSpace                    (* [\s] *)
| CNot (c : ascii)          (* [[^c]] *)
| COneOf (l : list ascii).  (* [[...]] *)

Definition cset_mem (cs : cset) (c : ascii) : bool :=
  match cs with
  | CAny => negb (ascii_eqb c LF)
  | CDigit => is_digit c
  | CSpace => is_space c
  | CNot d => negb (ascii_eqb c d)
  | COneOf l => mem_ascii c l
  end.

(** ** Regular expressions *)

Inductive regex : Type :=
| RLit (l : pystr)            (* literal characters *)
| RChr (cs : cset)            (* one character of a set *)
| RSeq (r1 r2 : regex)        (* r1r2 *)
| RRep (cs : cset) (n : nat)  (* cs{n} *)
| RStar (cs : cset)           (* cs*   greedy *)
| RPlus (cs : cset)           (* cs+   greedy *)
| RLazy (cs : cset)           (* cs*?  lazy *)
| ROpt (r : regex)            (* (?:r)?  greedy *)
| RGrp (i : nat) (r : regex). (* capture group number i *)

Declare Scope regex_scope.
Delimit Scope regex_scope with re.
Bind Scope regex_scope with regex.
Infix "@@" := RSeq (at level 60, right associativity) : regex_scope.

(** Captured groups: the latest capture of a group comes first. *)
Definition caps := list (nat * pystr).

Fixpoint group (i : nat) (c : caps) : option pystr :=
  match c with
  | [] => None
  | (j, s) :: c' => if Nat.eqb i j then Some s else group i c'
  end.

Section Matcher.

Variable R : Type.

Fixpoint lit (l s : pystr) (k : pystr -> option R) : option R :=
  match l with
  | [] => k s
  | a :: l' =>
      match s with
      | b :: s' => if ascii_eqb a b then lit l' s' k else None
      | [] => None
      end
  end.

Fixpoint rep (cs : cset) (n : nat) (s : pystr) (k : pystr -> option R)
  : option R :=
  match n with
  | O => k s
  | S n' =>
      match s with
      | b :: s' => if cset_mem cs b then rep cs n' s' k else None
      | [] => None
      end
  end.

(** Greedy repetition: take one more character first, give it back when
    the rest of the pattern fails. *)
Fixpoint star_greedy (cs : cset) (s : pystr) (k : pystr -> option R)
  : option R :=
  match s with
  | b :: s' =>
      if cset_mem cs b then
        match star_greedy cs s' k with
        | Some x => Some x
        | None => k s
        end
      else k s
  | [] => k s
  end.

(** Lazy repetition: try the rest of the pattern first, take one more
    character when it fails. *)
Fixpoint star_lazy (cs : cset) (s : pystr) (k : pystr -> option R)
  : option R :=
  match k s with
  | Some x => Some x
  | None =>
      match s with
      | b :: s' => if cset_mem cs b then star_lazy cs s' k else None
      | [] => None
      end
  end.

Fixpoint mt (r : regex) (s : pystr) (c : caps)
         (k : pystr -> caps -> option R) : option R :=
  match r with
  | RLit l => lit l s (fun s' => k s' c)
  | RChr cs =>
      match s with
      | b :: s' => if cset_mem cs b then k s' c else None
      | [] => None
      end
  | RSeq r1 r2 => mt r1 s c (fun s' c' => mt r2 s' c' k)
  | RRep cs n => rep cs n s (fun s' => k s' c)
  | RStar cs => star_greedy cs s (fun s' => k s' c)
  | RPlus cs =>
      match s with
      | b :: s' =>
          if cset_mem cs b then star_greedy cs s' (fun s'' => k s'' c)
          else None
      | [] => None
      end
  | RLazy cs => star_lazy cs s (fun s' => k s' c)
  | ROpt r1 =>
      match mt r1 s c k with
      | Some x => Some x
      | None => k s c
      end
  | RGrp i r1 =>
      mt r1 s c
         (fun s' c' => k s' ((i, firstn (length s - length s') s) :: c'))
  end.

End Matcher.

(** A match object: the captures, the matched text and what follows it. *)
Record match_obj : Type := MatchObj {
  m_caps : caps;
  m_text : pystr;
  m_rest : pystr
}.

Definition m_group (i : nat) (m : match_obj) : option pystr :=
  group i (m_caps m).

(** [re.match(r, s)]: a match that starts at the first character. *)
Definition re_match (r : regex) (s : pystr) : option match_obj :=
  mt r s []
     (fun s' c => Some (MatchObj c (firstn (length s - length s') s) s')).

(** [re.search(r, s)]: the leftmost match. The text before it is returned
    with the match object. *)
Fixpoint re_search (r : regex) (s : pystr) : option (pystr * match_obj) :=
  match re_match r s with
  | Some m => Some ([], m)
  | None =>
      match s with
      | [] => None
      | a :: s' =>
          match re_search r s' with
          | Some (pre, m) => Some (a :: pre, m)
          | None => None
          end
      end
  end.

(** [re.sub(r, repl, s)] and [r.findall(s)], scanning left to right. After
    an empty match the scan copies one character and goes on; [n] bounds
    the number of steps. *)
Fixpoint sub_from (n : nat) (r : regex) (repl : match_obj -> pystr)
         (s : pystr) : pystr :=
  match n with
  | O => s
  | S n' =>
      match re_match r s with
      | Some m =>
          match m_text m, s with
          | [], [] => repl m
          | [], a :: s' => repl m ++ a :: sub_from n' r repl s'
          | _ :: _, _ => repl m ++ sub_from n' r repl (m_rest m)
          end
      | None =>
          match s with
          | [] => []
          | a :: s' => a :: sub_from n' r repl s'
          end
      end
  end.

Definition re_sub (r : regex) (repl : match_obj -> pystr) (s : pystr)
  : pystr :=
  sub_from (S (length s)) r repl s.

Fixpoint findall_from (n : nat) (r : regex) (s : pystr) : list match_obj :=
  match n with
  | O => []
  | S n' =>
      match re_match r s with
      | Some m =>
          match m_text m, s with
          | [], [] => [m]
          | [], _ :: s' => m :: findall_from n' r s'
          | _ :: _, _ => m :: findall_from n' r (m_rest m)
          end
      | None =>
          match s with
          | [] => []
          | _ :: s' => findall_from n' r s'
          end
      end
  end.

Definition re_findall (r : regex) (s : pystr) : list match_obj :=
  findall_from (S (length s)) r s.

(** ** The patterns of the module *)

(** [COLOURS_PATTERN = '::cue\(\.([^)]+)\)\s*{.*?color:(.*?);.*?}'] *)
Definition COLOURS_PATTERN : regex :=
  (RLit (str "::cue(.") @@ RGrp 1 (RPlus (CNot ")"%char)) @@ RLit (str ")")
   @@ RStar CSpace @@ RLit (str "{") @@ RLazy CAny @@ RLit (str "color:")
   @@ RGrp 2 (RLazy CAny) @@ RLit (str ";") @@ RLazy CAny
   @@ RLit (str "}"))%re.

(** [TIMESTAMP_PATTERN = '(\d+)?:?(\d{2}):(\d{2})[.,](\d{3})'] *)
Definition TIMESTAMP_PATTERN : regex :=
  (ROpt (RGrp 1 (RPlus CDigit)) @@ ROpt (RLit (str ":"))
   @@ RGrp 2 (RRep CDigit 2) @@ RLit (str ":") @@ RGrp 3 (RRep CDigit 2)
   @@ RChr (COneOf (str ".,")) @@ RGrp 4 (RRep CDigit 3))%re.

(** [CUE_TEXT_TAGS = '<.*?>'] *)
Definition CUE_TEXT_TAGS : regex :=
  (RLit (str "<") @@ RLazy CAny @@ RLit (str ">"))%re.


(** ** Exceptions *)

Inductive exn : Type :=
| MalformedCaptionError
| AttributeError
| TypeError
| ValueError
| OverflowError
| ZeroDivisionError.

Inductive result (A : Type) : Type :=
| Ok (a : A)
| Raise (e : exn).

Arguments Ok {A} a.
Arguments Raise {A} e.

Definition bind {A B : Type} (x : result A) (f : A -> result B) : result B :=
  match x with
  | Ok a => f a
  | Raise e => Raise e
  end.

Notation "x <- e1 ;; e2" := (bind e1 (fun x => e2))
  (at level 100, e1 at next level, right associativity).

(** ** Integers and floats *)

Local Open Scope Z_scope.

Definition digit_val (c : ascii) : Z := Z.of_nat (nat_of_ascii c) - 48.

(** The value of a string of decimal digits, most significant first. *)
Definition digits_val (s : pystr) : Z :=
  fold_left (fun acc c => 10 * acc + digit_val c) s 0.

(** [int(x)] of a string: white space around the number is dropped, one
    sign is allowed, and the digits may be separated by single
    underscores. Any other string raises [ValueError]. No limit is put on
    the number of digits. *)
Fixpoint lstrip (s : pystr) : pystr :=
  match s with
  | c :: s' => if is_space c then lstrip s' else s
  | [] => []
  end.

Definition rstrip (s : pystr) : pystr := rev (lstrip (rev s)).

(** [str.strip()] *)
Definition strip (s : pystr) : pystr := rstrip (lstrip s).

Definition is_underscore (c : ascii) : bool := ascii_eqb c "_"%char.

(** Digits with single underscores between them; [after_digit] tells
    whether the previous character was a digit. *)
Fixpoint int_body (after_digit : bool) (s : pystr) : bool :=
  match s with
  | [] => after_digit
  | c :: s' =>
      if is_digit c then int_body true s'
      else if is_underscore c then after_digit && int_body false s'
      else false
  end.

Definition int_unsigned (s : pystr) : result Z :=
  if int_body false s
  then Ok (digits_val (filter (fun c => negb (is_underscore c)) s))
  else Raise ValueError.

Definition py_int (x : pystr) : result Z :=
  match strip x with
  | "-"%char :: s => v <- int_unsigned s ;; Ok (- v)
  | "+"%char :: s => int_unsigned s
  | s => int_unsigned s
  end.

(** binary64 *)
Definition prec : Z := 53.
Definition emax : Z := 1024.

Definition float := spec_float.

Definition fadd : float -> float -> float := SFadd prec emax.
Definition fsub : float -> float -> float := SFsub prec emax.
Definition fdiv : float -> float -> float := SFdiv prec emax.

(** [float(n)] of an integer: the nearest float, ties to even;
    [OverflowError] when that is not finite. *)
Definition float_of_int (n : Z) : result float :=
  match binary_normalize prec emax n 0 false with
  | S754_infinity _ => Raise OverflowError
  | x => Ok x
  end.

(** An integer as a dyadic number with an unrounded mantissa. *)
Definition raw_int (n : Z) : float :=
  match n with
  | Z0 => S754_zero false
  | Zpos p => S754_finite false p 0
  | Zneg p => S754_finite true p 0
  end.

(** [a / b] of two integers: the quotient is rounded once, to the nearest
    float. *)
Definition int_truediv (a b : Z) : result float :=
  if b =? 0 then Raise ZeroDivisionError
  else match fdiv (raw_int a) (raw_int b) with
       | S754_infinity _ => Raise OverflowError
       | x => Ok x
       end.

(** [n + x], [x - n] and [x / n] of a float and an integer: the integer is
    converted first. *)
Definition int_add_float (n : Z) (x : float) : result float :=
  y <- float_of_int n ;; Ok (fadd y x).

Definition float_sub_int (x : float) (n : Z) : result float :=
  y <- float_of_int n ;; Ok (fsub x y).

Definition float_div_int (x : float) (n : Z) : result float :=
  if n =? 0 then Raise ZeroDivisionError
  else y <- float_of_int n ;; Ok (fdiv x y).

(** [int(x)] of a float: truncation towards zero; an infinity raises
    [OverflowError] and a NaN [ValueError]. *)
Definition int_of_float (x : float) : result Z :=
  match x with
  | S754_zero _ => Ok 0
  | S754_infinity _ => Raise OverflowError
  | S754_nan => Raise ValueError
  | S754_finite s m e =>
      let a := match e with
               | Zneg p => Z.shiftr (Zpos m) (Zpos p)
               | _ => Z.shiftl (Zpos m) e
               end in
      Ok (if s then - a else a)
  end.

(** The float written [n/1000] with three decimals, as a literal such as
    [3723.456] denotes it: the float nearest to the decimal number. *)
Definition millis (n : Z) : float := fdiv (raw_int n) (raw_int 1000).

(** ** Formatting numbers *)

Definition digit_chr (d : Z) : ascii := chr (Z.to_nat (48 + d)).

Fixpoint digits_from (fuel : nat) (n : Z) (acc : pystr) : pystr :=
  match fuel with
  | O => acc
  | S f =>
      let acc' := digit_chr (n mod 10) :: acc in
      if n <? 10 then acc' else digits_from f (n / 10) acc'
  end.

(** The decimal digits of [n >= 0]; a number below [2^k] has at most [k]
    digits. *)
Definition int_digits (n : Z) : pystr :=
  digits_from (S (Z.to_nat (Z.log2 n))) n [].

(** Zeros in front, up to [w] characters. *)
Definition zfill (w : nat) (s : pystr) : pystr :=
  repeat "0"%char (w - length s) ++ s.

(** ['{:02d}'.format(n)] *)
Definition format_02d (n : Z) : pystr :=
  if n <? 0 then "-"%char :: zfill 1 (int_digits (- n))
  else zfill 2 (int_digits n).

(** [|x| * 1000] of [x = m * 2^e] rounded to the nearest integer, ties to
    even: the digits that a [.3f] conversion prints. *)
Definition round_millis (m : positive) (e : Z) : Z :=
  match e with
  | Zneg p =>
      let den := Z.shiftl 1 (Zpos p) in
      let num := Zpos m * 1000 in
      let q := num / den in
      let r := num mod den in
      match 2 * r ?= den with
      | Lt => q
      | Gt => q + 1
      | Eq => if Z.even q then q else q + 1
      end
  | _ => Z.shiftl (Zpos m) e * 1000
  end.

Definition fixed3 (n : Z) : pystr :=
  int_digits (n / 1000) ++ "."%char :: zfill 3 (int_digits (n mod 1000)).

Definition signed_zfill (w : nat) (neg : bool) (body : pystr) : pystr :=
  if neg then "-"%char :: zfill (w - 1) body else zfill w body.

(** ['{:06.3f}'.format(x)] *)
Definition format_06_3f (x : float) : pystr :=
  match x with
  | S754_zero s => signed_zfill 6 s (fixed3 0)
  | S754_finite s m e => signed_zfill 6 s (fixed3 (round_millis m e))
  | S754_infinity s => signed_zfill 6 s (str "inf")
  | S754_nan => signed_zfill 6 false (str "nan")
  end.

(** ** Caption *)

Record Caption : Type := mkCaption {
  _start : float;
  _end : float;
  identifier : option pystr;
  _lines : list pystr
}.

(** [Caption._to_seconds] *)
Definition _to_seconds (hours minutes seconds milliseconds : Z)
  : result float :=
  frac <- int_truediv milliseconds 1000 ;;
  int_add_float (hours * 3600 + minutes * 60 + seconds) frac.

(** [res.groups()] of a pattern with [n] groups. *)
Definition m_groups (n : nat) (m : match_obj) : list (option pystr) :=
  map (fun i => m_group i m) (seq 1 n).

(** [int(x) if x else 0] *)
Definition int_or_zero (x : option pystr) : result Z :=
  match x with
  | None => Ok 0
  | Some [] => Ok 0
  | Some s => py_int s
  end.

Fixpoint map_result {A B : Type} (f : A -> result B) (l : list A)
  : result (list B) :=
  match l with
  | [] => Ok []
  | a :: l' => b <- f a ;; bs <- map_result f l' ;; Ok (b :: bs)
  end.

(** [Caption._parse_timestamp] *)
Definition _parse_timestamp (timestamp : pystr) : result float :=
  match re_match TIMESTAMP_PATTERN timestamp with
  | None => Raise MalformedCaptionError
  | Some res =>
      values <- map_result int_or_zero (m_groups 4 res) ;;
      match values with
      | [h; m; s; ms] => _to_seconds h m s ms
      | _ => Raise TypeError
      end
  end.

(** [Caption._to_timestamp] *)
Definition _to_timestamp (total_seconds : float) : result pystr :=
  q <- float_div_int total_seconds 3600 ;;
  hours <- int_of_float q ;;
  q' <- float_div_int total_seconds 60 ;;
  d <- float_sub_int q' (hours * 60) ;;
  minutes <- int_of_float d ;;
  r <- float_sub_int total_seconds (hours * 3600) ;;
  seconds <- float_sub_int r (minutes * 60) ;;
  Ok (format_02d hours ++ ":"%char :: format_02d minutes
      ++ ":"%char :: format_06_3f seconds).

(** [Caption._clean_cue_tags] *)
Definition _clean_cue_tags (text : pystr) : pystr :=
  re_sub CUE_TEXT_TAGS (fun _ => []) text.

(** [Caption.lines] *)
Definition lines (c : Caption) : list pystr := _lines c.

(** [Caption.raw_text] *)
Definition raw_text (c : Caption) : pystr := join [LF] (lines c).

(** [Caption.text] (getter) *)
Definition text (c : Caption) : pystr := _clean_cue_tags (raw_text c).

(** [Caption.add_line] *)
Definition add_line (c : Caption) (line : pystr) : Caption :=
  mkCaption (_start c) (_end c) (identifier c) (_lines c ++ [line]).

(** [Caption.start] and [Caption.end]: getters and setters. *)
Definition get_start (c : Caption) : result pystr := _to_timestamp (_start c).
Definition get_end (c : Caption) : result pystr := _to_timestamp (_end c).

Definition set_start (c : Caption) (value : pystr) : result Caption :=
  v <- _parse_timestamp value ;;
  Ok (mkCaption v (_end c) (identifier c) (_lines c)).

Definition set_end (c : Caption) (value : pystr) : result Caption :=
  v <- _parse_timestamp value ;;
  Ok (mkCaption (_start c) v (identifier c) (_lines c)).

(** [str.splitlines()]: the line boundaries below 256 are LF, VT, FF, CR,
    FS, GS, RS and NEL; CR LF is one boundary. *)
Definition is_linebreak (c : ascii) : bool :=
  let n := nat_of_ascii c in
  (((10 <=? n) && (n <=? 13)) || ((28 <=? n) && (n <=? 30)) || (n =? 133))%nat.

Fixpoint splitlines_from (cur : pystr) (s : pystr) : list pystr :=
  match s with
  | [] => match cur with [] => [] | _ => [rev cur] end
  | a :: s' =>
      if is_linebreak a then
        rev cur ::
          match s' with
          | b :: s'' =>
              if ascii_eqb a CR && ascii_eqb b LF then splitlines_from [] s''
              else splitlines_from [] s'
          | [] => splitlines_from [] s'
          end
      else splitlines_from (a :: cur) s'
  end.

Definition splitlines (s : pystr) : list pystr := splitlines_from [] s.

(** The values a caller can hand to a setter. *)
Inductive pyval : Type :=
| PyNone
| PyBool (b : bool)
| PyInt (n : Z)
| PyFloat (x : float)
| PyStr (s : pystr)
| PyLines (l : list pystr).

(** [isinstance(value, str)] *)
Definition is_str (v : pyval) : bool :=
  match v with
  | PyStr _ => true
  | _ => false
  end.

(** [Caption.text] (setter): the caption after the call and what the call
    raised, if anything. *)
Definition set_text (c : Caption) (value : pyval) : Caption * option exn :=
  match value with
  | PyStr s =>
      (mkCaption (_start c) (_end c) (identifier c) (splitlines s), None)
  | _ => (c, Some AttributeError)
  end.

(** ** Style *)

Record Style : Type := mkStyle { style_lines : list pystr }.

(** [Style.text] (getter) *)
Definition style_text (st : Style) : pystr :=
  concat (map strip (style_lines st)).

(** [str.split(sep)] on one character. *)
Fixpoint split_from (sep : ascii) (cur : pystr) (s : pystr) : list pystr :=
  match s with
  | [] => [rev cur]
  | a :: s' =>
      if ascii_eqb a sep then rev cur :: split_from sep [] s'
      else split_from sep (a :: cur) s'
  end.

Definition split (sep : ascii) (s : pystr) : list pystr :=
  split_from sep [] s.

(** [Style.text] (setter) *)
Definition style_set_text (st : Style) (value : pyval) : Style * option exn :=
  match value with
  | PyStr s => (mkStyle (split LF s), None)
  | _ => (st, Some TypeError)
  end.

(** A [dict] with string keys: the items in insertion order, no key
    twice. *)
Definition dict := list (pystr * pystr).

Fixpoint dict_get (k : pystr) (d : dict) : option pystr :=
  match d with
  | [] => None
  | (k', v) :: d' => if pystr_eqb k k' then Some v else dict_get k d'
  end.

(** [d[k] = v]: a key already present keeps its place. *)
Fixpoint dict_set (k v : pystr) (d : dict) : dict :=
  match d with
  | [] => [(k, v)]
  | (k', v') :: d' =>
      if pystr_eqb k k' then (k', v) :: d' else (k', v') :: dict_set k v d'
  end.

(** [dict(pairs)] *)
Definition dict_of (pairs : list (pystr * pystr)) : dict :=
  fold_left (fun d kv => dict_set (fst kv) (snd kv) d) pairs [].

(** [s.replace(" ", "")] *)
Definition remove_spaces (s : pystr) : pystr :=
  filter (fun c => negb (ascii_eqb c " "%char)) s.

Definition group_or_empty (i : nat) (m : match_obj) : pystr :=
  match m_group i m with
  | Some s => s
  | None => []
  end.

(** [COLOURS_PATTERN.findall(text)]: the pairs of groups. *)
Definition colours_found (st : Style) : list (pystr * pystr) :=
  map (fun m => (group_or_empty 1 m, group_or_empty 2 m))
      (re_findall COLOURS_PATTERN (style_text st)).

(** [Style.colours] *)
Definition colours (st : Style) : dict :=
  let found := colours_found st in
  let colours_classes := map fst found in
  let colours_values := map (fun x => remove_spaces (snd x)) found in
  dict_of (combine colours_classes colours_values).

(** ** Markup translation *)

(** The tag families of the loop [for tag in ['c', 'i', 'b', 'u']]. *)
Inductive family : Type := Fc | Fi | Fb | Fu.

Definition tag_name (t : family) : pystr :=
  match t with
  | Fc => str "c"
  | Fi => str "i"
  | Fb => str "b"
  | Fu => str "u"
  end.

Definition families : list family := [Fc; Fi; Fb; Fu].

Definition is_c (t : family) : bool :=
  match t with
  | Fc => true
  | _ => false
  end.

(** The characters with a meaning of their own in a pattern. *)
Definition is_special (c : ascii) : bool :=
  mem_ascii c (str ".^$*+?{}[]\|()").

(** A class name is pasted into the pattern text as it is ([str(k)], no
    [re.escape]). Its dots then match any character but the line feed and
    its ordinary characters match themselves; a name with another special
    character gives a pattern that [regex] does not cover: [None]. *)
Fixpoint splice (k : pystr) : option regex :=
  match k with
  | [] => Some (RLit [])
  | a :: k' =>
      match splice k' with
      | None => None
      | Some r =>
          if ascii_eqb a "."%char then Some (RChr CAny @@ r)%re
          else if is_special a then None
          else Some (RLit [a] @@ r)%re
      end
  end.

(** ["<" + tag + "\\..*?>.*?</" + tag + ">"] *)
Definition tag_pattern (t : family) : regex :=
  (RLit (str "<" ++ tag_name t) @@ RLit (str ".") @@ RLazy CAny
   @@ RLit (str ">") @@ RLazy CAny
   @@ RLit (str "</" ++ tag_name t ++ str ">"))%re.

(** ["<" + tag + "(?:\\..*?)?\\." + str(k) + "(?:\\..*?)?>(.*?)</" + tag
    + ">"] *)
Definition qualifier : regex := ROpt (RLit (str ".") @@ RLazy CAny)%re.

Definition colour_pattern (t : family) (k : pystr) : option regex :=
  match splice k with
  | None => None
  | Some rk =>
      Some (RLit (str "<" ++ tag_name t) @@ qualifier @@ RLit (str ".")
            @@ rk @@ qualifier @@ RLit (str ">") @@ RGrp 1 (RLazy CAny)
            @@ RLit (str "</" ++ tag_name t ++ str ">"))%re
  end.

Section Translator.

(** [html.unescape] of the Python library. *)
Variable html_unescape : pystr -> pystr.

(** [Caption.replace_color] *)
Definition replace_color (x : match_obj) (t : family) (v : pystr) : pystr :=
  (if is_c t then [] else str "<" ++ tag_name t ++ str ">")
  ++ str "<font color=" ++ [DQ] ++ v ++ [DQ] ++ str ">"
  ++ html_unescape (group_or_empty 1 x)
  ++ str "</font>"
  ++ (if is_c t then [] else str "</" ++ tag_name t ++ str ">").

(** One turn of the loop of [_replace_colors], for the item [(k, v)]. *)
Definition replace_entry (t : family) (k v : pystr) (result : pystr)
  : option pystr :=
  match colour_pattern t k with
  | None => None
  | Some r =>
      match re_search r result with
      | Some _ => Some (re_sub r (fun x => replace_color x t v) result)
      | None => Some result
      end
  end.

(** [Caption._replace_colors] *)
Fixpoint _replace_colors (raw : pystr) (colours : dict) (t : family)
  : option pystr :=
  match colours with
  | [] => Some raw
  | (k, v) :: rest =>
      match replace_entry t k v raw with
      | None => None
      | Some result => _replace_colors result rest t
      end
  end.

(** The loop of [to_srt_formatted] over the families: the state is
    [(caption_text, no_tag_found)]. *)
Fixpoint srt_loop (colours : dict) (tags : list family)
         (caption_text : pystr) (no_tag_found : bool)
  : option (pystr * bool) :=
  match tags with
  | [] => Some (caption_text, no_tag_found)
  | t :: tags' =>
      match re_search (tag_pattern t) caption_text with
      | Some _ =>
          match _replace_colors caption_text colours t with
          | None => None
          | Some caption_text' => srt_loop colours tags' caption_text' false
          end
      | None => srt_loop colours tags' caption_text no_tag_found
      end
  end.

(** [Caption.to_srt_formatted] *)
Definition to_srt_formatted (c : Caption) (colours : dict)
  : option pystr :=
  match srt_loop colours families (raw_text c) true with
  | None => None
  | Some (caption_text, no_tag_found) =>
      Some (if no_tag_found then text c else caption_text)
  end.

End Translator.

Local Close Scope Z_scope.

(** * What a pattern matches *)

(** [matches r p c c']: the text [p] is matched by [r], which turns the
    captures [c] into [c']. *)
Inductive matches : regex -> pystr -> caps -> caps -> Prop :=
| M_lit l c : matches (RLit l) l c c
| M_chr cs a c : cset_mem cs a = true -> matches (RChr cs) [a] c c
| M_seq r1 r2 p1 p2 c c1 c2 :
    matches r1 p1 c c1 -> matches r2 p2 c1 c2 ->
    matches (RSeq r1 r2) (p1 ++ p2) c c2
| M_rep cs n p c :
    length p = n -> forallb (cset_mem cs) p = true ->
    matches (RRep cs n) p c c
| M_star cs p c : forallb (cset_mem cs) p = true -> matches (RStar cs) p c c
| M_plus cs p c :
    p <> [] -> forallb (cset_mem cs) p = true -> matches (RPlus cs) p c c
| M_lazy cs p c : forallb (cset_mem cs) p = true -> matches (RLazy cs) p c c
| M_opt_some r p c c' : matches r p c c' -> matches (ROpt r) p c c'
| M_opt_none r c : matches (ROpt r) [] c c
| M_grp i r p c c' : matches r p c c' -> matches (RGrp i r) p c ((i, p) :: c').

(** The language of a pattern. *)
Definition lang (r : regex) (p : pystr) : Prop :=
  exists c', matches r p [] c'.

Create HintDb re.
#[local] Hint Constructors matches : re.

Lemma ascii_eqb_eq (a b : ascii) : ascii_eqb a b = true <-> a = b.
Proof. apply Ascii.eqb_eq. Qed.

Lemma ascii_eqb_refl (a : ascii) : ascii_eqb a a = true.
Proof. apply Ascii.eqb_refl. Qed.

Lemma ascii_eqb_neq (a b : ascii) : ascii_eqb a b = false <-> a <> b.
Proof. apply Ascii.eqb_neq. Qed.

Lemma pystr_eqb_eq (a b : pystr) : pystr_eqb a b = true <-> a = b.
Proof.
  revert b; induction a as [|x a IH]; intros [|y b]; simpl;
    try (split; (discriminate || reflexivity)).
  rewrite andb_true_iff, ascii_eqb_eq, IH.
  split; [intros [-> ->]; reflexivity | intros H; inversion H; auto].
Qed.

Lemma pystr_eqb_refl (a : pystr) : pystr_eqb a a = true.
Proof. apply pystr_eqb_eq; reflexivity. Qed.

Lemma firstn_app_length (A : Type) (p s : list A) :
  firstn (length (p ++ s) - length s) (p ++ s) = p.
Proof.
  rewrite length_app, Nat.add_sub.
  rewrite firstn_app, Nat.sub_diag, firstn_all. simpl. apply app_nil_r.
Qed.

Section MatcherFacts.

Variable R : Type.
Implicit Types (k : pystr -> option R) (s p : pystr).

Lemma lit_sound l s k x :
  lit l s k = Some x -> exists s', s = l ++ s' /\ k s' = Some x.
Proof.
  revert s; induction l as [|a l IH]; simpl; intros s H.
  - exists s; auto.
  - destruct s as [|b s]; [discriminate|].
    destruct (ascii_eqb a b) eqn:E; [|discriminate].
    apply ascii_eqb_eq in E; subst b.
    destruct (IH _ H) as (s' & -> & Hk). exists s'; auto.
Qed.

Lemma lit_app l s k : lit l (l ++ s) k = k s.
Proof.
  induction l as [|a l IH]; simpl; [reflexivity|].
  rewrite ascii_eqb_refl. exact IH.
Qed.

Lemma rep_sound cs n s k x :
  rep cs n s k = Some x ->
  exists p s', s = p ++ s' /\ length p = n
               /\ forallb (cset_mem cs) p = true /\ k s' = Some x.
Proof.
  revert s; induction n as [|n IH]; simpl; intros s H.
  - exists [], s; auto.
  - destruct s as [|b s]; [discriminate|].
    destruct (cset_mem cs b) eqn:E; [|discriminate].
    destruct (IH _ H) as (p & s' & -> & Hn & Hp & Hk).
    exists (b :: p), s'; simpl; rewrite E, Hp, Hn; auto.
Qed.

Lemma rep_app cs p s k :
  forallb (cset_mem cs) p = true -> rep cs (length p) (p ++ s) k = k s.
Proof.
  induction p as [|b p IH]; simpl; [reflexivity|].
  intros H; apply andb_true_iff in H as [-> H]. auto.
Qed.

Lemma star_greedy_sound cs s k x :
  star_greedy cs s k = Some x ->
  exists p s', s = p ++ s' /\ forallb (cset_mem cs) p = true
               /\ k s' = Some x.
Proof.
  induction s as [|b s IH]; simpl; intros H.
  - exists [], []; auto.
  - destruct (cset_mem cs b) eqn:E.
    + destruct (star_greedy cs s k) as [y|] eqn:G.
      * injection H as ->.
        destruct (IH eq_refl) as (p & s' & -> & Hp & Hk).
        exists (b :: p), s'; simpl; rewrite E, Hp; auto.
      * exists [], (b :: s); auto.
    + exists [], (b :: s); auto.
Qed.

Lemma star_greedy_complete cs p s k :
  forallb (cset_mem cs) p = true -> k s <> None ->
  star_greedy cs (p ++ s) k <> None.
Proof.
  induction p as [|b p IH]; simpl; intros Hp Hk.
  - destruct s as [|b s]; simpl; auto.
    destruct (cset_mem cs b); auto.
    destruct (star_greedy cs s k); auto; discriminate.
  - apply andb_true_iff in Hp as [-> Hp].
    specialize (IH Hp Hk).
    destruct (star_greedy cs (p ++ s) k); [discriminate | congruence].
Qed.

Lemma star_lazy_sound cs s k x :
  star_lazy cs s k = Some x ->
  exists p s', s = p ++ s' /\ forallb (cset_mem cs) p = true
               /\ k s' = Some x.
Proof.
  induction s as [|b s IH]; simpl; intros H.
  - destruct (k []) eqn:K; [|discriminate].
    exists [], []; injection H as ->; auto.
  - destruct (k (b :: s)) eqn:K.
    + injection H as ->. exists [], (b :: s); auto.
    + destruct (cset_mem cs b) eqn:E; [|discriminate].
      destruct (IH H) as (p & s' & -> & Hp & Hk).
      exists (b :: p), s'; simpl; rewrite E, Hp; auto.
Qed.

Lemma star_lazy_complete cs p s k :
  forallb (cset_mem cs) p = true -> k s <> None ->
  star_lazy cs (p ++ s) k <> None.
Proof.
  induction p as [|b p IH]; simpl; intros Hp Hk.
  - destruct s as [|b s]; simpl; destruct (k _); auto; discriminate.
  - apply andb_true_iff in Hp as [-> Hp].
    destruct (k (b :: p ++ s)); [discriminate|]. auto.
Qed.

End MatcherFacts.

Section MatcherCorrect.

Variable R : Type.
Implicit Types (k : pystr -> caps -> option R) (s p : pystr).

(** Every answer of the matcher comes from a declared match. *)
Lemma mt_sound r : forall s c k x,
  mt r s c k = Some x ->
  exists p s' c', s = p ++ s' /\ matches r p c c' /\ k s' c' = Some x.
Proof.
  induction r as [l|cs|r1 IH1 r2 IH2|cs n|cs|cs|cs|r IH|i r IH];
    simpl; intros s c k x H.
  - apply lit_sound in H as (s' & -> & Hk).
    exists l, s', c; auto with re.
  - destruct s as [|b s]; [discriminate|].
    destruct (cset_mem cs b) eqn:E; [|discriminate].
    exists [b], s, c; auto with re.
  - apply IH1 in H as (p1 & s1 & c1 & -> & M1 & H).
    apply IH2 in H as (p2 & s2 & c2 & -> & M2 & H).
    exists (p1 ++ p2), s2, c2. rewrite app_assoc; eauto with re.
  - apply rep_sound in H as (p & s' & -> & Hn & Hp & Hk).
    exists p, s', c; auto with re.
  - apply star_greedy_sound in H as (p & s' & -> & Hp & Hk).
    exists p, s', c; auto with re.
  - destruct s as [|b s]; [discriminate|].
    destruct (cset_mem cs b) eqn:E; [|discriminate].
    apply star_greedy_sound in H as (p & s' & -> & Hp & Hk).
    exists (b :: p), s', c; repeat split; auto.
    constructor; [discriminate | simpl; rewrite E; auto].
  - apply star_lazy_sound in H as (p & s' & -> & Hp & Hk).
    exists p, s', c; auto with re.
  - destruct (mt r s c k) as [y|] eqn:G.
    + injection H as ->.
      apply IH in G as (p & s' & c' & -> & M & Hk).
      exists p, s', c'; auto with re.
    + exists [], s, c; auto with re.
  - apply IH in H as (p & s' & c' & -> & M & Hk).
    rewrite firstn_app_length in Hk.
    exists p, s', ((i, p) :: c'); auto with re.
Qed.

(** A continuation that accepts [s] whatever was captured. *)
Definition accepts k s : Prop := forall c, k s c <> None.

(** The matcher finds a match whenever one is declared. *)
Lemma mt_complete r : forall p c c',
  matches r p c c' ->
  forall s k d, accepts k s -> mt r (p ++ s) d k <> None.
Proof.
  induction 1; intros s k d Hk; simpl.
  - rewrite lit_app. apply Hk.
  - rewrite H. apply Hk.
  - rewrite <- app_assoc. apply IHmatches1.
    intros d'. apply IHmatches2. exact Hk.
  - subst n. rewrite rep_app by assumption. apply Hk.
  - apply star_greedy_complete; auto.
  - destruct p as [|b p]; [congruence|]. simpl in *.
    apply andb_true_iff in H0 as [-> H0].
    apply star_greedy_complete; auto.
  - apply star_lazy_complete; auto.
  - destruct (mt r (p ++ s) d k) eqn:G; [discriminate|].
    exfalso; revert G. apply IHmatches; auto.
  - destruct (mt r s d k); [discriminate | apply Hk].
  - apply IHmatches. intros d'. apply Hk.
Qed.

End MatcherCorrect.

(** [re.match] returns a declared match of a prefix. *)
Lemma re_match_sound r s m :
  re_match r s = Some m ->
  s = m_text m ++ m_rest m /\ matches r (m_text m) [] (m_caps m).
Proof.
  unfold re_match; intros H.
  apply mt_sound in H as (p & s' & c' & -> & M & H).
  injection H as <-. simpl. rewrite firstn_app_length. auto.
Qed.

(** [re.match] fails exactly when no prefix is in the language. *)
Lemma re_match_none r s :
  re_match r s = None <-> (forall p s', s = p ++ s' -> ~ lang r p).
Proof.
  split.
  - intros H p s' -> [c' M].
    revert H. unfold re_match. eapply mt_complete; eauto.
    intros c. discriminate.
  - intros H. destruct (re_match r s) as [m|] eqn:E; [|reflexivity].
    apply re_match_sound in E as [E M].
    exfalso. eapply H; eauto. exists (m_caps m); exact M.
Qed.

(** Inversion of [matches], one lemma for each form of pattern. *)
Lemma matches_seq r1 r2 p c c2 :
  matches (RSeq r1 r2) p c c2 ->
  exists p1 p2 c1,
    p = p1 ++ p2 /\ matches r1 p1 c c1 /\ matches r2 p2 c1 c2.
Proof. inversion 1; subst; eauto 7. Qed.

Lemma matches_lit l p c c' : matches (RLit l) p c c' -> p = l /\ c' = c.
Proof. inversion 1; subst; auto. Qed.

Lemma matches_chr cs p c c' :
  matches (RChr cs) p c c' ->
  exists a, p = [a] /\ cset_mem cs a = true /\ c' = c.
Proof. inversion 1; subst; eauto. Qed.

Lemma matches_rep cs n p c c' :
  matches (RRep cs n) p c c' ->
  length p = n /\ forallb (cset_mem cs) p = true /\ c' = c.
Proof. inversion 1; subst; auto. Qed.

Lemma matches_star cs p c c' :
  matches (RStar cs) p c c' -> forallb (cset_mem cs) p = true /\ c' = c.
Proof. inversion 1; subst; auto. Qed.

Lemma matches_plus cs p c c' :
  matches (RPlus cs) p c c' ->
  p <> [] /\ forallb (cset_mem cs) p = true /\ c' = c.
Proof. inversion 1; subst; auto. Qed.

Lemma matches_lazy cs p c c' :
  matches (RLazy cs) p c c' -> forallb (cset_mem cs) p = true /\ c' = c.
Proof. inversion 1; subst; auto. Qed.

Lemma matches_opt r p c c' :
  matches (ROpt r) p c c' -> matches r p c c' \/ (p = [] /\ c' = c).
Proof. inversion 1; subst; auto. Qed.

Lemma matches_grp i r p c c2 :
  matches (RGrp i r) p c c2 ->
  exists c1, c2 = (i, p) :: c1 /\ matches r p c c1.
Proof. inversion 1; subst; eauto. Qed.

Ltac invert_matches :=
  repeat match goal with
    | M : matches (RSeq _ _) _ _ _ |- _ =>
        apply matches_seq in M as (? & ? & ? & ? & ? & M)
    | M : matches (RLit _) _ _ _ |- _ => apply matches_lit in M as (? & ?)
    | M : matches (RChr _) _ _ _ |- _ =>
        apply matches_chr in M as (? & ? & ? & ?)
    | M : matches (RRep _ _) _ _ _ |- _ =>
        apply matches_rep in M as (? & ? & ?)
    | M : matches (RStar _) _ _ _ |- _ => apply matches_star in M as (? & ?)
    | M : matches (RPlus _) _ _ _ |- _ =>
        apply matches_plus in M as (? & ? & ?)
    | M : matches (RLazy _) _ _ _ |- _ => apply matches_lazy in M as (? & ?)
    | M : matches (RGrp _ _) _ _ _ |- _ =>
        apply matches_grp in M as (? & ? & M)
    | M : matches (ROpt _) _ _ _ |- _ =>
        apply matches_opt in M as [M | (? & ?)]
    end; subst.

(** * Timestamps *)

Local Open Scope Z_scope.

Definition all_digits (s : pystr) : Prop := forallb is_digit s = true.

Lemma digit_plain (c : ascii) :
  is_digit c = true ->
  is_space c = false /\ is_underscore c = false
  /\ c <> "-"%char /\ c <> "+"%char.
Proof.
  destruct c as [[] [] [] [] [] [] [] []]; intros H;
    try discriminate H; repeat split; try reflexivity; discriminate.
Qed.

Lemma lstrip_digit c s : is_digit c = true -> lstrip (c :: s) = c :: s.
Proof.
  intros H. simpl. destruct (digit_plain c H) as (-> & _). reflexivity.
Qed.

Lemma strip_digits s : all_digits s -> strip s = s.
Proof.
  unfold strip, rstrip, all_digits. intros H.
  destruct s as [|c s]; [reflexivity|].
  simpl in H. apply andb_true_iff in H as [Hc Hs].
  rewrite lstrip_digit by assumption.
  destruct (rev (c :: s)) as [|d t] eqn:E.
  - simpl. apply (f_equal (@rev ascii)) in E.
    rewrite rev_involutive in E. exact (eq_sym E).
  - assert (Hd : is_digit d = true).
    { assert (Hin : In d (c :: s)).
      { apply in_rev. rewrite E. left; reflexivity. }
      destruct Hin as [<-|Hin]; [assumption|].
      rewrite forallb_forall in Hs. auto. }
    rewrite lstrip_digit by assumption.
    rewrite <- E. apply rev_involutive.
Qed.

Lemma int_body_digits s : all_digits s -> int_body true s = true.
Proof.
  unfold all_digits. induction s as [|c s IH]; simpl; [reflexivity|].
  intros H. apply andb_true_iff in H as [-> H]. auto.
Qed.

Lemma filter_digits s :
  all_digits s -> filter (fun c => negb (is_underscore c)) s = s.
Proof.
  unfold all_digits. induction s as [|c s IH]; simpl; [reflexivity|].
  intros H. apply andb_true_iff in H as [Hc H].
  destruct (digit_plain c Hc) as (_ & -> & _). simpl. rewrite IH; auto.
Qed.

Lemma int_unsigned_digits s :
  all_digits s -> s <> [] -> int_unsigned s = Ok (digits_val s).
Proof.
  intros H Hne. unfold int_unsigned.
  destruct s as [|c s]; [congruence|].
  pose proof H as H'. unfold all_digits in H'. simpl in H'.
  apply andb_true_iff in H' as [Hc Hs].
  simpl int_body. rewrite Hc, (int_body_digits Hs).
  rewrite filter_digits by assumption. reflexivity.
Qed.

(** [int] of a string of digits is its decimal value. *)
Lemma py_int_digits s :
  all_digits s -> s <> [] -> py_int s = Ok (digits_val s).
Proof.
  intros H Hne. unfold py_int. rewrite strip_digits by assumption.
  rewrite <- (int_unsigned_digits H Hne).
  destruct s as [|c s]; [congruence|].
  unfold all_digits in H. simpl in H. apply andb_true_iff in H as [Hc _].
  destruct (digit_plain c Hc) as (_ & _ & Hm & Hp).
  destruct c as [[] [] [] [] [] [] [] []]; try reflexivity; congruence.
Qed.

(** The texts that [TIMESTAMP_PATTERN] matches: hour digits or nothing, a
    colon or nothing, two digits, a colon, two digits, a dot or a comma,
    three digits. *)
Inductive timestamp_text : pystr -> Prop :=
| TimestampText h colon m s sep f :
    all_digits h -> colon = [] \/ colon = str ":" ->
    all_digits m -> length m = 2%nat ->
    all_digits s -> length s = 2%nat ->
    sep = "."%char \/ sep = ","%char ->
    all_digits f -> length f = 3%nat ->
    timestamp_text (h ++ colon ++ m ++ str ":" ++ s ++ sep :: f).

(** The groups of a match of [TIMESTAMP_PATTERN]. *)
Lemma timestamp_matches p c' :
  matches TIMESTAMP_PATTERN p [] c' ->
  exists (g1 : option pystr) colon m s sep f,
    p = match g1 with Some h => h | None => [] end
        ++ colon ++ m ++ str ":" ++ s ++ sep :: f
    /\ c' = (4%nat, f) :: (3%nat, s) :: (2%nat, m)
            :: match g1 with Some h => [(1%nat, h)] | None => [] end
    /\ match g1 with Some h => all_digits h /\ h <> [] | None => True end
    /\ (colon = [] \/ colon = str ":")
    /\ all_digits m /\ length m = 2%nat
    /\ all_digits s /\ length s = 2%nat
    /\ (sep = "."%char \/ sep = ","%char)
    /\ all_digits f /\ length f = 3%nat.
Proof.
  unfold TIMESTAMP_PATTERN. intros H. invert_matches.
  all: match goal with
       | M : cset_mem (COneOf _) ?a = true |- _ =>
           assert (Hsep : a = "."%char \/ a = ","%char);
           [ simpl in M; apply orb_true_iff in M as [E|E];
             [ left; apply ascii_eqb_eq; exact E
             | apply orb_true_iff in E as [E|E];
               [ right; apply ascii_eqb_eq; exact E | discriminate ] ]
           | clear M ]
       end.
  all: repeat match goal with
         | |- context [?p ++ ?q ++ ?m ++ str ":" ++ ?s ++ [?a] ++ ?f] =>
             change (p ++ q ++ m ++ str ":" ++ s ++ [a] ++ f)
               with (p ++ q ++ m ++ str ":" ++ s ++ a :: f)
         end.
  all: first
         [ solve [eexists (Some _), (str ":"), _, _, _, _;
                  simpl; repeat split; eauto]
         | solve [eexists (Some _), [], _, _, _, _;
                  simpl; repeat split; eauto]
         | solve [eexists None, (str ":"), _, _, _, _;
                  simpl; repeat split; eauto]
         | solve [eexists None, [], _, _, _, _;
                  simpl; repeat split; eauto] ].
Qed.

Lemma lang_timestamp p : lang TIMESTAMP_PATTERN p <-> timestamp_text p.
Proof.
  split.
  - intros [c' M]. apply timestamp_matches in M
      as (g1 & colon & m & s & sep & f & -> & _ & Hg & Hc & Hm & Lm & Hs & Ls
          & Hsep & Hf & Lf).
    constructor; auto. destruct g1 as [h|]; [apply Hg | reflexivity].
  - intros [h colon m s sep f Hh Hc Hm Lm Hs Ls Hsep Hf Lf].
    unfold lang, TIMESTAMP_PATTERN.
    assert (M1 : exists c1, matches (ROpt (RGrp 1 (RPlus CDigit))) h [] c1).
    { destruct h as [|a h].
      - eexists; apply M_opt_none.
      - eexists; apply M_opt_some, M_grp, M_plus; [discriminate | exact Hh]. }
    destruct M1 as [c1 M1].
    assert (M2 : matches (ROpt (RLit (str ":"))) colon c1 c1).
    { destruct Hc as [-> | ->]; [apply M_opt_none | apply M_opt_some, M_lit]. }
    assert (M6 : matches (RChr (COneOf (str ".,"))) [sep]
                         ((3%nat, s) :: (2%nat, m) :: c1)
                         ((3%nat, s) :: (2%nat, m) :: c1)).
    { apply M_chr. destruct Hsep as [-> | ->]; reflexivity. }
    eexists.
    repeat (eapply M_seq; [eassumption || (apply M_grp, M_rep; eassumption)
                           || apply M_lit |]).
    change (sep :: f) with ([sep] ++ f).
    eapply M_seq; [exact M6|]. apply M_grp, M_rep; assumption.
Qed.

Lemma digits_val_snoc s c :
  digits_val (s ++ [c]) = 10 * digits_val s + digit_val c.
Proof. unfold digits_val. rewrite fold_left_app. reflexivity. Qed.

Lemma digit_val_range c : is_digit c = true -> 0 <= digit_val c <= 9.
Proof.
  destruct c as [[] [] [] [] [] [] [] []]; intros H; try discriminate H;
    vm_compute; split; discriminate.
Qed.

Lemma digits_val_range s :
  all_digits s -> 0 <= digits_val s < 10 ^ Z.of_nat (length s).
Proof.
  unfold all_digits. induction s as [|c s IH] using rev_ind; intros H.
  - vm_compute; split; [discriminate | reflexivity].
  - rewrite forallb_app in H. apply andb_true_iff in H as [Hs Hc].
    simpl in Hc. rewrite andb_true_r in Hc.
    rewrite digits_val_snoc, length_app. simpl length.
    rewrite Nat.add_1_r, Nat2Z.inj_succ, Z.pow_succ_r by lia.
    specialize (IH Hs). pose proof (digit_val_range c Hc). lia.
Qed.

Definition is_inf (x : float) : bool :=
  match x with
  | S754_infinity _ => true
  | _ => false
  end.

Lemma millis_finite n : 0 <= n < 1000 -> is_inf (millis n) = false.
Proof.
  intros H.
  assert (A : forallb (fun k => negb (is_inf (millis (Z.of_nat k))))
                      (seq 0 1000) = true) by (vm_compute; reflexivity).
  rewrite forallb_forall in A.
  specialize (A (Z.to_nat n)). rewrite Z2Nat.id in A by lia.
  apply negb_true_iff, A, in_seq. lia.
Qed.

Lemma int_truediv_millis n :
  0 <= n < 1000 -> int_truediv n 1000 = Ok (millis n).
Proof.
  intros H. unfold int_truediv. simpl (1000 =? 0).
  pose proof (millis_finite H) as F. unfold millis in *.
  destruct (fdiv (raw_int n) (raw_int 1000)); try reflexivity; discriminate.
Qed.

(** The hours of a match: [0] when group 1 did not take part. *)
Definition hours_of (g : option pystr) : Z :=
  match g with
  | Some h => digits_val h
  | None => 0
  end.

Lemma parse_timestamp_groups ts res :
  re_match TIMESTAMP_PATTERN ts = Some res ->
  exists M S mmm : pystr,
    m_group 2 res = Some M /\ m_group 3 res = Some S
    /\ m_group 4 res = Some mmm
    /\ _parse_timestamp ts =
         int_add_float (hours_of (m_group 1 res) * 3600
                        + digits_val M * 60 + digits_val S)
                       (millis (digits_val mmm)).
Proof.
  intros E. unfold _parse_timestamp. rewrite E.
  apply re_match_sound in E as [_ M].
  apply timestamp_matches in M
    as (g1 & colon & m & s & sep & f & _ & Hcaps & Hg & _ & Hm & Lm & Hs & Ls
        & _ & Hf & Lf).
  exists m, s, f. unfold m_groups, m_group. rewrite Hcaps. simpl.
  assert (Nm : m <> []) by (intros ->; discriminate).
  assert (Ns : s <> []) by (intros ->; discriminate).
  assert (Nf : f <> []) by (intros ->; discriminate).
  assert (Dm : int_or_zero (Some m) = Ok (digits_val m)).
  { destruct m; [congruence|]. apply py_int_digits; auto. }
  assert (Ds : int_or_zero (Some s) = Ok (digits_val s)).
  { destruct s; [congruence|]. apply py_int_digits; auto. }
  assert (Df : int_or_zero (Some f) = Ok (digits_val f)).
  { destruct f; [congruence|]. apply py_int_digits; auto. }
  assert (Dh : int_or_zero (match g1 with Some h => Some h | None => None end)
               = Ok (hours_of g1)).
  { destruct g1 as [h|]; [|reflexivity]. destruct Hg as [Hh Nh].
    destruct h; [congruence|]. apply py_int_digits; auto. }
  assert (Rf : 0 <= digits_val f < 1000).
  { pose proof (digits_val_range Hf) as B. rewrite Lf in B. exact B. }
  repeat split.
  destruct g1 as [h|]; simpl in *; rewrite ?Dh, Dm, Ds, Df; simpl;
    unfold _to_seconds; rewrite (int_truediv_millis Rf); reflexivity.
Qed.

(** A match of [TIMESTAMP_PATTERN]: the text read and the groups. *)
Lemma re_match_timestamp ts res :
  re_match TIMESTAMP_PATTERN ts = Some res ->
  exists (g1 : option pystr) colon m s sep f,
    ts = match g1 with Some h => h | None => [] end
         ++ colon ++ m ++ str ":" ++ s ++ sep :: f ++ m_rest res
    /\ m_group 1 res = g1 /\ m_group 2 res = Some m
    /\ m_group 3 res = Some s /\ m_group 4 res = Some f
    /\ match g1 with Some h => all_digits h /\ h <> [] | None => True end
    /\ (colon = [] \/ colon = str ":")
    /\ all_digits m /\ length m = 2%nat
    /\ all_digits s /\ length s = 2%nat
    /\ (sep = "."%char \/ sep = ","%char)
    /\ all_digits f /\ length f = 3%nat.
Proof.
  intros E. apply re_match_sound in E as [E M].
  apply timestamp_matches in M
    as (g1 & colon & m & s & sep & f & Ht & Hcaps & H).
  exists g1, colon, m, s, sep, f.
  split.
  { rewrite E at 1. rewrite Ht. repeat rewrite <- app_assoc. reflexivity. }
  unfold m_group. rewrite Hcaps.
  destruct g1; simpl; repeat split; try apply H; tauto.
Qed.

(** Two texts that agree and whose first character outside a set is
    marked split at the same place. *)
Lemma split_first (P : ascii -> bool) a a' x x' b b' :
  forallb P a = true -> forallb P a' = true ->
  P x = false -> P x' = false ->
  a ++ x :: b = a' ++ x' :: b' -> a = a' /\ x = x' /\ b = b'.
Proof.
  revert a'; induction a as [|y a IH]; intros [|y' a'] Ha Ha' Hx Hx' E;
    simpl in *.
  - injection E as -> ->. auto.
  - injection E as -> _. apply andb_true_iff in Ha' as [Hy _]. congruence.
  - injection E as -> _. apply andb_true_iff in Ha as [Hy _]. congruence.
  - injection E as -> E.
    apply andb_true_iff in Ha as [_ Ha].
    apply andb_true_iff in Ha' as [_ Ha'].
    destruct (IH a' Ha Ha' Hx Hx' E) as (-> & -> & ->). auto.
Qed.

Lemma app_same_length (A : Type) (a b a' b' : list A) :
  a ++ b = a' ++ b' -> length b = length b' -> a = a' /\ b = b'.
Proof.
  revert a'; induction a as [|x a IH]; intros [|x' a'] E L; simpl in *.
  - auto.
  - subst b. simpl in L. rewrite length_app in L. lia.
  - subst b'. simpl in L. rewrite length_app in L. lia.
  - injection E as -> E. destruct (IH a' E L) as [-> ->]. auto.
Qed.

Lemma sep_not_digit sep :
  sep = "."%char \/ sep = ","%char ->
  is_digit sep = false /\ sep <> ":"%char.
Proof. intros [-> | ->]; split; (reflexivity || discriminate). Qed.

(** Digits that run up to the first colon: the last two are the minutes
    and those before them the hours. *)
Lemma parse_timestamp_run_in h m s sep f rest :
  all_digits h -> all_digits m -> length m = 2%nat ->
  all_digits s -> length s = 2%nat ->
  sep = "."%char \/ sep = ","%char ->
  all_digits f -> length f = 3%nat ->
  _parse_timestamp (h ++ m ++ str ":" ++ s ++ sep :: f ++ rest)
  = int_add_float (digits_val h * 3600 + digits_val m * 60 + digits_val s)
                  (millis (digits_val f)).
Proof.
  intros Hh Hm Lm Hs Ls Hsep Hf Lf.
  set (ts := h ++ m ++ str ":" ++ s ++ sep :: f ++ rest).
  destruct (sep_not_digit Hsep) as [Dsep Csep].
  destruct (re_match TIMESTAMP_PATTERN ts) as [res|] eqn:E.
  2:{ rewrite re_match_none in E. exfalso.
      apply (E (h ++ [] ++ m ++ str ":" ++ s ++ sep :: f) rest).
      - unfold ts. repeat (progress (simpl; rewrite <- ?app_assoc)).
        reflexivity.
      - apply lang_timestamp. constructor; auto. }
  pose proof E as E'.
  apply parse_timestamp_groups in E' as (M & S & mmm & G2 & G3 & G4 & ->).
  apply re_match_timestamp in E
    as (g1 & colon & m' & s' & sep' & f' & Ht & E1 & E2 & E3 & E4 & Hg & Hc
        & Hm' & Lm' & Hs' & Ls' & Hsep' & Hf' & Lf').
  rewrite E1. rewrite E2 in G2. rewrite E3 in G3. rewrite E4 in G4.
  injection G2 as <-. injection G3 as <-. injection G4 as <-.
  destruct (sep_not_digit Hsep') as [Dsep' _].
  set (h' := match g1 with Some x => x | None => [] end) in *.
  assert (Hh' : all_digits h') by (destruct g1; [apply Hg | reflexivity]).
  assert (V : hours_of g1 = digits_val h') by (destruct g1; reflexivity).
  rewrite V. unfold ts in Ht. clear ts.
  assert (Hhm : forallb is_digit (h ++ m) = true).
  { rewrite forallb_app. apply andb_true_iff; auto. }
  assert (Hhm' : forallb is_digit (h' ++ m') = true).
  { rewrite forallb_app. apply andb_true_iff; auto. }
  rewrite (app_assoc h m) in Ht.
  change ((h ++ m) ++ str ":" ++ s ++ sep :: f ++ rest)
    with ((h ++ m) ++ ":"%char :: (s ++ sep :: (f ++ rest))) in Ht.
  destruct Hc as [-> | ->].
  - simpl in Ht. rewrite (app_assoc h' m') in Ht.
    change ((h' ++ m') ++ ":"%char :: s' ++ sep' :: f' ++ m_rest res)
      with ((h' ++ m') ++ ":"%char :: (s' ++ sep' :: (f' ++ m_rest res)))
      in Ht.
    apply split_first with (P := is_digit) in Ht as (E & _ & Ht);
      try reflexivity; auto.
    apply split_first with (P := is_digit) in Ht as (<- & <- & Ht); auto.
    apply app_same_length in Ht as [<- _].
    2:{ apply (f_equal (@length ascii)) in Ht. rewrite !length_app in Ht.
        lia. }
    apply app_same_length in E as [<- <-]; [|congruence].
    reflexivity.
  - exfalso.
    change (h' ++ str ":" ++ m' ++ str ":" ++ s' ++ sep' :: f' ++ m_rest res)
      with (h' ++ ":"%char :: (m' ++ ":"%char
                                  :: (s' ++ sep' :: f' ++ m_rest res)))
      in Ht.
    apply split_first with (P := is_digit) in Ht as (_ & _ & Ht);
      try reflexivity; auto.
    apply split_first with (P := is_digit) in Ht as (_ & Ht & _);
      try reflexivity; try assumption.
    congruence.
Qed.

(** The usual form [H:MM:SS.mmm], whatever follows it. *)
Lemma parse_timestamp_canonical h m s sep f rest :
  all_digits h -> all_digits m -> length m = 2%nat ->
  all_digits s -> length s = 2%nat ->
  sep = "."%char \/ sep = ","%char ->
  all_digits f -> length f = 3%nat ->
  _parse_timestamp (h ++ str ":" ++ m ++ str ":" ++ s ++ sep :: f ++ rest)
  = int_add_float (digits_val h * 3600 + digits_val m * 60 + digits_val s)
                  (millis (digits_val f)).
Proof.
  intros Hh Hm Lm Hs Ls Hsep Hf Lf.
  set (ts := h ++ str ":" ++ m ++ str ":" ++ s ++ sep :: f ++ rest).
  destruct (sep_not_digit Hsep) as [Dsep Csep].
  destruct (re_match TIMESTAMP_PATTERN ts) as [res|] eqn:E.
  2:{ rewrite re_match_none in E. exfalso.
      apply (E (h ++ str ":" ++ m ++ str ":" ++ s ++ sep :: f) rest).
      - unfold ts. repeat (progress (simpl; rewrite <- ?app_assoc)).
        reflexivity.
      - apply lang_timestamp. constructor; auto. }
  pose proof E as E'.
  apply parse_timestamp_groups in E' as (M & S & mmm & G2 & G3 & G4 & ->).
  apply re_match_timestamp in E
    as (g1 & colon & m' & s' & sep' & f' & Ht & E1 & E2 & E3 & E4 & Hg & Hc
        & Hm' & Lm' & Hs' & Ls' & Hsep' & Hf' & Lf').
  rewrite E1. rewrite E2 in G2. rewrite E3 in G3. rewrite E4 in G4.
  injection G2 as <-. injection G3 as <-. injection G4 as <-.
  destruct (sep_not_digit Hsep') as [Dsep' Csep'].
  set (h' := match g1 with Some x => x | None => [] end) in *.
  assert (Hh' : all_digits h') by (destruct g1; [apply Hg | reflexivity]).
  assert (V : hours_of g1 = digits_val h') by (destruct g1; reflexivity).
  rewrite V. unfold ts in Ht. clear ts.
  change (h ++ str ":" ++ m ++ str ":" ++ s ++ sep :: f ++ rest)
    with (h ++ ":"%char :: (m ++ ":"%char :: (s ++ sep :: (f ++ rest))))
    in Ht.
  destruct Hc as [-> | ->].
  - exfalso. simpl in Ht. rewrite (app_assoc h' m') in Ht.
    assert (Hhm' : forallb is_digit (h' ++ m') = true).
    { rewrite forallb_app. apply andb_true_iff; auto. }
    change ((h' ++ m') ++ ":"%char :: s' ++ sep' :: f' ++ m_rest res)
      with ((h' ++ m') ++ ":"%char :: (s' ++ sep' :: (f' ++ m_rest res)))
      in Ht.
    apply split_first with (P := is_digit) in Ht as (_ & _ & Ht);
      try reflexivity; try assumption.
    apply split_first with (P := is_digit) in Ht as (_ & Ht & _);
      try reflexivity; try assumption.
    congruence.
  - change (h' ++ str ":" ++ m' ++ str ":" ++ s' ++ sep' :: f' ++ m_rest res)
      with (h' ++ ":"%char :: (m' ++ ":"%char
                                  :: (s' ++ sep' :: (f' ++ m_rest res))))
      in Ht.
    apply split_first with (P := is_digit) in Ht as (Eh & _ & Ht);
      try reflexivity; try assumption.
    apply split_first with (P := is_digit) in Ht as (Em & _ & Ht);
      try reflexivity; try assumption.
    apply split_first with (P := is_digit) in Ht as (Es & _ & Ht);
      try reflexivity; try assumption.
    apply app_same_length in Ht as [Ef _].
    2:{ apply (f_equal (@length ascii)) in Ht. rewrite !length_app in Ht.
        lia. }
    rewrite Eh, Em, Es, Ef. reflexivity.
Qed.

Lemma int_add_float_not_malformed n x :
  int_add_float n x <> Raise MalformedCaptionError.
Proof.
  unfold int_add_float, float_of_int.
  destruct (binary_normalize prec emax n 0 false); simpl; discriminate.
Qed.

(** Some prefix, or some substring, of [ts] is a timestamp text. *)
Definition timestamp_prefix (ts : pystr) : Prop :=
  exists p rest, ts = p ++ rest /\ timestamp_text p.

Definition timestamp_inside (ts : pystr) : Prop :=
  exists pre p rest, ts = pre ++ p ++ rest /\ timestamp_text p.

(** C4, as the code has it. [_parse_timestamp] raises
    [MalformedCaptionError] if and only if no prefix of the input matches
    the timestamp pattern: the match is anchored at the start of the
    string ([re.match]) and not at its end. The string ["bad"] raises
    [MalformedCaptionError]. *)
Theorem parse_timestamp_error :
  (forall ts,
      _parse_timestamp ts = Raise MalformedCaptionError
      <-> ~ timestamp_prefix ts)
  /\ _parse_timestamp (str "bad") = Raise MalformedCaptionError.
Proof.
  split; [|vm_compute; reflexivity].
  intros ts. split.
  - intros H (p & rest & -> & T).
    destruct (re_match TIMESTAMP_PATTERN (p ++ rest)) as [res|] eqn:E.
    + apply parse_timestamp_groups in E as (M & S & mmm & _ & _ & _ & E).
      rewrite E in H. exact (int_add_float_not_malformed _ _ H).
    + rewrite re_match_none in E.
      apply (E p rest eq_refl). apply lang_timestamp. exact T.
  - intros H. unfold _parse_timestamp.
    destruct (re_match TIMESTAMP_PATTERN ts) as [res|] eqn:E; [|reflexivity].
    exfalso. apply H. apply re_match_sound in E as [E M].
    exists (m_text res), (m_rest res). split; [exact E|].
    apply lang_timestamp. exists (m_caps res). exact M.
Qed.

(** C4, as stated, fails: ["x01:02:03.456"] contains a timestamp, and
    parsing it raises [MalformedCaptionError]. *)
Lemma parse_timestamp_error_unanchored_fails :
  ~ (_parse_timestamp (str "x01:02:03.456") = Raise MalformedCaptionError
     <-> ~ timestamp_inside (str "x01:02:03.456")).
Proof.
  intros [H _]. apply H; [vm_compute; reflexivity|].
  exists (str "x"), (str "01:02:03.456"), [].
  split; [reflexivity|].
  apply (TimestampText (h := str "01") (colon := str ":") (m := str "02")
           (s := str "03") (sep := "."%char) (f := str "456"));
    auto; reflexivity.
Qed.

Local Close Scope Z_scope.

(** * Style colours *)

Lemma pystr_eqb_neq (a b : pystr) : pystr_eqb a b = false <-> a <> b.
Proof.
  rewrite <- pystr_eqb_eq. destruct (pystr_eqb a b); split; congruence.
Qed.

Lemma dict_get_set_same k v d : dict_get k (dict_set k v d) = Some v.
Proof.
  induction d as [|[k' v'] d IH]; simpl.
  - rewrite pystr_eqb_refl. reflexivity.
  - destruct (pystr_eqb k k') eqn:E; simpl; rewrite E; auto.
Qed.

Lemma dict_get_set_other k k' v d :
  k <> k' -> dict_get k (dict_set k' v d) = dict_get k d.
Proof.
  intros N. induction d as [|[k2 v2] d IH]; simpl.
  - apply pystr_eqb_neq in N. rewrite N. reflexivity.
  - destruct (pystr_eqb k' k2) eqn:E; simpl.
    + apply pystr_eqb_eq in E; subst k2.
      apply pystr_eqb_neq in N. rewrite N. reflexivity.
    + rewrite IH. reflexivity.
Qed.

Definition dict_step (d : dict) (kv : pystr * pystr) : dict :=
  dict_set (fst kv) (snd kv) d.

Lemma dict_fold_other k l : forall d,
  (forall v, ~ In (k, v) l) ->
  dict_get k (fold_left dict_step l d) = dict_get k d.
Proof.
  induction l as [|[k' v'] l IH]; intros d H; simpl; [reflexivity|].
  rewrite IH.
  - apply dict_get_set_other. intros ->. apply (H v'). left; reflexivity.
  - intros v Hin. apply (H v). right; exact Hin.
Qed.

(** In [dict(pairs)], a key has the value of its last pair. *)
Lemma dict_of_last k v before after :
  (forall v', ~ In (k, v') after) ->
  dict_get k (dict_of (before ++ (k, v) :: after)) = Some v.
Proof.
  intros H. unfold dict_of.
  change (fun d kv => dict_set (fst kv) (snd kv) d) with dict_step.
  rewrite fold_left_app. simpl.
  rewrite dict_fold_other by assumption.
  apply dict_get_set_same.
Qed.

Lemma combine_map (A B C : Type) (f : A -> B) (g : A -> C) (l : list A) :
  combine (map f l) (map g l) = map (fun x => (f x, g x)) l.
Proof. induction l; simpl; congruence. Qed.

(** C9. When a class name is found in several rules of the style text, in
    the order of the matches, the mapping gives it the colour of the last
    one (blanks removed). *)
Theorem colours_last_wins (st : Style) (k v : pystr)
        (before after : list (pystr * pystr)) :
  colours_found st = before ++ (k, v) :: after ->
  (forall v', ~ In (k, v') after) ->
  dict_get k (colours st) = Some (remove_spaces v).
Proof.
  intros E H. unfold colours. rewrite combine_map, E, map_app. simpl.
  apply dict_of_last.
  intros v' Hin. apply in_map_iff in Hin as ([k2 v2] & Heq & Hin).
  simpl in Heq. injection Heq as -> _. exact (H v2 Hin).
Qed.

Definition two_rules : Style :=
  mkStyle [str "::cue(.a) { color: red; }";
           str "::cue(.b){color:#fff;}";
           str "::cue(.a){font:x; color: blue;}"].

Lemma colours_last_wins_witness :
  dict_get (str "a") (colours two_rules) = Some (str "blue").
Proof.
  apply (@colours_last_wins two_rules (str "a") (str " blue")
           [(str "a", str " red"); (str "b", str "#fff")] []).
  - vm_compute. reflexivity.
  - intros v' [].
Defined.

(** * Tag stripping *)

(** A text without line feed. *)
Definition on_line (s : pystr) : Prop := forallb (cset_mem CAny) s = true.

(** What follows the first [>] of a line, if the line has one. *)
Fixpoint after_close (s : pystr) : option pystr :=
  match s with
  | [] => None
  | a :: s' =>
      if ascii_eqb a ">"%char then Some s'
      else if ascii_eqb a LF then None
      else after_close s'
  end.

Definition closes_on_line (s : pystr) : bool :=
  match after_close s with
  | Some _ => true
  | None => false
  end.

(** A scan that drops every [<...>] that lies on one line: [in_tag] tells
    whether the scan is between the brackets of a tag. *)
Fixpoint strip_line_tags (in_tag : bool) (s : pystr) : pystr :=
  match s with
  | [] => []
  | a :: s' =>
      if in_tag then strip_line_tags (negb (ascii_eqb a ">"%char)) s'
      else if ascii_eqb a "<"%char && closes_on_line s'
           then strip_line_tags true s'
           else a :: strip_line_tags false s'
  end.

(** The words of the specification: every [<...>], shortest match, is
    removed, whatever stands between the brackets. *)
Fixpoint spec_closes (s : pystr) : bool :=
  match s with
  | [] => false
  | a :: s' => ascii_eqb a ">"%char || spec_closes s'
  end.

Fixpoint spec_strip_tags (in_tag : bool) (s : pystr) : pystr :=
  match s with
  | [] => []
  | a :: s' =>
      if in_tag then spec_strip_tags (negb (ascii_eqb a ">"%char)) s'
      else if ascii_eqb a "<"%char && spec_closes s'
           then spec_strip_tags true s'
           else a :: spec_strip_tags false s'
  end.

Lemma after_close_shorter s rest :
  after_close s = Some rest -> length rest < length s.
Proof.
  revert rest; induction s as [|a s IH]; simpl; intros rest H;
    [discriminate|].
  destruct (ascii_eqb a ">"%char).
  - injection H as ->. lia.
  - destruct (ascii_eqb a LF); [discriminate|].
    specialize (IH _ H). lia.
Qed.

Lemma strip_in_tag s rest :
  after_close s = Some rest ->
  strip_line_tags true s = strip_line_tags false rest.
Proof.
  revert rest; induction s as [|a s IH]; simpl; intros rest H;
    [discriminate|].
  destruct (ascii_eqb a ">"%char); simpl.
  - injection H as ->. reflexivity.
  - destruct (ascii_eqb a LF); [discriminate|]. auto.
Qed.

(** The lazy [.*?] in front of [>] stops at the first [>] of the line. *)
Lemma lazy_until_close (R : Type) (g : pystr -> R) s :
  star_lazy CAny s (fun s2 => lit (str ">") s2 (fun s3 => Some (g s3)))
  = option_map g (after_close s).
Proof.
  change (str ">") with [">"%char].
  induction s as [|a s IH]; cbn [star_lazy lit after_close option_map];
    [reflexivity|].
  rewrite (Ascii.eqb_sym ">"%char a : ascii_eqb ">"%char a = ascii_eqb a _).
  destruct (ascii_eqb a ">"%char) eqn:E; [reflexivity|].
  cbn [cset_mem]. destruct (ascii_eqb a LF); cbn [negb];
    [reflexivity | exact IH].
Qed.

(** [re.match(CUE_TEXT_TAGS, s)] *)
Lemma re_match_tag s :
  re_match CUE_TEXT_TAGS s =
  match s with
  | a :: s' =>
      if ascii_eqb a "<"%char then
        option_map
          (fun rest => MatchObj [] (firstn (length s - length rest) s) rest)
          (after_close s')
      else None
  | [] => None
  end.
Proof.
  destruct s as [|a s']; [reflexivity|].
  unfold re_match, CUE_TEXT_TAGS. cbn [mt].
  change (str "<") with ["<"%char]. cbn [lit].
  rewrite (Ascii.eqb_sym "<"%char a : ascii_eqb "<"%char a = ascii_eqb a _).
  destruct (ascii_eqb a "<"%char); [|reflexivity].
  apply (lazy_until_close
           (fun s3 => MatchObj [] (firstn (length (a :: s') - length s3)
                                          (a :: s')) s3)).
Qed.

Lemma clean_cue_tags_scan n : forall s,
  length s < n ->
  sub_from n CUE_TEXT_TAGS (fun _ => []) s = strip_line_tags false s.
Proof.
  induction n as [|n IH]; intros s L; [lia|].
  cbn [sub_from]. rewrite re_match_tag.
  destruct s as [|a s']; [reflexivity|]. cbn [length] in L.
  cbn [strip_line_tags]. unfold closes_on_line.
  destruct (ascii_eqb a "<"%char); cbn [andb].
  - destruct (after_close s') as [rest|] eqn:C;
      cbn [option_map m_text m_rest].
    + pose proof (after_close_shorter _ C) as Lr.
      replace (length (a :: s') - length rest)
        with (S (length s' - length rest)) by (cbn [length]; lia).
      cbn [firstn app]. rewrite IH by lia.
      symmetry. apply strip_in_tag. exact C.
    + rewrite IH by lia. reflexivity.
  - rewrite IH by lia. reflexivity.
Qed.

Lemma text_scan (c : Caption) :
  text c = strip_line_tags false (raw_text c).
Proof.
  unfold text, _clean_cue_tags, re_sub. apply clean_cue_tags_scan. lia.
Qed.

Lemma closes_on_one_line s :
  on_line s -> closes_on_line s = spec_closes s.
Proof.
  unfold on_line, closes_on_line.
  induction s as [|a s IH]; simpl; intros H; [reflexivity|].
  apply andb_true_iff in H as [Ha H]. apply negb_true_iff in Ha.
  destruct (ascii_eqb a ">"%char); [reflexivity|].
  rewrite Ha. simpl. auto.
Qed.

Lemma strip_on_one_line s : forall in_tag,
  on_line s -> strip_line_tags in_tag s = spec_strip_tags in_tag s.
Proof.
  induction s as [|a s IH]; simpl; intros in_tag H; [reflexivity|].
  pose proof H as H'. unfold on_line in H'. simpl in H'.
  apply andb_true_iff in H' as [_ Hs].
  destruct in_tag; [apply IH; exact Hs|].
  rewrite (closes_on_one_line Hs), !(IH _ Hs). reflexivity.
Qed.

(** The cue whose lines are [<b] and [>x]. *)
Definition cut_tag_cue : Caption :=
  mkCaption (S754_zero false) (S754_zero false) None [str "<b"; str ">x"].

(** C7, as the code has it. For every sequence of cue lines, [text] is
    [raw_text] (the lines joined by line feeds) with every [<...>] that
    holds no line feed removed, shortest match first, whatever else stands
    between the brackets. For a cue of one line this is the removal of
    every [<...>]. *)
Theorem text_strips_line_tags (c : Caption) :
  raw_text c = join [LF] (lines c)
  /\ text c = strip_line_tags false (raw_text c)
  /\ (on_line (raw_text c) ->
      text c = spec_strip_tags false (raw_text c)).
Proof.
  split; [reflexivity|]. split; [apply text_scan|].
  intros H. rewrite text_scan. apply strip_on_one_line. exact H.
Qed.

Lemma text_strips_line_tags_witness :
  text (mkCaption (S754_zero false) (S754_zero false) None
                  [str "a<b>c<<d>e>f<g"])
  = spec_strip_tags false (str "a<b>c<<d>e>f<g").
Proof.
  apply (proj2 (proj2 (text_strips_line_tags
                         (mkCaption (S754_zero false) (S754_zero false)
                                    None [str "a<b>c<<d>e>f<g"])))).
  reflexivity.
Defined.

(** C7, as stated, fails for a tag that is cut by a line break: the lines
    [<b] and [>x] keep their brackets. *)
Lemma text_strips_tags_across_lines_fails :
  text cut_tag_cue = raw_text cut_tag_cue
  /\ spec_strip_tags false (raw_text cut_tag_cue) = str "x"
  /\ text cut_tag_cue <> spec_strip_tags false (raw_text cut_tag_cue).
Proof. repeat split; vm_compute; (reflexivity || discriminate). Qed.

(** * Searching and substituting *)

(** [re.search] fails exactly when no part of the text is in the
    language. *)
Lemma re_search_none r s :
  re_search r s = None
  <-> (forall pre p post, s = pre ++ p ++ post -> ~ lang r p).
Proof.
  induction s as [|a s IH]; simpl.
  - destruct (re_match r []) as [m|] eqn:E.
    + split; [discriminate|]. intros H. exfalso.
      apply re_match_sound in E as [E M].
      apply (H [] (m_text m) (m_rest m) E). exists (m_caps m); exact M.
    + split; [|reflexivity]. intros _ pre p post E' L.
      rewrite re_match_none in E.
      destruct pre; [|discriminate]. apply (E p post E' L).
  - destruct (re_match r (a :: s)) as [m|] eqn:E.
    + split; [discriminate|]. intros H. exfalso.
      apply re_match_sound in E as [E M].
      apply (H [] (m_text m) (m_rest m) E). exists (m_caps m); exact M.
    + rewrite re_match_none in E.
      destruct (re_search r s) as [[pre m]|] eqn:S.
      * split; [discriminate|]. intros H. exfalso.
        destruct IH as [_ IH]. 
        assert (N : Some (pre, m) = None); [|discriminate].
        apply IH. intros pre' p post -> L.
        apply (H (a :: pre') p post eq_refl L).
      * split; [|reflexivity]. intros _ pre p post E' L.
        destruct pre as [|b pre].
        -- apply (E p post E' L).
        -- injection E' as -> E'.
           destruct IH as [IH _]. apply (IH eq_refl pre p post E' L).
Qed.

(** The match that [re.search] returns. *)
Lemma re_search_some r s pre m :
  re_search r s = Some (pre, m) ->
  s = pre ++ m_text m ++ m_rest m /\ matches r (m_text m) [] (m_caps m).
Proof.
  revert pre; induction s as [|a s IH]; simpl; intros pre H.
  - destruct (re_match r []) as [m'|] eqn:E; [|discriminate].
    injection H as <- <-. apply re_match_sound in E. exact E.
  - destruct (re_match r (a :: s)) as [m'|] eqn:E.
    + injection H as <- <-. apply re_match_sound in E. exact E.
    + destruct (re_search r s) as [[pre' m']|]; [|discriminate].
      injection H as <- <-. destruct (IH pre' eq_refl) as [-> M]. auto.
Qed.

(** The text before the first match is copied and the match replaced. *)
Lemma sub_from_first r f s pre m : forall n,
  length s < n ->
  re_search r s = Some (pre, m) ->
  exists tail, sub_from n r f s = pre ++ f m ++ tail.
Proof.
  revert pre; induction s as [|a s IH]; intros pre n L H;
    (destruct n as [|n]; [simpl in L; lia|]); simpl in *.
  - destruct (re_match r []) as [m'|] eqn:E; [|discriminate].
    injection H as <- <-.
    destruct (m_text m');
      [exists []; rewrite app_nil_r; reflexivity | eexists; reflexivity].
  - destruct (re_match r (a :: s)) as [m'|] eqn:E.
    + injection H as <- <-. destruct (m_text m'); eexists; reflexivity.
    + destruct (re_search r s) as [[pre' m']|] eqn:S; [|discriminate].
      injection H as <- <-.
      destruct (IH pre' n ltac:(lia) eq_refl) as [tail ->].
      exists tail. reflexivity.
Qed.

(** Without a match the text is unchanged. *)
Lemma sub_from_no_match r f s : forall n,
  re_search r s = None -> sub_from n r f s = s.
Proof.
  induction s as [|a s IH]; intros [|n] H; simpl in *; try reflexivity.
  - destruct (re_match r []); [discriminate | reflexivity].
  - destruct (re_match r (a :: s)); [discriminate|].
    destruct (re_search r s) as [[? ?]|]; [discriminate|].
    rewrite IH by reflexivity. reflexivity.
Qed.

(** [re.sub] step by step, for a pattern that matches no empty text. *)
Inductive substituted (r : regex) (f : match_obj -> pystr)
  : pystr -> pystr -> Prop :=
| Sub_end : substituted r f [] []
| Sub_keep a s s' :
    re_match r (a :: s) = None -> substituted r f s s' ->
    substituted r f (a :: s) (a :: s')
| Sub_match s m s' :
    re_match r s = Some m -> substituted r f (m_rest m) s' ->
    substituted r f s (f m ++ s').

Lemma sub_from_substituted r f :
  (forall s m, re_match r s = Some m -> m_text m <> []) ->
  forall n s, length s < n -> substituted r f s (sub_from n r f s).
Proof.
  intros Hne. induction n as [|n IH]; intros s L; [lia|].
  simpl. destruct (re_match r s) as [m|] eqn:E.
  - pose proof (Hne _ _ E) as N.
    destruct (re_match_sound _ _ E) as [Es _].
    destruct (m_text m) as [|b p] eqn:T; [congruence|].
    apply Sub_match; [exact E|]. apply IH.
    rewrite Es in L. simpl in L. rewrite length_app in L. lia.
  - destruct s as [|a s]; [constructor|].
    apply Sub_keep; [exact E|]. apply IH. simpl in L. lia.
Qed.

(** * Markup translation: which path is taken *)

Definition open_tag (t : family) : pystr := str "<" ++ tag_name t.
Definition close_tag (t : family) : pystr :=
  str "</" ++ tag_name t ++ str ">".

(** [<FAMILY.q>body</FAMILY>] on one line: the texts of [tag_pattern]. *)
Definition dotted_span (t : family) (p : pystr) : Prop :=
  exists q body,
    p = open_tag t ++ str "." ++ q ++ str ">" ++ body ++ close_tag t
    /\ on_line q /\ on_line body.

Definition has_dotted_span (t : family) (s : pystr) : Prop :=
  exists pre p post, s = pre ++ p ++ post /\ dotted_span t p.

(** The words of the specification: [<FAMILY(.anything)?>...</FAMILY>],
    the dotted qualifier being optional. *)
Definition spec_span (t : family) (p : pystr) : Prop :=
  exists q body,
    p = open_tag t ++ q ++ str ">" ++ body ++ close_tag t
    /\ (q = [] \/ exists q', q = str "." ++ q').

Definition has_spec_span (t : family) (s : pystr) : Prop :=
  exists pre p post, s = pre ++ p ++ post /\ spec_span t p.

(** A pair of brackets with no line feed in between. *)
Definition has_line_tag (s : pystr) : Prop :=
  exists pre x post, s = pre ++ "<"%char :: x ++ ">"%char :: post
                     /\ on_line x.

Lemma lang_tag_pattern t p : lang (tag_pattern t) p <-> dotted_span t p.
Proof.
  unfold lang, tag_pattern, dotted_span. split.
  - intros [c' M]. invert_matches.
    eexists _, _. split; [reflexivity|]. split; assumption.
  - intros (q & body & -> & Hq & Hb). exists [].
    unfold open_tag, close_tag.
    repeat (eapply M_seq; [apply M_lit || (apply M_lazy; eassumption) |]).
    apply M_lit.
Qed.

Lemma after_close_app x post :
  on_line x -> closes_on_line (x ++ ">"%char :: post) = true.
Proof.
  unfold on_line, closes_on_line. induction x as [|a x IH]; simpl; intros H.
  - reflexivity.
  - apply andb_true_iff in H as [Ha H].
    destruct (ascii_eqb a ">"%char); [reflexivity|].
    apply negb_true_iff in Ha. rewrite Ha. auto.
Qed.

Lemma closes_strip s :
  closes_on_line s = false ->
  closes_on_line (strip_line_tags false s) = false.
Proof.
  unfold closes_on_line. induction s as [|a s IH]; simpl; intros H;
    [reflexivity|].
  destruct (ascii_eqb a ">"%char) eqn:G; [discriminate|].
  destruct (ascii_eqb a LF) eqn:N.
  - apply ascii_eqb_eq in N; subst a. simpl. reflexivity.
  - unfold closes_on_line.
    destruct (after_close s) eqn:C; [discriminate|].
    rewrite andb_false_r. simpl. rewrite G, N. auto.
Qed.

(** What is left after stripping has no bracket pair on a line. *)
Lemma strip_no_open s : forall in_tag pre y,
  strip_line_tags in_tag s = pre ++ "<"%char :: y ->
  closes_on_line y = false.
Proof.
  induction s as [|a s IH]; intros in_tag pre y H; simpl in H.
  - destruct pre; discriminate.
  - destruct in_tag; [eauto|].
    destruct (ascii_eqb a "<"%char && closes_on_line s) eqn:C; [eauto|].
    destruct pre as [|b pre]; simpl in H; injection H as -> H; [|eauto].
    rewrite ascii_eqb_refl in C. simpl in C. subst y.
    apply closes_strip. exact C.
Qed.

Lemma strip_no_line_tag s : ~ has_line_tag (strip_line_tags false s).
Proof.
  intros (pre & x & post & E & Hx).
  apply strip_no_open in E. rewrite after_close_app in E by assumption.
  discriminate.
Qed.

Lemma on_line_app a b : on_line a -> on_line b -> on_line (a ++ b).
Proof.
  unfold on_line. intros Ha Hb. rewrite forallb_app, Ha, Hb. reflexivity.
Qed.

Lemma tag_name_on_line t : on_line (tag_name t).
Proof. destruct t; reflexivity. Qed.

Lemma dotted_span_line_tag t s : has_dotted_span t s -> has_line_tag s.
Proof.
  intros (pre & p & post & -> & q & body & -> & Hq & Hb).
  exists pre, (tag_name t ++ str "." ++ q), (body ++ close_tag t ++ post).
  split.
  - unfold open_tag. repeat (progress (simpl; rewrite <- ?app_assoc)).
    reflexivity.
  - apply on_line_app; [apply tag_name_on_line|].
    apply on_line_app; [reflexivity | assumption].
Qed.

Section TranslatorPath.

Variable html_unescape : pystr -> pystr.

Lemma replace_color_line_tag pre x t v tail :
  has_line_tag (pre ++ replace_color html_unescape x t v ++ tail).
Proof.
  unfold replace_color.
  exists (pre ++ (if is_c t then [] else str "<" ++ tag_name t ++ str ">")
              ++ str "<font color=" ++ [DQ] ++ v ++ [DQ] ++ str ">"
              ++ html_unescape (group_or_empty 1 x)),
    (str "/font"),
    ((if is_c t then [] else str "</" ++ tag_name t ++ str ">") ++ tail).
  split; [|reflexivity].
  repeat (progress (simpl; rewrite <- ?app_assoc)). reflexivity.
Qed.

Lemma replace_entry_line_tag t k v s s' :
  replace_entry html_unescape t k v s = Some s' ->
  has_line_tag s -> has_line_tag s'.
Proof.
  unfold replace_entry. destruct (colour_pattern t k) as [r|]; [|discriminate].
  destruct (re_search r s) as [[pre m]|] eqn:Sr; intros H; injection H as <-;
    [|auto].
  intros _. unfold re_sub.
  assert (Ln : length s < S (length s)) by lia.
  destruct (@sub_from_first r (fun x => replace_color html_unescape x t v)
              s pre m (S (length s)) Ln Sr) as [tail ->].
  apply replace_color_line_tag.
Qed.

Lemma replace_colors_line_tag t cols : forall s s',
  _replace_colors html_unescape s cols t = Some s' ->
  has_line_tag s -> has_line_tag s'.
Proof.
  induction cols as [|[k v] cols IH]; simpl; intros s s' H L.
  - injection H as <-. exact L.
  - destruct (replace_entry html_unescape t k v s) as [s1|] eqn:E;
      [|discriminate].
    eapply IH; [exact H|]. eapply replace_entry_line_tag; eauto.
Qed.

Lemma re_search_tag_pattern t s :
  re_search (tag_pattern t) s <> None <-> has_dotted_span t s.
Proof.
  split.
  - intros H. destruct (re_search (tag_pattern t) s) as [[pre m]|] eqn:Sr;
      [|congruence].
    apply re_search_some in Sr as [E M].
    exists pre, (m_text m), (m_rest m). split; [exact E|].
    apply lang_tag_pattern. exists (m_caps m). exact M.
  - intros (pre & p & post & E & D) N.
    rewrite re_search_none in N. apply (N pre p post E).
    apply lang_tag_pattern. exact D.
Qed.

(** Once a family was found, the text of the loop has a bracket pair on a
    line. *)
Lemma srt_loop_line_tag cols tags : forall s flag out,
  srt_loop html_unescape cols tags s flag = Some (out, false) ->
  (flag = false -> has_line_tag s) -> has_line_tag out.
Proof.
  induction tags as [|t tags IH]; simpl; intros s flag out H L.
  - injection H as <- ->. auto.
  - destruct (re_search (tag_pattern t) s) as [found|] eqn:Sr.
    + destruct (_replace_colors html_unescape s cols t) as [s1|] eqn:R;
        [|discriminate].
      eapply IH; [exact H|]. intros _.
      eapply replace_colors_line_tag; [exact R|].
      apply (dotted_span_line_tag (t := t)).
      apply re_search_tag_pattern. congruence.
    + eapply IH; eauto.
Qed.

(** While no family is found, the text of the loop is the raw text. *)
Lemma srt_loop_none cols tags : forall s,
  (forall t, In t tags -> ~ has_dotted_span t s) ->
  srt_loop html_unescape cols tags s true = Some (s, true).
Proof.
  induction tags as [|t tags IH]; simpl; intros s H; [reflexivity|].
  destruct (re_search (tag_pattern t) s) as [found|] eqn:Sr.
  - exfalso. apply (H t (or_introl eq_refl)).
    apply re_search_tag_pattern. congruence.
  - apply IH. intros t' Hin. apply H. right; exact Hin.
Qed.

Lemma srt_loop_all_fail cols tags : forall s out,
  srt_loop html_unescape cols tags s true = Some (out, true) ->
  forall t, In t tags -> ~ has_dotted_span t s.
Proof.
  induction tags as [|t tags IH]; simpl; intros s out H t' Hin; [tauto|].
  destruct (re_search (tag_pattern t) s) as [found|] eqn:Sr.
  - exfalso.
    destruct (_replace_colors html_unescape s cols t) as [s1|];
      [|discriminate].
    assert (F : forall tg x o,
               srt_loop html_unescape cols tg x false <> Some (o, true)).
    { clear. induction tg as [|t tg IHt]; simpl; intros x o.
      - congruence.
      - destruct (re_search (tag_pattern t) x); [|apply IHt].
        destruct (_replace_colors html_unescape x cols t); [apply IHt|].
        discriminate. }
    exact (F _ _ _ H).
  - destruct Hin as [<- | Hin].
    + intros D. apply re_search_tag_pattern in D. congruence.
    + eapply IH; eauto.
Qed.

Lemma in_families t : In t families.
Proof. destruct t; simpl; auto. Qed.

Lemma to_srt_plain cols c :
  (forall t, ~ has_dotted_span t (raw_text c)) ->
  to_srt_formatted html_unescape c cols = Some (text c).
Proof.
  intros H. unfold to_srt_formatted.
  rewrite srt_loop_none; [reflexivity|]. intros t _. apply H.
Qed.

Lemma to_srt_plain_iff cols c out :
  to_srt_formatted html_unescape c cols = Some out ->
  (out = text c <-> forall t, ~ has_dotted_span t (raw_text c)).
Proof.
  unfold to_srt_formatted.
  destruct (srt_loop html_unescape cols families (raw_text c) true)
    as [[s flag]|] eqn:L; [|discriminate].
  intros H; injection H as <-. destruct flag.
  - split; [|reflexivity]. intros _ t.
    eapply srt_loop_all_fail; [exact L | apply in_families].
  - split.
    + intros E. exfalso.
      apply (strip_no_line_tag (raw_text c)).
      rewrite <- text_scan, <- E.
      eapply srt_loop_line_tag; [exact L | discriminate].
    + intros N. rewrite srt_loop_none in L by (intros t _; apply N).
      discriminate.
Qed.

End TranslatorPath.

(** * Markup translation: what is rewritten *)

(** The texts that a class name matches once pasted into a pattern: a dot
    of the name stands for any character but the line feed. *)
Inductive name_text : pystr -> pystr -> Prop :=
| NT_nil : name_text [] []
| NT_dot k p b :
    cset_mem CAny b = true -> name_text k p ->
    name_text ("."%char :: k) (b :: p)
| NT_chr a k p :
    is_special a = false -> name_text k p -> name_text (a :: k) (a :: p).

(** A class name without any special character. *)
Definition plain_name (k : pystr) : Prop :=
  forallb (fun a => negb (is_special a)) k = true.

(** An optional qualifier: nothing, or a dot and more on the same line. *)
Definition qualifier_text (q : pystr) : Prop :=
  q = [] \/ exists q', q = str "." ++ q' /\ on_line q'.

(** [<FAMILY q1 .name q2>content</FAMILY>], on one line: the texts of
    [colour_pattern]. *)
Definition colour_span (t : family) (k p content : pystr) : Prop :=
  exists q1 kt q2,
    p = open_tag t ++ q1 ++ str "." ++ kt ++ q2 ++ str ">" ++ content
        ++ close_tag t
    /\ qualifier_text q1 /\ name_text k kt /\ qualifier_text q2
    /\ on_line content.

(** The markup that replaces a span. *)
Definition font_markup (t : family) (v content : pystr) : pystr :=
  (if is_c t then [] else str "<" ++ tag_name t ++ str ">")
  ++ str "<font color=" ++ [DQ] ++ v ++ [DQ] ++ str ">"
  ++ content
  ++ str "</font>"
  ++ (if is_c t then [] else close_tag t).

Lemma dot_special : is_special "."%char = true.
Proof. reflexivity. Qed.

Lemma splice_matches k : forall rk,
  splice k = Some rk ->
  forall p c c', matches rk p c c' <-> (name_text k p /\ c' = c).
Proof.
  induction k as [|a k IH]; simpl; intros rk H p c c'.
  - injection H as <-. split.
    + intros M. invert_matches. split; [constructor | reflexivity].
    + intros [N ->]. inversion N; subst. constructor.
  - destruct (splice k) as [r|]; [|discriminate].
    specialize (IH r eq_refl).
    destruct (ascii_eqb a "."%char) eqn:D.
    + apply ascii_eqb_eq in D; subst a. injection H as <-. split.
      * intros M. invert_matches.
        apply IH in M as [N ->]. split; [|reflexivity].
        apply NT_dot; assumption.
      * intros [N ->]. inversion N; subst.
        -- change (b :: p0) with ([b] ++ p0).
           eapply M_seq; [apply M_chr; assumption | apply IH; auto].
        -- match goal with
           | X : is_special "."%char = false |- _ =>
               rewrite dot_special in X; discriminate
           end.
    + destruct (is_special a) eqn:Sp; [discriminate|].
      injection H as <-. split.
      * intros M. invert_matches.
        apply IH in M as [N ->]. split; [|reflexivity].
        apply NT_chr; assumption.
      * intros [N ->]. inversion N; subst.
        -- rewrite ascii_eqb_refl in D. discriminate.
        -- change (a :: p0) with ([a] ++ p0).
           eapply M_seq; [apply M_lit | apply IH; auto].
Qed.

Lemma splice_some k :
  splice k <> None
  <-> forallb (fun a => ascii_eqb a "."%char || negb (is_special a)) k = true.
Proof.
  induction k as [|a k IH]; simpl; [split; congruence|].
  destruct (splice k) as [r|].
  - assert (E : forallb
                  (fun a => ascii_eqb a "."%char || negb (is_special a)) k
                = true) by (apply IH; congruence).
    rewrite E, andb_true_r.
    destruct (ascii_eqb a "."%char); simpl; [split; congruence|].
    destruct (is_special a); simpl; split; congruence.
  - assert (E : forallb
                  (fun a => ascii_eqb a "."%char || negb (is_special a)) k
                = false).
    { destruct (forallb _ k); [|reflexivity].
      exfalso. apply IH; reflexivity. }
    rewrite E, andb_false_r. split; congruence.
Qed.

Lemma name_text_plain k p : plain_name k -> (name_text k p <-> p = k).
Proof.
  unfold plain_name. revert p; induction k as [|a k IH]; intros p H.
  - split; [inversion 1; reflexivity | intros ->; constructor].
  - simpl in H. apply andb_true_iff in H as [Ha H].
    apply negb_true_iff in Ha. split.
    + inversion 1; subst.
      * rewrite dot_special in Ha. discriminate.
      * f_equal. apply IH; assumption.
    + intros ->. apply NT_chr; [assumption|]. apply IH; auto.
Qed.

Lemma matches_qualifier q c c' :
  matches qualifier q c c' <-> (qualifier_text q /\ c' = c).
Proof.
  unfold qualifier, qualifier_text. split.
  - intros M. invert_matches.
    + split; [|reflexivity]. right. eexists; split; [reflexivity|assumption].
    + split; [left|]; reflexivity.
  - intros [[-> | (q' & -> & Hq)] ->].
    + apply M_opt_none.
    + apply M_opt_some. eapply M_seq; [apply M_lit | apply M_lazy; exact Hq].
Qed.

(** The matches of [colour_pattern]: a span, with its content in group
    1. *)
Lemma colour_pattern_matches t k r p c' :
  colour_pattern t k = Some r ->
  matches r p [] c'
  <-> exists content, colour_span t k p content /\ c' = [(1, content)].
Proof.
  unfold colour_pattern. destruct (splice k) as [rk|] eqn:Sk; [|discriminate].
  intros H; injection H as <-. split.
  - intros M.
    apply matches_seq in M as (p1 & p2 & c1 & -> & M1 & M).
    apply matches_lit in M1 as [-> ->].
    apply matches_seq in M as (q1 & p3 & c2 & -> & Mq1 & M).
    apply matches_qualifier in Mq1 as [Hq1 ->].
    apply matches_seq in M as (d & p4 & c3 & -> & Md & M).
    apply matches_lit in Md as [-> ->].
    apply matches_seq in M as (kt & p5 & c4 & -> & Mk & M).
    apply (splice_matches _ Sk) in Mk as [Hk ->].
    apply matches_seq in M as (q2 & p6 & c5 & -> & Mq2 & M).
    apply matches_qualifier in Mq2 as [Hq2 ->].
    invert_matches.
    eexists. split; [|reflexivity].
    exists q1, kt, q2. repeat split; auto.
  - intros (content & (q1 & kt & q2 & -> & Hq1 & Hk & Hq2 & Hc) & ->).
    unfold open_tag, close_tag.
    eapply M_seq; [apply M_lit|].
    eapply M_seq; [apply matches_qualifier; split; [exact Hq1|reflexivity]|].
    eapply M_seq; [apply M_lit|].
    eapply M_seq;
      [apply (splice_matches _ Sk); split; [exact Hk|reflexivity]|].
    eapply M_seq; [apply matches_qualifier; split; [exact Hq2|reflexivity]|].
    eapply M_seq; [apply M_lit|].
    eapply M_seq; [apply M_grp, M_lazy; exact Hc|].
    apply M_lit.
Qed.

(** A text without [&]: [html.unescape] returns it as it is. *)
Definition amp_free (s : pystr) : Prop :=
  forallb (fun a => negb (ascii_eqb a "&"%char)) s = true.

Section TranslatorRewrite.

Variable html_unescape : pystr -> pystr.

Lemma replace_entry_sub t k v r s :
  colour_pattern t k = Some r ->
  replace_entry html_unescape t k v s
  = Some (re_sub r (fun x => replace_color html_unescape x t v) s).
Proof.
  intros Hr. unfold replace_entry. rewrite Hr.
  destruct (re_search r s) eqn:Sr; [reflexivity|].
  unfold re_sub. rewrite sub_from_no_match by assumption. reflexivity.
Qed.

End TranslatorRewrite.

(** [Caption(text=l)] for a list of lines: times at zero, no identifier. *)
Definition new_caption (l : list pystr) : Caption :=
  mkCaption (S754_zero false) (S754_zero false) None l.

Definition hello_cue : Caption := new_caption [str "Hello <c.red>world</c>"].
Definition hi_cue : Caption := new_caption [str "<i.blue>Hi</i>"].
Definition plain_hi_cue : Caption := new_caption [str "<i>Hi</i>"].

(** C3, as the code has it. [to_srt_formatted] returns the plain text of
    the cue, stripped of its tags, exactly when none of the four families
    has a span [<FAMILY.qualifier>...</FAMILY>] on one line of the raw
    text: the dot after the family name is required, so a raw text whose
    only span is [<i>Hi</i>] has no recognized span and translates to
    [Hi]. *)
Theorem to_srt_fallback (html_unescape : pystr -> pystr) (c : Caption)
        (cols : dict) :
  ((forall t, ~ has_dotted_span t (raw_text c)) ->
   to_srt_formatted html_unescape c cols = Some (text c))
  /\ (forall out,
         to_srt_formatted html_unescape c cols = Some out ->
         (out = text c <-> forall t, ~ has_dotted_span t (raw_text c)))
  /\ to_srt_formatted html_unescape plain_hi_cue cols = Some (str "Hi").
Proof.
  split; [apply to_srt_plain|].
  split; [intros out; apply to_srt_plain_iff|].
  vm_compute. reflexivity.
Qed.

Lemma to_srt_fallback_witness :
  to_srt_formatted (fun x => x) plain_hi_cue [(str "blue", str "blue")]
  = Some (text plain_hi_cue).
Proof.
  apply (proj1 (to_srt_fallback (fun x => x) plain_hi_cue
                                [(str "blue", str "blue")])).
  intros t D. apply re_search_tag_pattern in D. apply D.
  destruct t; vm_compute; reflexivity.
Defined.

(** C3, as stated, fails: [<i>Hi</i>] is a span with the qualifier left
    out, and its translation is the plain text. *)
Lemma to_srt_fallback_unqualified_fails :
  ~ (to_srt_formatted (fun x => x) plain_hi_cue [(str "blue", str "blue")]
     = Some (text plain_hi_cue)
     <-> forall t, ~ has_spec_span t (raw_text plain_hi_cue)).
Proof.
  intros [H _]. apply (H eq_refl Fi).
  exists [], (str "<i>Hi</i>"), []. split; [reflexivity|].
  exists [], (str "Hi"). split; [reflexivity | left; reflexivity].
Qed.

(** * Further properties of the caption *)

(** [add_line] called for each line of [ls] in turn. *)
Definition add_lines (c : Caption) (ls : list pystr) : Caption :=
  fold_left add_line ls c.

Lemma lines_add_lines ls : forall c, lines (add_lines c ls) = lines c ++ ls.
Proof.
  unfold add_lines. induction ls as [|l ls IH]; intros c; simpl.
  - symmetry. apply app_nil_r.
  - rewrite IH. unfold add_line, lines. simpl.
    rewrite <- app_assoc. reflexivity.
Qed.

Lemma join_snoc sep ls l :
  join sep (ls ++ [l])
  = match ls with
    | [] => l
    | _ :: _ => join sep ls ++ sep ++ l
    end.
Proof.
  induction ls as [|a ls IH]; [reflexivity|].
  destruct ls as [|b ls]; [reflexivity|].
  change (join sep (((a :: b :: ls)) ++ [l]))
    with (a ++ sep ++ join sep ((b :: ls) ++ [l])).
  rewrite IH. change (join sep (a :: b :: ls))
    with (a ++ sep ++ join sep (b :: ls)).
  repeat rewrite <- app_assoc. reflexivity.
Qed.

(** X1. Lines appended with [add_line] come out of [raw_text] in the
    order of the calls, after the lines the cue had, with one line feed
    between two lines: a first line gets no line feed in front, and an
    empty line appended to a cue with lines adds a line feed only. *)
Theorem raw_text_add_lines (c : Caption) (ls : list pystr) (l : pystr) :
  raw_text (add_lines c ls) = join [LF] (lines c ++ ls)
  /\ raw_text (add_lines (new_caption []) ls) = join [LF] ls
  /\ raw_text (add_line c l)
     = match lines c with
       | [] => l
       | _ :: _ => raw_text c ++ [LF] ++ l
       end.
Proof.
  split; [|split].
  - unfold raw_text. rewrite lines_add_lines. reflexivity.
  - unfold raw_text. rewrite lines_add_lines. reflexivity.
  - unfold raw_text, add_line, lines. simpl _lines. apply join_snoc.
Qed.

(** [_clean_cue_tags] is the scan [strip_line_tags]. *)
Lemma clean_scan (s : pystr) : _clean_cue_tags s = strip_line_tags false s.
Proof. unfold _clean_cue_tags, re_sub. apply clean_cue_tags_scan. lia. Qed.

(** A text where no [<] is followed by [>] on its line is left as it is. *)
Lemma strip_fixed s :
  (forall pre y, s = pre ++ "<"%char :: y -> closes_on_line y = false) ->
  strip_line_tags false s = s.
Proof.
  induction s as [|a s IH]; intros H; [reflexivity|]. simpl.
  destruct (ascii_eqb a "<"%char) eqn:E.
  - apply ascii_eqb_eq in E; subst a.
    rewrite (H [] s eq_refl). simpl. f_equal. apply IH.
    intros pre y ->. apply (H ("<"%char :: pre) y eq_refl).
  - simpl. f_equal. apply IH.
    intros pre y ->. apply (H (a :: pre) y eq_refl).
Qed.

(** X2. Cleaning is idempotent: the plain text of a cue holds no tag that
    a second cleaning would remove, that is, no [<] with a [>] after it on
    the same line. *)
Theorem clean_cue_tags_idempotent (s : pystr) (c : Caption) :
  _clean_cue_tags (_clean_cue_tags s) = _clean_cue_tags s
  /\ _clean_cue_tags (text c) = text c
  /\ ~ has_line_tag (text c).
Proof.
  assert (A : forall x,
             _clean_cue_tags (_clean_cue_tags x) = _clean_cue_tags x).
  { intros x. rewrite !clean_scan. apply strip_fixed.
    intros pre y E. eapply strip_no_open. exact E. }
  split; [apply A|]. split; [apply (A (raw_text c))|].
  rewrite text_scan. apply strip_no_line_tag.
Qed.

(** [sub] is [s] with some characters left out. *)
Inductive subseq : pystr -> pystr -> Prop :=
| Subseq_nil : subseq [] []
| Subseq_skip a sub s : subseq sub s -> subseq sub (a :: s)
| Subseq_keep a sub s : subseq sub s -> subseq (a :: sub) (a :: s).

Lemma strip_subseq s : forall in_tag, subseq (strip_line_tags in_tag s) s.
Proof.
  induction s as [|a s IH]; intros in_tag; simpl; [constructor|].
  destruct in_tag; [apply Subseq_skip, IH|].
  destruct (ascii_eqb a "<"%char && closes_on_line s).
  - apply Subseq_skip, IH.
  - apply Subseq_keep, IH.
Qed.

Lemma subseq_length sub s : subseq sub s -> length sub <= length s.
Proof. induction 1; simpl; lia. Qed.

(** X3. The plain text only leaves characters of the raw text out: it is
    a subsequence of the raw text, never longer, and a raw text without
    [<] is its own plain text. *)
Theorem text_subsequence (c : Caption) :
  subseq (text c) (raw_text c)
  /\ length (text c) <= length (raw_text c)
  /\ (forallb (fun a => negb (ascii_eqb a "<"%char)) (raw_text c) = true ->
      text c = raw_text c).
Proof.
  rewrite text_scan. split; [apply strip_subseq|].
  split; [apply subseq_length, strip_subseq|].
  intros H. apply strip_fixed. intros pre y E. exfalso.
  rewrite E, forallb_app in H. apply andb_true_iff in H as [_ H].
  simpl in H. discriminate.
Qed.

Lemma text_subsequence_witness :
  text (new_caption [str "a > b"; str "c"])
  = raw_text (new_caption [str "a > b"; str "c"]).
Proof.
  apply (proj2 (proj2 (text_subsequence
                         (new_caption [str "a > b"; str "c"])))).
  reflexivity.
Defined.

(** * Lines and line breaks *)

(** A text without any character that [str.splitlines] breaks at. *)
Definition no_linebreak (l : pystr) : Prop :=
  forallb (fun a => negb (is_linebreak a)) l = true.

Lemma splitlines_from_step cur a s :
  is_linebreak a = true ->
  exists s', splitlines_from cur (a :: s) = rev cur :: splitlines_from [] s'
             /\ length s' <= length s
             /\ filter (fun a => negb (is_linebreak a)) s'
                = filter (fun a => negb (is_linebreak a)) s.
Proof.
  intros H. simpl. rewrite H. destruct s as [|b s].
  - exists []. auto.
  - destruct (ascii_eqb a CR && ascii_eqb b LF) eqn:E.
    + exists s. split; [reflexivity|]. split; [simpl; lia|].
      apply andb_true_iff in E as [_ E]. apply ascii_eqb_eq in E; subst b.
      reflexivity.
    + exists (b :: s). auto.
Qed.

Lemma splitlines_from_keep cur a s :
  is_linebreak a = false ->
  splitlines_from cur (a :: s) = splitlines_from (a :: cur) s.
Proof. intros H. simpl. rewrite H. reflexivity. Qed.

Lemma no_linebreak_rev l : no_linebreak l -> no_linebreak (rev l).
Proof.
  unfold no_linebreak. rewrite !forallb_forall. intros H a Ha.
  apply H, in_rev, Ha.
Qed.

Lemma splitlines_from_lines n : forall s cur,
  length s <= n -> no_linebreak cur ->
  Forall no_linebreak (splitlines_from cur s)
  /\ concat (splitlines_from cur s)
     = rev cur ++ filter (fun a => negb (is_linebreak a)) s.
Proof.
  induction n as [|n IH]; intros s cur L Hc.
  - destruct s; [|simpl in L; lia]. simpl.
    destruct cur as [|c cur]; [split; [constructor | reflexivity]|].
    split; [repeat constructor; apply no_linebreak_rev, Hc|].
    simpl. rewrite !app_nil_r. reflexivity.
  - destruct s as [|a s].
    { apply IH; [simpl; lia | exact Hc]. }
    simpl in L. destruct (is_linebreak a) eqn:B.
    + destruct (@splitlines_from_step cur a s B) as (s' & -> & L' & F).
      destruct (IH s' [] ltac:(lia) eq_refl) as [A1 A2].
      split; [constructor; [apply no_linebreak_rev, Hc | exact A1]|].
      cbn [concat filter]. rewrite B, A2, F. reflexivity.
    + rewrite (@splitlines_from_keep cur a s B).
      destruct (IH s (a :: cur) ltac:(lia)) as [A1 A2].
      { unfold no_linebreak. simpl. rewrite B. exact Hc. }
      split; [exact A1|].
      rewrite A2. cbn [filter rev]. rewrite B. simpl.
      rewrite <- app_assoc. reflexivity.
Qed.

(** X4. After a string was assigned to the text of a cue, no line of the
    cue holds a line break character, and the lines put end to end are
    the string without its line break characters: the setter loses nothing
    else. *)
Theorem set_text_lines (c : Caption) (s : pystr) :
  Forall no_linebreak (lines (fst (set_text c (PyStr s))))
  /\ concat (lines (fst (set_text c (PyStr s))))
     = filter (fun a => negb (is_linebreak a)) s.
Proof.
  simpl. unfold lines. simpl. unfold splitlines.
  apply (@splitlines_from_lines (length s) s []); [lia | reflexivity].
Qed.

Lemma splitlines_from_app l : forall cur s,
  no_linebreak l ->
  splitlines_from cur (l ++ s) = splitlines_from (rev l ++ cur) s.
Proof.
  unfold no_linebreak. induction l as [|a l IH]; intros cur s H;
    [reflexivity|].
  simpl in H. apply andb_true_iff in H as [Ha H].
  apply negb_true_iff in Ha.
  change ((a :: l) ++ s) with (a :: (l ++ s)).
  rewrite (@splitlines_from_keep cur a (l ++ s) Ha), IH by exact H.
  simpl. rewrite <- app_assoc. reflexivity.
Qed.

Lemma splitlines_from_LF cur s :
  splitlines_from cur (LF :: s) = rev cur :: splitlines_from [] s.
Proof. destruct s; reflexivity. Qed.

Lemma splitlines_join ls :
  Forall no_linebreak ls -> (forall ls', ls <> ls' ++ [[]]) ->
  splitlines (join [LF] ls) = ls.
Proof.
  unfold splitlines. induction ls as [|l ls IH]; intros H N; [reflexivity|].
  inversion H as [|? ? Hl Hls]; subst.
  destruct ls as [|l2 ls].
  - simpl. rewrite <- (app_nil_r l) at 1.
    rewrite splitlines_from_app by exact Hl. rewrite app_nil_r. simpl.
    destruct (rev l) as [|a r] eqn:E.
    + exfalso. apply (N []). simpl. f_equal.
      apply (f_equal (@rev ascii)) in E. rewrite rev_involutive in E.
      exact E.
    + rewrite <- E, rev_involutive. reflexivity.
  - change (join [LF] (l :: l2 :: ls))
      with (l ++ LF :: join [LF] (l2 :: ls)).
    rewrite splitlines_from_app by exact Hl.
    rewrite app_nil_r, splitlines_from_LF, rev_involutive. f_equal.
    apply IH; [exact Hls|].
    intros ls' E. apply (N (l :: ls')). simpl. rewrite E. reflexivity.
Qed.

(** X5. Assigning its own raw text to the text of a cue changes nothing,
    when no line of the cue holds a line break character and the last
    line is not empty. *)
Theorem set_text_raw_text (c : Caption) :
  Forall no_linebreak (lines c) ->
  (forall ls', lines c <> ls' ++ [[]]) ->
  set_text c (PyStr (raw_text c)) = (c, None).
Proof.
  intros H N. simpl. unfold raw_text. rewrite splitlines_join by assumption.
  destruct c; reflexivity.
Qed.

Lemma set_text_raw_text_witness :
  set_text (new_caption [str "a <b>b</b>"; []; str "c"])
           (PyStr (raw_text (new_caption [str "a <b>b</b>"; []; str "c"])))
  = (new_caption [str "a <b>b</b>"; []; str "c"], None).
Proof.
  apply set_text_raw_text.
  - repeat constructor.
  - intros ls' E. apply (f_equal (@rev pystr)) in E.
    rewrite rev_app_distr in E. discriminate E.
Defined.

Lemma splitlines_from_nil cur s :
  splitlines_from cur s = [] -> cur = [] /\ s = [].
Proof.
  revert cur. induction s as [|a s IH]; intros cur H.
  - simpl in H. destruct cur; [auto | discriminate].
  - simpl in H. destruct (is_linebreak a); [discriminate|].
    apply IH in H as [H _]. discriminate.
Qed.

Lemma join_cons sep l ls :
  ls <> [] -> join sep (l :: ls) = l ++ sep ++ join sep ls.
Proof. destruct ls; [congruence | reflexivity]. Qed.

Lemma join_splitlines_from s : forall cur,
  forallb (fun a => negb (is_linebreak a) || ascii_eqb a LF) s = true ->
  (forall s', s <> s' ++ [LF]) ->
  join [LF] (splitlines_from cur s) = rev cur ++ s.
Proof.
  induction s as [|a s IH]; intros cur H N.
  - simpl. destruct cur; [reflexivity|]. simpl. rewrite app_nil_r.
    reflexivity.
  - simpl in H. apply andb_true_iff in H as [Ha H].
    assert (N' : forall s', s <> s' ++ [LF]).
    { intros s' E. apply (N (a :: s')). simpl. rewrite E. reflexivity. }
    destruct (is_linebreak a) eqn:B.
    + simpl in Ha. apply ascii_eqb_eq in Ha; subst a.
      rewrite splitlines_from_LF, join_cons.
      * rewrite IH by assumption. reflexivity.
      * intros E. apply splitlines_from_nil in E as [_ ->].
        apply (N []). reflexivity.
    + rewrite (@splitlines_from_keep cur a s B), IH by assumption.
      simpl. rewrite <- app_assoc. reflexivity.
Qed.

(** X6. A string whose only line break characters are line feeds and that
    does not end with one is read back as the raw text after it was
    assigned to the text of a cue. *)
Theorem raw_text_set_text (c : Caption) (s : pystr) :
  forallb (fun a => negb (is_linebreak a) || ascii_eqb a LF) s = true ->
  (forall s', s <> s' ++ [LF]) ->
  raw_text (fst (set_text c (PyStr s))) = s.
Proof.
  intros H N. simpl. unfold raw_text, lines. simpl. unfold splitlines.
  apply (join_splitlines_from [] H N).
Qed.

Lemma raw_text_set_text_witness :
  raw_text (fst (set_text (new_caption [str "old"])
                          (PyStr (str "a" ++ [LF; LF] ++ str "b"))))
  = str "a" ++ [LF; LF] ++ str "b".
Proof.
  apply raw_text_set_text.
  - reflexivity.
  - intros s' E. apply (f_equal (@rev ascii)) in E.
    rewrite (rev_app_distr s') in E. cbv in E. discriminate E.
Defined.

(** * The lines of a style block *)

Lemma split_from_cons sep s : forall cur,
  exists l ls, split_from sep cur s = l :: ls.
Proof.
  induction s as [|a s IH]; intros cur; simpl; [eauto|].
  destruct (ascii_eqb a sep); eauto.
Qed.

Lemma join_split_from sep s : forall cur,
  join [sep] (split_from sep cur s) = rev cur ++ s.
Proof.
  induction s as [|a s IH]; intros cur; simpl.
  - rewrite app_nil_r. reflexivity.
  - destruct (ascii_eqb a sep) eqn:E.
    + apply ascii_eqb_eq in E; subst a.
      destruct (split_from_cons sep s []) as (l & ls & El).
      rewrite join_cons by (rewrite El; discriminate).
      rewrite IH. reflexivity.
    + rewrite IH. simpl. rewrite <- app_assoc. reflexivity.
Qed.

Lemma split_from_length sep s : forall cur,
  length (split_from sep cur s)
  = S (length (filter (fun a => ascii_eqb a sep) s)).
Proof.
  induction s as [|a s IH]; intros cur; simpl; [reflexivity|].
  destruct (ascii_eqb a sep); simpl; rewrite IH; reflexivity.
Qed.

Lemma split_from_free sep s : forall cur,
  forallb (fun a => negb (ascii_eqb a sep)) cur = true ->
  Forall (fun l => forallb (fun a => negb (ascii_eqb a sep)) l = true)
         (split_from sep cur s).
Proof.
  assert (R : forall cur,
             forallb (fun a => negb (ascii_eqb a sep)) cur = true ->
             forallb (fun a => negb (ascii_eqb a sep)) (rev cur) = true).
  { intros cur. rewrite !forallb_forall. intros H a Ha.
    apply H, in_rev, Ha. }
  induction s as [|a s IH]; intros cur H; simpl.
  - repeat constructor. apply R, H.
  - destruct (ascii_eqb a sep) eqn:E.
    + constructor; [apply R, H | apply IH; reflexivity].
    + apply IH. simpl. rewrite E. exact H.
Qed.

(** X7. After a string was assigned to the text of a style block, the
    lines of the block joined with line feeds are the string again; there
    is one line more than the string has line feeds, so at least one, and
    no line holds a line feed. *)
Theorem style_set_text_lines (st : Style) (s : pystr) :
  snd (style_set_text st (PyStr s)) = None
  /\ join [LF] (style_lines (fst (style_set_text st (PyStr s)))) = s
  /\ length (style_lines (fst (style_set_text st (PyStr s))))
     = S (length (filter (fun a => ascii_eqb a LF) s))
  /\ Forall (fun l => forallb (fun a => negb (ascii_eqb a LF)) l = true)
            (style_lines (fst (style_set_text st (PyStr s)))).
Proof.
  simpl. unfold split. split; [reflexivity|].
  split; [apply (join_split_from LF s [])|].
  split; [apply split_from_length | apply split_from_free; reflexivity].
Qed.

(** * More on timestamps *)

(** X8. Once [H:MM:SS] and three millisecond digits were read, what
    follows them is ignored, and a comma is read like a dot: the value,
    and the start of a cue set from the text, are the same. The hour
    digits may be missing ([:MM:SS.mmm]). *)
Theorem parse_timestamp_trailing (h m s f rest : pystr) (sep sep' : ascii) :
  all_digits h -> all_digits m -> length m = 2 ->
  all_digits s -> length s = 2 ->
  sep = "."%char \/ sep = ","%char -> sep' = "."%char \/ sep' = ","%char ->
  all_digits f -> length f = 3 ->
  _parse_timestamp (h ++ str ":" ++ m ++ str ":" ++ s ++ sep :: f ++ rest)
  = _parse_timestamp (h ++ str ":" ++ m ++ str ":" ++ s ++ sep' :: f)
  /\ forall c,
      set_start c (h ++ str ":" ++ m ++ str ":" ++ s ++ sep :: f ++ rest)
      = set_start c (h ++ str ":" ++ m ++ str ":" ++ s ++ sep' :: f).
Proof.
  intros Hh Hm Lm Hs Ls Hsep Hsep' Hf Lf.
  assert (E : _parse_timestamp
                (h ++ str ":" ++ m ++ str ":" ++ s ++ sep :: f ++ rest)
              = _parse_timestamp
                  (h ++ str ":" ++ m ++ str ":" ++ s ++ sep' :: f)).
  { rewrite (@parse_timestamp_canonical h m s sep f rest) by assumption.
    rewrite <- (app_nil_r f) at 2.
    rewrite (@parse_timestamp_canonical h m s sep' f []) by assumption.
    reflexivity. }
  split; [exact E|]. intros c. unfold set_start. rewrite E. reflexivity.
Qed.

Lemma parse_timestamp_trailing_witness :
  _parse_timestamp (str "01:02:03,456 --> 01:02:05.000")
  = _parse_timestamp (str "01:02:03.456").
Proof.
  apply (proj1 (@parse_timestamp_trailing
                  (str "01") (str "02") (str "03") (str "456")
                  (str " --> 01:02:05.000") ","%char "."%char
                  eq_refl eq_refl eq_refl eq_refl eq_refl
                  (or_intror eq_refl) (or_introl eq_refl)
                  eq_refl eq_refl)).
Defined.

Lemma timestamp_text_head p :
  timestamp_text p ->
  9 <= length p
  /\ exists a p', p = a :: p' /\ (is_digit a = true \/ a = ":"%char).
Proof.
  intros [h colon m s sep f Hh Hc Hm Lm Hs Ls Hsep Hf Lf]. split.
  - repeat (rewrite ?length_app; simpl length). lia.
  - destruct h as [|a h].
    + destruct Hc as [-> | ->].
      * destruct m as [|a m]; [discriminate|].
        exists a. eexists. split; [reflexivity|]. left.
        unfold all_digits in Hm. simpl in Hm.
        apply andb_true_iff in Hm as [Ha _]. exact Ha.
      * exists ":"%char. eexists. split; [reflexivity | right; reflexivity].
    + exists a. eexists. split; [reflexivity|]. left.
      unfold all_digits in Hh. simpl in Hh.
      apply andb_true_iff in Hh as [Ha _]. exact Ha.
Qed.

(** X9. A text of fewer than nine characters, and a text whose first
    character is neither a digit nor a colon, is no timestamp:
    [_parse_timestamp] raises [MalformedCaptionError], and so does setting
    the start or the end of a cue from it. *)
Theorem parse_timestamp_rejects (ts : pystr) :
  (length ts < 9
   \/ exists a rest, ts = a :: rest /\ is_digit a = false /\ a <> ":"%char) ->
  _parse_timestamp ts = Raise MalformedCaptionError
  /\ forall c, set_start c ts = Raise MalformedCaptionError
               /\ set_end c ts = Raise MalformedCaptionError.
Proof.
  intros H.
  assert (E : _parse_timestamp ts = Raise MalformedCaptionError).
  { unfold _parse_timestamp.
    destruct (re_match TIMESTAMP_PATTERN ts) as [res|] eqn:M; [|reflexivity].
    exfalso. apply re_match_sound in M as [Et M].
    assert (T : timestamp_text (m_text res)).
    { apply lang_timestamp. exists (m_caps res). exact M. }
    apply timestamp_text_head in T as [L (a & p' & Ep & Ha)].
    destruct H as [H | (b & rest & Eb & Hb & Nb)].
    - rewrite Et, length_app in H. lia.
    - rewrite Et, Ep in Eb. injection Eb as -> _.
      destruct Ha as [Ha | Ha]; congruence. }
  split; [exact E|]. intros c. unfold set_start, set_end. rewrite E.
  split; reflexivity.
Qed.

Lemma parse_timestamp_rejects_witness :
  _parse_timestamp (str " 00:00:01.000") = Raise MalformedCaptionError
  /\ _parse_timestamp (str "1:02.345") = Raise MalformedCaptionError.
Proof.
  split.
  - apply (@parse_timestamp_rejects (str " 00:00:01.000")).
    right. exists " "%char, (str "00:00:01.000").
    split; [reflexivity|]. split; [reflexivity | discriminate].
  - apply (@parse_timestamp_rejects (str "1:02.345")).
    left. simpl. lia.
Defined.

(** The characters of a printed timestamp. *)
Definition timestamp_char (a : ascii) : bool :=
  is_digit a || mem_ascii a (str "-.:infa").

Lemma digit_chr_digit d : (0 <= d < 10)%Z -> is_digit (digit_chr d) = true.
Proof.
  intros H.
  assert (C : (d = 0 \/ d = 1 \/ d = 2 \/ d = 3 \/ d = 4 \/ d = 5 \/ d = 6
               \/ d = 7 \/ d = 8 \/ d = 9)%Z) by lia.
  repeat (destruct C as [-> | C]; [reflexivity|]). subst d. reflexivity.
Qed.

Lemma digits_from_chars fuel : forall n acc,
  forallb timestamp_char acc = true ->
  forallb timestamp_char (digits_from fuel n acc) = true.
Proof.
  induction fuel as [|fuel IH]; intros n acc H; simpl; [exact H|].
  assert (A : forallb timestamp_char (digit_chr (n mod 10) :: acc) = true).
  { simpl. rewrite H, andb_true_r. unfold timestamp_char.
    rewrite digit_chr_digit; [reflexivity|].
    apply Z.mod_pos_bound. lia. }
  destruct (n <? 10)%Z; [exact A | apply IH, A].
Qed.

Lemma zfill_chars w s :
  forallb timestamp_char s = true ->
  forallb timestamp_char (zfill w s) = true /\ w <= length (zfill w s).
Proof.
  intros H. unfold zfill. rewrite forallb_app, H, andb_true_r.
  split.
  - apply forallb_forall. intros a Ha. apply repeat_spec in Ha. subst a.
    reflexivity.
  - rewrite length_app, repeat_length. lia.
Qed.

Lemma format_02d_chars n :
  forallb timestamp_char (format_02d n) = true /\ 2 <= length (format_02d n).
Proof.
  unfold format_02d, int_digits. destruct (n <? 0)%Z.
  - destruct (@zfill_chars 1 (digits_from (S (Z.to_nat (Z.log2 (- n))))
                                          (- n) [])) as [A B].
    { apply digits_from_chars. reflexivity. }
    cbn [forallb length]. rewrite A. split; [reflexivity | lia].
  - apply zfill_chars, digits_from_chars. reflexivity.
Qed.

Lemma signed_zfill_chars neg body :
  forallb timestamp_char body = true ->
  forallb timestamp_char (signed_zfill 6 neg body) = true
  /\ 6 <= length (signed_zfill 6 neg body).
Proof.
  intros H. unfold signed_zfill. destruct neg.
  - destruct (@zfill_chars (6 - 1) body H) as [A B].
    cbn [forallb length]. rewrite A. split; [reflexivity | lia].
  - apply zfill_chars, H.
Qed.

Lemma fixed3_chars n : forallb timestamp_char (fixed3 n) = true.
Proof.
  unfold fixed3, int_digits. rewrite forallb_app. apply andb_true_iff. split.
  - apply digits_from_chars. reflexivity.
  - cbn [forallb]. apply andb_true_iff. split; [reflexivity|].
    apply zfill_chars, digits_from_chars. reflexivity.
Qed.

Lemma format_06_3f_chars x :
  forallb timestamp_char (format_06_3f x) = true
  /\ 6 <= length (format_06_3f x).
Proof.
  destruct x; unfold format_06_3f; apply signed_zfill_chars;
    first [apply fixed3_chars | reflexivity].
Qed.

Lemma to_timestamp_chars x ts :
  _to_timestamp x = Ok ts ->
  12 <= length ts /\ forallb timestamp_char ts = true.
Proof.
  unfold _to_timestamp.
  destruct (float_div_int x 3600%Z) as [q|]; cbn [bind]; [|intros; discriminate].
  destruct (int_of_float q) as [hours|]; cbn [bind]; [|intros; discriminate].
  destruct (float_div_int x 60%Z) as [q'|]; cbn [bind]; [|intros; discriminate].
  destruct (float_sub_int q' (hours * 60)%Z) as [d|]; cbn [bind];
    [|intros; discriminate].
  destruct (int_of_float d) as [minutes|]; cbn [bind]; [|intros; discriminate].
  destruct (float_sub_int x (hours * 3600)%Z) as [r|]; cbn [bind];
    [|intros; discriminate].
  destruct (float_sub_int r (minutes * 60)%Z) as [seconds|]; cbn [bind];
    [|intros; discriminate].
  intros H. injection H as <-.
  destruct (format_02d_chars hours) as [A1 B1].
  destruct (format_02d_chars minutes) as [A2 B2].
  destruct (format_06_3f_chars seconds) as [A3 B3].
  split.
  - rewrite length_app. simpl. rewrite length_app. simpl. lia.
  - rewrite forallb_app, A1. simpl. rewrite forallb_app, A2. simpl.
    exact A3.
Qed.

(** X10. A timestamp that [_to_timestamp] prints has at least the twelve
    characters of [HH:MM:SS.mmm] and holds digits, colons, a dot and signs
    only (or the letters of [inf] and [nan]); a time that is an infinity
    or not a number is not printed: the conversion of the hours to an
    integer raises [OverflowError], or [ValueError]. *)
Theorem to_timestamp_shape (x : float) :
  (forall ts, _to_timestamp x = Ok ts ->
              12 <= length ts /\ forallb timestamp_char ts = true)
  /\ (forall sign, _to_timestamp (S754_infinity sign) = Raise OverflowError)
  /\ _to_timestamp S754_nan = Raise ValueError.
Proof.
  split; [intros ts; apply to_timestamp_chars|].
  split; [intros []; vm_compute; reflexivity | vm_compute; reflexivity].
Qed.

Lemma to_timestamp_shape_witness :
  12 <= length (str "01:01:01.500")
  /\ forallb timestamp_char (str "01:01:01.500") = true.
Proof.
  apply (proj1 (to_timestamp_shape (millis 3661500))).
  vm_compute. reflexivity.
Defined.

(** * Construction and printing *)

(** [s.replace('\n', '\\n')]: a line feed becomes a backslash and an
    [n]. *)
Definition escape_LF (s : pystr) : pystr :=
  flat_map (fun a => if ascii_eqb a LF then str "\n" else [a]) s.

(** [Caption.__str__]: the start is formatted first, then the end. *)
Definition __str__ (c : Caption) : result pystr :=
  start <- get_start c ;;
  end_ <- get_end c ;;
  Ok (start ++ str " " ++ end_ ++ str " " ++ escape_LF (text c)).

(** [Caption.__repr__] of an object whose class is [Caption] itself. *)
Definition __repr__ (c : Caption) : result pystr :=
  start <- get_start c ;;
  end_ <- get_end c ;;
  Ok (str "<Caption start=" ++ start ++ str " end=" ++ end_
      ++ str " text=" ++ escape_LF (text c) ++ str ">").

(** The truth value of an argument. *)
Definition truthy (v : pyval) : bool :=
  match v with
  | PyNone => false
  | PyBool b => b
  | PyInt n => negb (n =? 0)%Z
  | PyFloat (S754_zero _) => false
  | PyFloat _ => true
  | PyStr [] => false
  | PyStr (_ :: _) => true
  | PyLines [] => false
  | PyLines (_ :: _) => true
  end.

(** [Caption.__init__]: [start] is parsed before [end]; a string is split
    into lines, and [text or []] is kept as the lines. A true [text] that
    is neither a string nor a list of strings would be kept as the lines
    too, which [Caption] has no place for: [None]. *)
Definition __init__ (start end_ : pystr) (text : pyval)
  : option (result Caption) :=
  match _parse_timestamp start with
  | Raise e => Some (Raise e)
  | Ok s =>
      match _parse_timestamp end_ with
      | Raise e => Some (Raise e)
      | Ok e =>
          let text1 :=
            match text with
            | PyStr x => if truthy text then PyLines (splitlines x) else text
            | _ => text
            end in
          let text2 := if truthy text1 then text1 else PyLines [] in
          match text2 with
          | PyLines l => Some (Ok (mkCaption s e None l))
          | _ => None
          end
      end
  end.

Lemma timestamp_char_on_line a :
  timestamp_char a = true -> cset_mem CAny a = true.
Proof.
  destruct a as [[] [] [] [] [] [] [] []]; intros H;
    try reflexivity; discriminate H.
Qed.

Lemma timestamp_chars_on_line s :
  forallb timestamp_char s = true -> on_line s.
Proof.
  unfold on_line. rewrite !forallb_forall. intros H a Ha.
  apply timestamp_char_on_line, H, Ha.
Qed.

Lemma escape_LF_on_line s : on_line (escape_LF s).
Proof.
  unfold on_line, escape_LF. induction s as [|a s IH]; [reflexivity|].
  cbn [flat_map]. rewrite forallb_app, IH, andb_true_r.
  destruct (ascii_eqb a LF) eqn:E; [reflexivity|].
  simpl. rewrite E. reflexivity.
Qed.

(** X11. What [__str__] and [__repr__] return is on one line: it holds
    no line feed, whatever the lines of the cue hold. *)
Theorem str_on_one_line (c : Caption) :
  (forall out, __str__ c = Ok out -> on_line out)
  /\ (forall out, __repr__ c = Ok out -> on_line out).
Proof.
  unfold __str__, __repr__, get_start, get_end.
  split; intros out;
    (destruct (_to_timestamp (_start c)) as [s|] eqn:Es; cbn [bind];
     [|intros; discriminate]);
    (destruct (_to_timestamp (_end c)) as [e|] eqn:Ee; cbn [bind];
     [|intros; discriminate]);
    intros H; injection H as <-;
    apply to_timestamp_chars in Es as [_ Es];
    apply to_timestamp_chars in Ee as [_ Ee];
    apply timestamp_chars_on_line in Es, Ee;
    repeat (apply on_line_app;
            [first [assumption | reflexivity | apply escape_LF_on_line]|]);
    first [assumption | reflexivity | apply escape_LF_on_line].
Qed.

Lemma str_on_one_line_witness :
  on_line (str "00:00:00.000 00:00:00.000 a\nb").
Proof.
  apply (proj1 (str_on_one_line (new_caption [str "a"; str "<i>b</i>"]))).
  vm_compute. reflexivity.
Defined.

Lemma add_lines_lines ls : forall c,
  add_lines c ls
  = mkCaption (_start c) (_end c) (identifier c) (_lines c ++ ls).
Proof.
  unfold add_lines. induction ls as [|l ls IH]; intros c; simpl.
  - rewrite app_nil_r. destruct c; reflexivity.
  - rewrite IH. unfold add_line. simpl. rewrite <- app_assoc. reflexivity.
Qed.

(** X12. A cue built with a text is the cue built without one, followed
    by the assignment of the text when the text is a string, and by
    [add_line] for each line when it is a list of lines. An exception
    that the timestamps raise is raised whatever the text, that of the
    start first. *)
Theorem init_with_text (start end_ : pystr) :
  (forall c,
      __init__ start end_ PyNone = Some (Ok c) ->
      lines c = [] /\ identifier c = None
      /\ (forall s, __init__ start end_ (PyStr s)
                    = Some (Ok (fst (set_text c (PyStr s)))))
      /\ (forall l, __init__ start end_ (PyLines l)
                    = Some (Ok (add_lines c l))))
  /\ (forall e text,
         __init__ start end_ PyNone = Some (Raise e) ->
         __init__ start end_ text = Some (Raise e))
  /\ (forall e text,
         _parse_timestamp start = Raise e ->
         __init__ start end_ text = Some (Raise e)).
Proof.
  unfold __init__.
  destruct (_parse_timestamp start) as [s|e1].
  2:{ split; [intros c H; discriminate|].
      split; [intros e text H; exact H|].
      intros e text H. injection H as <-. reflexivity. }
  destruct (_parse_timestamp end_) as [e|e2].
  2:{ split; [intros c H; discriminate|].
      split; [intros e text H; exact H | intros e text H; discriminate]. }
  split; [|split; intros; discriminate].
  intros c H. cbn in H. injection H as <-.
  split; [reflexivity|]. split; [reflexivity|]. split.
  - intros [|a x]; [reflexivity|]. cbn [truthy set_text fst _start _end].
    destruct (splitlines (a :: x)); reflexivity.
  - intros l. rewrite add_lines_lines. destruct l; reflexivity.
Qed.

Lemma init_with_text_witness :
  __init__ (str "00:00:00.000") (str "00:00:00.000")
           (PyStr (str "a" ++ [LF] ++ str "b"))
  = Some (Ok (fst (set_text (new_caption [])
                            (PyStr (str "a" ++ [LF] ++ str "b"))))).
Proof.
  apply (proj1 (init_with_text (str "00:00:00.000") (str "00:00:00.000"))).
  vm_compute. reflexivity.
Defined.

(** * More on style colours *)

(** A colour rule for the class [k] with the value [v]:
    [::cue(.k)], white space, and braces around a text of one line that
    holds [color:v;]. *)
Definition colour_rule (k v p : pystr) : Prop :=
  exists sp a b,
    p = str "::cue(." ++ k ++ str ")" ++ sp ++ str "{" ++ a ++ str "color:"
        ++ v ++ str ";" ++ b ++ str "}"
    /\ k <> [] /\ forallb (cset_mem (CNot ")"%char)) k = true
    /\ forallb is_space sp = true
    /\ on_line a /\ on_line v /\ on_line b.

Lemma colours_pattern_matches p c' :
  matches COLOURS_PATTERN p [] c'
  <-> exists k v, colour_rule k v p /\ c' = [(2, v); (1, k)].
Proof.
  unfold COLOURS_PATTERN, colour_rule. split.
  - intros M. invert_matches.
    eexists _, _. split; [|reflexivity].
    eexists _, _, _. split; [reflexivity|]. repeat split; assumption.
  - intros (k & v & (sp & a & b & -> & Hk & Hk' & Hsp & Ha & Hv & Hb) & ->).
    eapply M_seq; [apply M_lit|].
    eapply M_seq; [apply M_grp, M_plus; assumption|].
    eapply M_seq; [apply M_lit|].
    eapply M_seq; [apply M_star; assumption|].
    eapply M_seq; [apply M_lit|].
    eapply M_seq; [apply M_lazy; assumption|].
    eapply M_seq; [apply M_lit|].
    eapply M_seq; [apply M_grp, M_lazy; assumption|].
    eapply M_seq; [apply M_lit|].
    eapply M_seq; [apply M_lazy; assumption|].
    apply M_lit.
Qed.

(** Every match that [findall] returns is a match of the pattern
    somewhere in the text. *)
Lemma findall_from_sound r m n : forall s,
  In m (findall_from n r s) ->
  exists pre, s = pre ++ m_text m ++ m_rest m
              /\ matches r (m_text m) [] (m_caps m).
Proof.
  induction n as [|n IH]; intros s H; [destruct H|].
  simpl in H. destruct (re_match r s) as [m0|] eqn:E.
  - pose proof (re_match_sound _ _ E) as [Es M].
    assert (Hd : m = m0 ->
                 exists pre, s = pre ++ m_text m ++ m_rest m
                             /\ matches r (m_text m) [] (m_caps m)).
    { intros ->. exists []. auto. }
    destruct (m_text m0) as [|b p] eqn:T.
    + destruct s as [|a s].
      * destruct H as [<- | []]. apply Hd; reflexivity.
      * destruct H as [<- | H]; [apply Hd; reflexivity|].
        apply IH in H as (pre & -> & M'). exists (a :: pre). auto.
    + destruct H as [<- | H]; [apply Hd; reflexivity|].
      apply IH in H as (pre & Er & M'). exists ((b :: p) ++ pre).
      split; [|exact M']. rewrite Es, Er, <- app_assoc. reflexivity.
  - destruct s as [|a s]; [destruct H|].
    apply IH in H as (pre & -> & M'). exists (a :: pre). auto.
Qed.

(** Where [search] finds a match, [findall] returns one. *)
Lemma findall_from_found r s : forall n,
  length s < n -> re_search r s <> None -> findall_from n r s <> [].
Proof.
  induction s as [|a s IH]; intros [|n] L H; try (simpl in L; lia);
    simpl in *.
  - destruct (re_match r []) as [m|]; [|congruence].
    destruct (m_text m); discriminate.
  - destruct (re_match r (a :: s)) as [m|].
    + destruct (m_text m); discriminate.
    + apply IH; [lia|]. destruct (re_search r s) as [[? ?]|]; congruence.
Qed.

Lemma dict_set_in k v d k' v' :
  In (k', v') (dict_set k v d) -> (k', v') = (k, v) \/ In (k', v') d.
Proof.
  induction d as [|[k2 v2] d IH]; simpl.
  - intros [H | []]. left. congruence.
  - destruct (pystr_eqb k k2) eqn:E; simpl.
    + apply pystr_eqb_eq in E; subst k2.
      intros [H | H]; [left; congruence | right; right; exact H].
    + intros [H | H]; [right; left; exact H|].
      destruct (IH H) as [G | G]; [left; exact G | right; right; exact G].
Qed.

Lemma dict_of_in pairs k v : In (k, v) (dict_of pairs) -> In (k, v) pairs.
Proof.
  unfold dict_of.
  change (fun d kv => dict_set (fst kv) (snd kv) d) with dict_step.
  assert (G : forall l d, In (k, v) (fold_left dict_step l d) ->
                          In (k, v) l \/ In (k, v) d).
  { induction l as [|[k1 v1] l IH]; simpl; intros d H; [auto|].
    apply IH in H as [H | H]; [auto|].
    apply dict_set_in in H as [H | H];
      [left; left; simpl in H; congruence | auto]. }
  intros H. apply G in H as [H | []]. exact H.
Qed.

Lemma dict_set_not_nil k v d : dict_set k v d <> [].
Proof.
  destruct d as [|[k' v'] d]; simpl; [discriminate|].
  destruct (pystr_eqb k k'); discriminate.
Qed.

Lemma dict_of_not_nil pairs : pairs <> [] -> dict_of pairs <> [].
Proof.
  unfold dict_of.
  change (fun d kv => dict_set (fst kv) (snd kv) d) with dict_step.
  assert (G : forall l d, d <> [] -> fold_left dict_step l d <> []).
  { induction l as [|kv l IH]; simpl; intros d H; [exact H|].
    apply IH, dict_set_not_nil. }
  destruct pairs as [|kv l]; [congruence|]. intros _. simpl.
  apply G, dict_set_not_nil.
Qed.

Lemma dict_get_in k v d : dict_get k d = Some v -> In (k, v) d.
Proof.
  induction d as [|[k' v'] d IH]; simpl; [discriminate|].
  destruct (pystr_eqb k k') eqn:E; [|auto].
  apply pystr_eqb_eq in E; subst k'. intros H; injection H as <-. auto.
Qed.

Lemma remove_spaces_on_line v : on_line v -> on_line (remove_spaces v).
Proof.
  unfold on_line, remove_spaces. rewrite !forallb_forall. intros H a Ha.
  apply filter_In in Ha as [Ha _]. auto.
Qed.

Lemma colours_in_rule st k v :
  In (k, v) (colours st) ->
  exists pre p post v',
    style_text st = pre ++ p ++ post /\ colour_rule k v' p
    /\ v = remove_spaces v'.
Proof.
  unfold colours. rewrite combine_map. intros H.
  apply dict_of_in, in_map_iff in H as ([k0 v0] & E & H).
  simpl in E. injection E as -> <-.
  unfold colours_found in H. apply in_map_iff in H as (m & E & H).
  unfold re_findall in H. apply findall_from_sound in H as (pre & Es & M).
  apply colours_pattern_matches in M as (k' & v' & R & Ec).
  unfold group_or_empty, m_group in E. rewrite Ec in E. simpl in E.
  injection E as -> ->.
  exists pre, (m_text m), (m_rest m), v0. auto.
Qed.

(** X13. Every entry of [Style.colours] comes from a colour rule that
    stands in the style text: its key is the class of the rule, not empty
    and without a closing parenthesis, and its value is the value of the
    rule without its spaces, so a value holds neither a space nor a line
    feed. *)
Theorem colours_from_rules (st : Style) (k v : pystr) :
  dict_get k (colours st) = Some v ->
  (exists pre p post v',
      style_text st = pre ++ p ++ post /\ colour_rule k v' p
      /\ v = remove_spaces v')
  /\ k <> [] /\ ~ In ")"%char k
  /\ ~ In " "%char v /\ ~ In LF v.
Proof.
  intros H. apply dict_get_in, colours_in_rule in H.
  split; [exact H|].
  destruct H as (pre & p & post & v' & _ & R & ->).
  destruct R as (sp & a & b & _ & Hk & Hk' & _ & _ & Hv & _).
  split; [exact Hk|]. split; [|split].
  - intros Hin. rewrite forallb_forall in Hk'. apply Hk' in Hin.
    discriminate Hin.
  - unfold remove_spaces. intros Hin. apply filter_In in Hin as [_ Hin].
    discriminate Hin.
  - intros Hin. apply remove_spaces_on_line in Hv.
    unfold on_line in Hv. rewrite forallb_forall in Hv. apply Hv in Hin.
    discriminate Hin.
Qed.

Lemma colours_from_rules_witness :
  (exists pre p post v',
      style_text two_rules = pre ++ p ++ post
      /\ colour_rule (str "a") v' p /\ str "blue" = remove_spaces v')
  /\ str "a" <> [] /\ ~ In ")"%char (str "a")
  /\ ~ In " "%char (str "blue") /\ ~ In LF (str "blue").
Proof.
  apply (@colours_from_rules two_rules (str "a") (str "blue")).
  vm_compute. reflexivity.
Defined.

(** X14. [Style.colours] is empty exactly when no colour rule stands in
    the style text. *)
Theorem colours_empty_iff (st : Style) :
  colours st = []
  <-> (forall pre p post k v,
          style_text st = pre ++ p ++ post -> ~ colour_rule k v p).
Proof.
  split.
  - intros E pre p post k v Es R.
    assert (S1 : re_search COLOURS_PATTERN (style_text st) <> None).
    { intros N. rewrite re_search_none in N. apply (N pre p post Es).
      exists [(2, v); (1, k)]. apply colours_pattern_matches. eauto. }
    apply (@findall_from_found COLOURS_PATTERN (style_text st)
             (S (length (style_text st)))) in S1; [|lia].
    revert E. unfold colours. rewrite combine_map. apply dict_of_not_nil.
    unfold colours_found, re_findall.
    destruct (findall_from (S (length (style_text st))) COLOURS_PATTERN
                           (style_text st)); [congruence | discriminate].
  - intros H. destruct (colours st) as [|[k v] d] eqn:E; [reflexivity|].
    exfalso.
    destruct (@colours_in_rule st k v) as (pre & p & post & v' & Es & R & _).
    { rewrite E. left; reflexivity. }
    exact (H pre p post k v' Es R).
Qed.

(** * More on the markup translation *)

(** The class [k] stands in a span of the family [t] somewhere in [s]. *)
Definition class_used (t : family) (k s : pystr) : Prop :=
  exists pre p post content,
    s = pre ++ p ++ post /\ colour_span t k p content.

Lemma dotted_span_bracket t s :
  has_dotted_span t s -> In "<"%char s.
Proof.
  intros (pre & p & post & -> & q & body & -> & _).
  apply in_or_app. right. apply in_or_app. left. left. reflexivity.
Qed.

Section TranslatorMore.

Variable html_unescape : pystr -> pystr.

Lemma replace_entry_unused t k v s :
  splice k <> None -> ~ class_used t k s ->
  replace_entry html_unescape t k v s = Some s.
Proof.
  intros Hk N. unfold replace_entry.
  destruct (colour_pattern t k) as [r|] eqn:Hr.
  2:{ unfold colour_pattern in Hr. destruct (splice k); congruence. }
  destruct (re_search r s) as [[pre m]|] eqn:Sr; [|reflexivity].
  exfalso. apply re_search_some in Sr as [Es M].
  apply (colour_pattern_matches t k (m_text m) (m_caps m) Hr) in M
    as (content & Sp & _).
  apply N. exists pre, (m_text m), (m_rest m), content. auto.
Qed.

Lemma replace_colors_unused t s : forall cols,
  (forall k v, In (k, v) cols -> splice k <> None /\ ~ class_used t k s) ->
  _replace_colors html_unescape s cols t = Some s.
Proof.
  induction cols as [|[k v] cols IH]; intros H; simpl; [reflexivity|].
  destruct (H k v (or_introl eq_refl)) as [Hk N].
  rewrite replace_entry_unused by assumption.
  apply IH. intros k' v' Hin. apply (H k' v'). right; exact Hin.
Qed.

Lemma srt_loop_unused cols s tags : forall flag,
  (forall k v, In (k, v) cols ->
               splice k <> None /\ forall t, ~ class_used t k s) ->
  exists flag', srt_loop html_unescape cols tags s flag = Some (s, flag').
Proof.
  induction tags as [|t tags IH]; intros flag H; simpl; [eauto|].
  destruct (re_search (tag_pattern t) s); [|apply IH; exact H].
  rewrite replace_colors_unused; [apply IH; exact H|].
  intros k v Hin. destruct (H k v Hin) as [Hk N]. auto.
Qed.

End TranslatorMore.

(** X15. A cue whose raw text holds no [<] is translated to its raw text,
    whatever the mapping. *)
Theorem to_srt_without_brackets (html_unescape : pystr -> pystr)
        (c : Caption) (cols : dict) :
  ~ In "<"%char (raw_text c) ->
  to_srt_formatted html_unescape c cols = Some (raw_text c).
Proof.
  intros H.
  rewrite to_srt_plain.
  - rewrite text_scan. f_equal. apply strip_fixed.
    intros pre y E. exfalso. apply H. rewrite E.
    apply in_or_app. right. left. reflexivity.
  - intros t D. apply H. exact (dotted_span_bracket D).
Qed.

Lemma to_srt_without_brackets_witness :
  to_srt_formatted (fun x => x) (new_caption [str "a > b"; str "c"])
                   [(str "red", str "#ff0000")]
  = Some (raw_text (new_caption [str "a > b"; str "c"])).
Proof.
  apply to_srt_without_brackets.
  vm_compute. intros H.
  repeat (destruct H as [H | H]; [discriminate H|]). exact H.
Defined.

(** X16. When no class of the mapping stands in a span of the raw text
    (so for the empty mapping), nothing is rewritten: a cue with a dotted
    span [<FAMILY.q>...</FAMILY>] is translated to its raw text, tags
    included, and a cue without one to its plain text. *)
Theorem to_srt_unused_classes (html_unescape : pystr -> pystr)
        (c : Caption) (cols : dict) :
  (forall k v, In (k, v) cols ->
               splice k <> None
               /\ forall t, ~ class_used t k (raw_text c)) ->
  ((exists t, has_dotted_span t (raw_text c)) ->
   to_srt_formatted html_unescape c cols = Some (raw_text c))
  /\ ((forall t, ~ has_dotted_span t (raw_text c)) ->
      to_srt_formatted html_unescape c cols = Some (text c)).
Proof.
  intros H. split; [|apply to_srt_plain].
  intros [t D]. unfold to_srt_formatted.
  destruct (@srt_loop_unused html_unescape cols (raw_text c) families true H)
    as [flag E].
  rewrite E. destruct flag; [|reflexivity].
  exfalso. revert D.
  eapply srt_loop_all_fail; [exact E | apply in_families].
Qed.

Lemma to_srt_unused_classes_witness :
  to_srt_formatted (fun x => x) hello_cue [] = Some (raw_text hello_cue).
Proof.
  apply (@to_srt_unused_classes (fun x => x) hello_cue []).
  - intros k v [].
  - exists Fc. apply re_search_tag_pattern. vm_compute. discriminate.
Defined.

(** * The text of a style block *)

Lemma lstrip_in a s : In a (lstrip s) -> In a s.
Proof.
  induction s as [|b s IH]; simpl; [auto|].
  destruct (is_space b); [right; auto | auto].
Qed.

Lemma strip_in a s : In a (strip s) -> In a s.
Proof.
  unfold strip, rstrip. intros H.
  apply in_rev, lstrip_in, in_rev in H. apply lstrip_in, H.
Qed.

Lemma lstrip_no_space s :
  forallb (fun a => negb (is_space a)) s = true -> lstrip s = s.
Proof.
  destruct s as [|a s]; simpl; [reflexivity|]. intros H.
  apply andb_true_iff in H as [H _]. apply negb_true_iff in H.
  rewrite H. reflexivity.
Qed.

Lemma strip_no_space s :
  forallb (fun a => negb (is_space a)) s = true -> strip s = s.
Proof.
  intros H. unfold strip, rstrip. rewrite (lstrip_no_space s H).
  rewrite lstrip_no_space, rev_involutive; [reflexivity|].
  rewrite forallb_forall in *. intros a Ha. apply H, in_rev, Ha.
Qed.

Lemma split_from_no_sep sep s : forall cur,
  forallb (fun a => negb (ascii_eqb a sep)) s = true ->
  split_from sep cur s = [rev cur ++ s].
Proof.
  induction s as [|a s IH]; intros cur H; simpl.
  - rewrite app_nil_r. reflexivity.
  - simpl in H. apply andb_true_iff in H as [Ha H].
    apply negb_true_iff in Ha. rewrite Ha, IH by exact H.
    simpl. rewrite <- app_assoc. reflexivity.
Qed.

(** X17. The text of a style block whose text was set from a string
    holds no line feed: the lines are put end to end, each without the
    white space around it. A string without white space is read back as
    it was set. *)
Theorem style_text_set_text (st : Style) (s : pystr) :
  on_line (style_text (fst (style_set_text st (PyStr s))))
  /\ (forallb (fun a => negb (is_space a)) s = true ->
      style_text (fst (style_set_text st (PyStr s))) = s).
Proof.
  simpl. unfold style_text. simpl. split.
  - unfold on_line. apply forallb_forall. intros a Ha.
    apply in_concat in Ha as (l & Hl & Ha).
    apply in_map_iff in Hl as (l0 & <- & Hl).
    apply strip_in in Ha.
    pose proof (@split_from_free LF s [] eq_refl) as F.
    rewrite Forall_forall in F. specialize (F l0 Hl).
    rewrite forallb_forall in F. exact (F a Ha).
  - intros H. unfold split. rewrite split_from_no_sep.
    + simpl. rewrite app_nil_r. apply strip_no_space, H.
    + rewrite forallb_forall in *. intros a Ha. specialize (H a Ha).
      apply negb_true_iff. apply negb_true_iff in H.
      destruct (ascii_eqb a LF) eqn:E; [|reflexivity].
      apply ascii_eqb_eq in E; subst a. discriminate H.
Qed.

Lemma style_text_set_text_witness :
  style_text (fst (style_set_text (mkStyle [])
                                  (PyStr (str "::cue(.a){color:red;}"))))
  = str "::cue(.a){color:red;}".
Proof.
  apply (proj2 (style_text_set_text (mkStyle [])
                                    (str "::cue(.a){color:red;}"))).
  reflexivity.
Defined.

(** * Binary64 arithmetic on whole seconds *)

Unset Implicit Arguments.

Local Open Scope Z_scope.

Definition digits (m : positive) : Z := Zpos (digits2_pos m).

Definition fexp64 (e : Z) : Z := Z.max (e - 53) (-1074).

Lemma fexp_fexp64 e : fexp prec emax e = fexp64 e.
Proof. reflexivity. Qed.

Lemma digits2_size m : digits2_pos m = Pos.size m.
Proof. induction m; simpl; congruence. Qed.

Lemma digits_log2 m : digits m = Z.log2 (Zpos m) + 1.
Proof.
  unfold digits. rewrite digits2_size.
  destruct m; simpl; rewrite ?Pos2Z.inj_succ; lia.
Qed.

Lemma digits_pos m : 1 <= digits m.
Proof. unfold digits. lia. Qed.

Lemma digits_bounds m : 2 ^ (digits m - 1) <= Zpos m < 2 ^ digits m.
Proof.
  rewrite digits_log2.
  replace (Z.log2 (Zpos m) + 1 - 1) with (Z.log2 (Zpos m)) by lia.
  pose proof (Z.log2_spec (Zpos m) ltac:(lia)). unfold Z.succ in *. lia.
Qed.

Lemma digits_unique m d : 2 ^ (d - 1) <= Zpos m < 2 ^ d -> digits m = d.
Proof.
  intros H. rewrite digits_log2.
  assert (0 <= d - 1).
  { destruct (Z_lt_le_dec (d - 1) 0) as [L|L]; [|exact L].
    exfalso. rewrite (Z.pow_neg_r 2 (d - 1)) in H by lia.
    destruct (Z_le_gt_dec d 0) as [L0|L0].
    - assert (2 ^ d <= 1).
      { destruct (Z.eq_dec d 0) as [->|]; [simpl; lia|].
        rewrite Z.pow_neg_r by lia. lia. }
      lia.
    - lia. }
  rewrite (Z.log2_unique (Zpos m) (d - 1)); [lia | lia |].
  replace (Z.succ (d - 1)) with d by lia. exact H.
Qed.

Lemma iter_xO m d : Zpos (Pos.iter xO m d) = Zpos m * 2 ^ Zpos d.
Proof.
  induction d as [|d IH] using Pos.peano_ind.
  - simpl. lia.
  - rewrite Pos.iter_succ, Pos2Z.inj_succ, Z.pow_succ_r by lia.
    rewrite Pos2Z.inj_xO, IH. lia.
Qed.

Lemma digits_shift m d :
  digits (Pos.iter xO m d) = digits m + Zpos d.
Proof.
  apply digits_unique. rewrite iter_xO.
  pose proof (digits_bounds m) as [L U]. pose proof (digits_pos m).
  replace (digits m + Zpos d - 1) with (digits m - 1 + Zpos d) by lia.
  rewrite !Z.pow_add_r by lia.
  pose proof (Z.pow_pos_nonneg 2 (Zpos d) ltac:(lia) ltac:(lia)).
  split; nia.
Qed.

(** A mantissa and exponent in canonical form. *)
Definition mkfloat (M : positive) (e : Z) : float :=
  let '(mz, ez) := shl_align M e (fexp64 (digits M + e)) in
  S754_finite false mz ez.

(** The value of a float times [2^1074]: an integer for every float whose
    exponent is at least [-1074]. *)
Definition F2Z (x : float) : Z :=
  match x with
  | S754_finite false m e => Zpos m * 2 ^ (e + 1074)
  | S754_finite true m e => - (Zpos m * 2 ^ (e + 1074))
  | _ => 0
  end.

Definition W : Z := 2 ^ 1074.

Lemma W_pos : 0 < W.
Proof. unfold W. apply Z.pow_pos_nonneg; lia. Qed.

Lemma round_aux_exact s mz ez :
  fexp64 (digits mz + ez) <= ez -> ez <= 971 ->
  binary_round_aux prec emax s (Zpos mz) ez loc_Exact = S754_finite s mz ez.
Proof.
  intros H B. unfold binary_round_aux, shr_fexp.
  rewrite fexp_fexp64. simpl Zdigits2. fold (digits mz).
  assert (N : fexp64 (digits mz + ez) - ez <= 0) by lia.
  assert (S1 : forall r, shr r ez (fexp64 (digits mz + ez) - ez) = (r, ez)).
  { intros r. unfold shr.
    destruct (fexp64 (digits mz + ez) - ez); try reflexivity. lia. }
  rewrite S1. simpl. rewrite fexp_fexp64. fold (digits mz).
  rewrite S1. simpl.
  replace (ez <=? 971) with true; [reflexivity|].
  symmetry. apply Z.leb_le. lia.
Qed.

Lemma shl_align_spec M e :
  digits M <= 53 -> -1074 <= e ->
  exists mz ez,
    shl_align M e (fexp64 (digits M + e)) = (mz, ez)
    /\ ez = fexp64 (digits M + e) /\ ez <= e
    /\ Zpos mz = Zpos M * 2 ^ (e - ez)
    /\ digits mz + ez = digits M + e.
Proof.
  intros D E. unfold shl_align.
  assert (L : fexp64 (digits M + e) <= e) by (unfold fexp64; lia).
  destruct (fexp64 (digits M + e) - e) as [|p|p] eqn:X; try lia.
  - exists M, e. repeat split; try lia.
    replace (e - e) with 0 by lia. simpl. lia.
  - exists (Pos.iter xO M p), (fexp64 (digits M + e)).
    repeat split; try lia.
    + rewrite iter_xO. f_equal. f_equal. lia.
    + rewrite digits_shift. lia.
Qed.

Lemma normalize_exact M e :
  digits M <= 53 -> -1074 <= e -> e <= 971 ->
  binary_normalize prec emax (Zpos M) e false = mkfloat M e
  /\ F2Z (mkfloat M e) = Zpos M * 2 ^ (e + 1074)
  /\ exists mz ez, mkfloat M e = S754_finite false mz ez
                   /\ ez = fexp64 (digits M + e)
                   /\ digits mz + ez = digits M + e.
Proof.
  intros D E B. unfold binary_normalize, binary_round, mkfloat.
  rewrite fexp_fexp64. fold (digits M).
  destruct (shl_align_spec M e D E) as (mz & ez & -> & Ez & Le & Hm & Hd).
  split; [|split].
  - apply round_aux_exact; [|lia]. rewrite Hd, <- Ez. lia.
  - cbv beta iota. cbn [F2Z]. rewrite Hm.
    rewrite <- Z.mul_assoc, <- Z.pow_add_r.
    + f_equal. f_equal. lia.
    + lia.
    + unfold fexp64 in Ez. lia.
  - exists mz, ez. auto.
Qed.

(** ** Conversions *)

Lemma digits_le_53 p : Zpos p < 2 ^ 53 -> digits p <= 53.
Proof.
  intros H. pose proof (digits_bounds p) as [L _].
  destruct (Z_le_gt_dec (digits p) 53) as [|G]; [assumption|].
  exfalso. assert (2 ^ 53 <= 2 ^ (digits p - 1)).
  { apply Z.pow_le_mono_r; lia. }
  lia.
Qed.

Lemma pow2_pos e : 0 <= e -> 0 < 2 ^ e.
Proof. intros. apply Z.pow_pos_nonneg; lia. Qed.

(** [int(x)] is the floor of a non-negative float. *)
Lemma int_of_float_floor m e :
  -1074 <= e ->
  int_of_float (S754_finite false m e)
  = Ok (F2Z (S754_finite false m e) / W).
Proof.
  intros E. unfold int_of_float, F2Z, W. f_equal.
  destruct e as [|p|p].
  - simpl Z.shiftl. rewrite Z.div_mul; lia.
  - rewrite Z.shiftl_mul_pow2 by lia.
    rewrite Z.pow_add_r by lia. rewrite Z.mul_assoc.
    rewrite Z.div_mul; [reflexivity|]. pose proof (pow2_pos 1074). lia.
  - rewrite Z.shiftr_div_pow2 by lia.
    assert (E2 : 2 ^ 1074 = 2 ^ (Zneg p + 1074) * 2 ^ Zpos p).
    { rewrite <- Z.pow_add_r by lia. f_equal. lia. }
    rewrite E2, (Z.mul_comm (Zpos m)).
    rewrite Z.div_mul_cancel_l; [reflexivity| |].
    + pose proof (pow2_pos (Zpos p)). lia.
    + pose proof (pow2_pos (Zneg p + 1074)). lia.
Qed.

(** ** Floats that are not negative *)

Lemma pow2_add a b : 0 <= a -> 0 <= b -> 2 ^ a * 2 ^ b = 2 ^ (a + b).
Proof. intros. rewrite Z.pow_add_r by lia. reflexivity. Qed.

(** [repr x v]: [x] is zero or a positive float in canonical form, and
    its value is [v / 2^1074]. *)
Definition repr (x : float) (v : Z) : Prop :=
  (v = 0 /\ x = S754_zero false)
  \/ exists m e, x = S754_finite false m e
                 /\ -1074 <= e <= 971 /\ e = fexp64 (digits m + e)
                 /\ Zpos m * 2 ^ (e + 1074) = v.

Lemma repr_nonneg x v : repr x v -> 0 <= v.
Proof.
  intros [[-> _] | (m & e & _ & E & _ & <-)]; [lia|].
  pose proof (pow2_pos (e + 1074)). nia.
Qed.

Lemma repr_F2Z x v : repr x v -> F2Z x = v.
Proof.
  intros [[-> ->] | (m & e & -> & _ & _ & <-)]; reflexivity.
Qed.

(** The exponent of a canonical float whose value is at least [2^t]. *)
Lemma repr_expo m e t :
  e = fexp64 (digits m + e) -> -1074 <= e ->
  2 ^ (t + 1074) <= Zpos m * 2 ^ (e + 1074) -> 0 <= t + 1074 ->
  t - 52 <= e.
Proof.
  intros C E H T.
  pose proof (digits_bounds m) as [_ U]. pose proof (digits_pos m).
  assert (L : 2 ^ (t + 1074) < 2 ^ (digits m + (e + 1074))).
  { rewrite <- (pow2_add (digits m) (e + 1074)) by lia.
    pose proof (pow2_pos (e + 1074)). nia. }
  apply Z.pow_lt_mono_r_iff in L; [|lia|lia].
  unfold fexp64 in C. lia.
Qed.

Lemma repr_unique x x' v : repr x v -> repr x' v -> x = x'.
Proof.
  intros [[-> ->] | (m & e & -> & E & C & V)]
         [[Z ->] | (m' & e' & -> & E' & C' & V')].
  - reflexivity.
  - exfalso. pose proof (pow2_pos (e' + 1074)). nia.
  - exfalso. pose proof (pow2_pos (e + 1074)). nia.
  - assert (D : digits m + e = digits m' + e').
    { pose proof (digits_bounds m) as [L U].
      pose proof (digits_bounds m') as [L' U'].
      pose proof (digits_pos m). pose proof (digits_pos m').
      pose proof (pow2_pos (e + 1074)). pose proof (pow2_pos (e' + 1074)).
      assert (A1 : 2 ^ (digits m - 1 + (e + 1074)) <= v).
      { rewrite <- pow2_add by lia. nia. }
      assert (A2 : v < 2 ^ (digits m + (e + 1074))).
      { rewrite <- pow2_add by lia. nia. }
      assert (B1 : 2 ^ (digits m' - 1 + (e' + 1074)) <= v).
      { rewrite <- pow2_add by lia. nia. }
      assert (B2 : v < 2 ^ (digits m' + (e' + 1074))).
      { rewrite <- pow2_add by lia. nia. }
      assert (X1 : 2 ^ (digits m - 1 + (e + 1074))
                   < 2 ^ (digits m' + (e' + 1074))) by lia.
      assert (X2 : 2 ^ (digits m' - 1 + (e' + 1074))
                   < 2 ^ (digits m + (e + 1074))) by lia.
      apply Z.pow_lt_mono_r_iff in X1; [|lia|lia].
      apply Z.pow_lt_mono_r_iff in X2; [|lia|lia].
      lia. }
    assert (Ee : e = e') by (rewrite C, C', D; reflexivity).
    subst e'. f_equal.
    pose proof (pow2_pos (e + 1074)).
    assert (Zpos m = Zpos m') by nia. congruence.
Qed.

Lemma repr_int n :
  0 <= n < 2 ^ 53 ->
  exists x, float_of_int n = Ok x /\ repr x (n * W).
Proof.
  intros H. destruct n as [|p|p]; try lia.
  - exists (S754_zero false). split; [reflexivity | left; auto].
  - assert (D : digits p <= 53) by (apply digits_le_53; lia).
    destruct (normalize_exact p 0 D ltac:(lia) ltac:(lia))
      as (E & V & mz & ez & Em & Ee & Ed).
    exists (mkfloat p 0). split.
    + unfold float_of_int. rewrite E, Em. reflexivity.
    + right. exists mz, ez. split; [exact Em|].
      rewrite Em in V. cbn [F2Z] in V.
      pose proof (digits_pos p).
      split; [unfold fexp64 in Ee; lia|].
      split; [rewrite Ed; exact Ee | exact V].
Qed.

Lemma int_of_float_repr x v : repr x v -> int_of_float x = Ok (v / W).
Proof.
  intros [[-> ->] | (m & e & -> & E & _ & <-)]; [reflexivity|].
  rewrite int_of_float_floor by lia. reflexivity.
Qed.

(** ** Exact subtraction *)

Lemma shl_align_fst m e ez :
  ez <= e -> Zpos (fst (shl_align m e ez)) = Zpos m * 2 ^ (e - ez).
Proof.
  intros L. unfold shl_align.
  destruct (ez - e) as [|p|p] eqn:X; try lia; simpl fst.
  - replace (e - ez) with 0 by lia. simpl. lia.
  - rewrite iter_xO. f_equal. f_equal. lia.
Qed.

Lemma fsub_exact x y vx vy t :
  repr x vx -> repr y vy -> vy <= vx ->
  (vy = 0
   \/ (2 ^ (t + 1074) <= vy /\ 0 <= t + 1074
       /\ vx - vy < 2 ^ (t + 1 + 1074))) ->
  repr (fsub x y) (vx - vy).
Proof.
  intros Rx Ry L B.
  destruct Ry as [[-> ->] | (my & ey & -> & Ey & Cy & Vy)].
  { replace (vx - 0) with vx by lia.
    destruct Rx as [[-> ->] | (mx & ex & -> & Rx)].
    - left; auto.
    - right. exists mx, ex. auto. }
  destruct B as [B | (B1 & T & B2)].
  { exfalso. pose proof (pow2_pos (ey + 1074)). nia. }
  destruct Rx as [[-> ->] | (mx & ex & -> & Ex & Cx & Vx)].
  { exfalso. pose proof (pow2_pos (t + 1074)). lia. }
  assert (Ly : t - 52 <= ey).
  { apply (repr_expo my); first [assumption | lia]. }
  assert (Lx : t - 52 <= ex).
  { apply (repr_expo mx); first [assumption | lia]. }
  unfold fsub, SFsub. cbn [cond_Zopp].
  set (ez := Z.min ex ey).
  assert (Z1 : ez <= ex) by (unfold ez; lia).
  assert (Z2 : ez <= ey) by (unfold ez; lia).
  assert (Z3 : -1074 <= ez <= 971) by (unfold ez; lia).
  assert (Z4 : t - 52 <= ez) by (unfold ez; lia).
  rewrite !shl_align_fst by assumption.
  set (M := Zpos mx * 2 ^ (ex - ez) - Zpos my * 2 ^ (ey - ez)).
  assert (V : M * 2 ^ (ez + 1074) = vx - vy).
  { unfold M. rewrite Z.mul_sub_distr_r, <- !Z.mul_assoc.
    rewrite !pow2_add by lia.
    replace (ex - ez + (ez + 1074)) with (ex + 1074) by lia.
    replace (ey - ez + (ez + 1074)) with (ey + 1074) by lia.
    rewrite Vx, Vy. reflexivity. }
  pose proof (pow2_pos (ez + 1074)) as P.
  assert (R : 0 <= M < 2 ^ 53).
  { split; [nia|].
    assert (X : M * 2 ^ (ez + 1074) < 2 ^ 53 * 2 ^ (ez + 1074)).
    { rewrite V, pow2_add by lia.
      apply (Z.lt_le_trans _ _ _ B2). apply Z.pow_le_mono_r; lia. }
    nia. }
  destruct M as [|p|p] eqn:EM; try lia.
  - left. split; [lia | reflexivity].
  - assert (D : digits p <= 53) by (apply digits_le_53; lia).
    destruct (normalize_exact p ez D ltac:(lia) ltac:(lia))
      as (E & VV & mz & e' & Em & Ee & Ed).
    rewrite E. right. exists mz, e'. split; [exact Em|].
    rewrite Em in VV. cbn [F2Z] in VV.
    pose proof (digits_pos p).
    split; [unfold fexp64 in Ee; lia|].
    split; [rewrite Ed; exact Ee | lia].
Qed.

(** ** Rounding: the mantissa is a quotient or the next integer *)

Lemma shr_1_m mrs : 0 <= shr_m mrs -> shr_m (shr_1 mrs) = shr_m mrs / 2.
Proof.
  destruct mrs as [m r s]. cbn [shr_m]. intros H.
  destruct m as [|[p|p|]|p]; try lia; cbn [shr_1 shr_m].
  - reflexivity.
  - apply Z.div_unique with 1; lia.
  - apply Z.div_unique with 0; lia.
  - reflexivity.
Qed.

Lemma iter_shr_m p : forall mrs,
  0 <= shr_m mrs ->
  shr_m (iter_pos shr_1 p mrs) = shr_m mrs / 2 ^ Zpos p.
Proof.
  induction p as [p IH|p IH|]; intros mrs H; cbn [iter_pos].
  - assert (A1 : 0 <= shr_m (shr_1 mrs)).
    { rewrite shr_1_m by exact H. apply Z.div_pos; lia. }
    assert (A2 : 0 <= shr_m (iter_pos shr_1 p (shr_1 mrs))).
    { rewrite IH by exact A1. apply Z.div_pos; [lia|]. apply pow2_pos. lia. }
    rewrite IH by exact A2. rewrite IH by exact A1.
    rewrite shr_1_m by exact H.
    pose proof (pow2_pos (Zpos p) ltac:(lia)).
    rewrite !Z.div_div by lia. f_equal.
    rewrite (Pos2Z.inj_xI p).
    replace (2 * Zpos p + 1) with (Zpos p + Zpos p + 1) by lia.
    rewrite !Z.pow_add_r by lia. change (2 ^ 1) with 2. lia.
  - assert (A2 : 0 <= shr_m (iter_pos shr_1 p mrs)).
    { rewrite IH by exact H. apply Z.div_pos; [lia|]. apply pow2_pos. lia. }
    rewrite IH by exact A2. rewrite IH by exact H.
    pose proof (pow2_pos (Zpos p) ltac:(lia)).
    rewrite !Z.div_div by lia. f_equal.
    rewrite (Pos2Z.inj_xO p).
    replace (2 * Zpos p) with (Zpos p + Zpos p) by lia.
    rewrite !Z.pow_add_r by lia. reflexivity.
  - rewrite shr_1_m by exact H. reflexivity.
Qed.

Lemma shr_record_of_loc_m m l : shr_m (shr_record_of_loc m l) = m.
Proof. destruct l as [|[]]; reflexivity. Qed.

Lemma shr_fexp_m m e l :
  0 <= m ->
  shr_m (fst (shr_fexp prec emax m e l))
  = m / 2 ^ Z.max 0 (fexp64 (Zdigits2 m + e) - e)
  /\ snd (shr_fexp prec emax m e l)
     = e + Z.max 0 (fexp64 (Zdigits2 m + e) - e).
Proof.
  intros H. unfold shr_fexp, shr. rewrite fexp_fexp64.
  destruct (fexp64 (Zdigits2 m + e) - e) as [|p|p]; cbn [fst snd].
  - rewrite shr_record_of_loc_m. simpl. rewrite Z.div_1_r. lia.
  - rewrite iter_shr_m by (rewrite shr_record_of_loc_m; exact H).
    rewrite shr_record_of_loc_m.
    replace (Z.max 0 (Zpos p)) with (Zpos p) by lia. auto.
  - rewrite shr_record_of_loc_m.
    replace (Z.max 0 (Zneg p)) with 0 by lia.
    simpl. rewrite Z.div_1_r. lia.
Qed.

Lemma round_nearest_even_cases m l :
  round_nearest_even m l = m \/ round_nearest_even m l = m + 1.
Proof.
  destruct l as [|[]]; simpl; auto. destruct (Z.even m); auto.
Qed.

Lemma Zdigits2_pos m d :
  2 ^ (d - 1) <= m < 2 ^ d -> 1 <= d -> Zdigits2 m = d.
Proof.
  intros H D. destruct m as [|p|p].
  - pose proof (pow2_pos (d - 1)). lia.
  - apply (digits_unique p d H).
  - pose proof (pow2_pos (d - 1)). lia.
Qed.

(** The second shift of [binary_round_aux], on a mantissa of 53 bits or
    on [2^53]. *)
Lemma round_aux_finish mr e :
  2 ^ 52 <= mr <= 2 ^ 53 -> -1074 <= e -> e + 1 <= 971 ->
  repr (let '(mrs, e') := shr_fexp prec emax mr e loc_Exact in
        match shr_m mrs with
        | Z0 => S754_zero false
        | Zpos m => if e' <=? emax - prec then S754_finite false m e'
                    else S754_infinity false
        | Zneg _ => S754_nan
        end)
       (mr * 2 ^ (e + 1074)).
Proof.
  intros H E B.
  destruct (shr_fexp_m mr e loc_Exact ltac:(lia)) as [A1 A2].
  destruct (shr_fexp prec emax mr e loc_Exact) as [mrs e'].
  cbn [fst snd] in A1, A2.
  destruct (Z_lt_le_dec mr (2 ^ 53)) as [L | L].
  - rewrite (Zdigits2_pos mr 53) in A1, A2 by (simpl; lia).
    replace (Z.max 0 (fexp64 (53 + e) - e)) with 0 in A1, A2
      by (unfold fexp64; lia).
    simpl in A1. rewrite Z.div_1_r in A1. rewrite Z.add_0_r in A2.
    subst e'. rewrite A1.
    destruct mr as [|p|p]; try lia.
    replace (e <=? emax - prec) with true
      by (symmetry; apply Z.leb_le; unfold emax, prec; lia).
    right. exists p, e. split; [reflexivity|]. split; [lia|].
    split; [|reflexivity].
    rewrite (digits_unique p 53) by (simpl; lia). unfold fexp64. lia.
  - assert (Em : mr = 2 ^ 53) by lia. subst mr.
    rewrite (Zdigits2_pos (2 ^ 53) 54) in A1, A2 by (simpl; lia).
    replace (Z.max 0 (fexp64 (54 + e) - e)) with 1 in A1, A2
      by (unfold fexp64; lia).
    change (2 ^ 53 / 2 ^ 1) with (2 ^ 52) in A1.
    subst e'. rewrite A1.
    change (2 ^ 52) with (Zpos (Pos.iter xO 1%positive 52)).
    replace (e + 1 <=? emax - prec) with true
      by (symmetry; apply Z.leb_le; unfold emax, prec; lia).
    right. eexists _, (e + 1). split; [reflexivity|]. split; [lia|].
    split.
    + rewrite digits_shift. change (digits 1) with 1.
      unfold fexp64. lia.
    + rewrite iter_xO.
      replace (e + 1 + 1074) with (1 + (e + 1074)) by lia.
      rewrite <- pow2_add by lia. lia.
Qed.

Lemma round_aux_coarse p e l :
  53 <= digits p -> -1074 <= e -> e + (digits p - 53) + 1 <= 971 ->
  exists mr,
    (mr = Zpos p / 2 ^ (digits p - 53)
     \/ mr = Zpos p / 2 ^ (digits p - 53) + 1)
    /\ repr (binary_round_aux prec emax false (Zpos p) e l)
            (mr * 2 ^ (e + (digits p - 53) + 1074)).
Proof.
  intros D E B. unfold binary_round_aux.
  destruct (shr_fexp_m (Zpos p) e l ltac:(lia)) as [A1 A2].
  destruct (shr_fexp prec emax (Zpos p) e l) as [mrs e'].
  cbn [fst snd] in A1, A2. cbn [Zdigits2] in A1, A2. fold (digits p) in A1, A2.
  replace (Z.max 0 (fexp64 (digits p + e) - e)) with (digits p - 53)
    in A1, A2 by (unfold fexp64; lia).
  set (A := Zpos p / 2 ^ (digits p - 53)) in *.
  assert (RA : 2 ^ 52 <= A < 2 ^ 53).
  { pose proof (digits_bounds p) as [L U].
    pose proof (pow2_pos (digits p - 53) ltac:(lia)) as P.
    unfold A. split.
    - apply Z.div_le_lower_bound; [lia|].
      rewrite Z.mul_comm, pow2_add by lia.
      replace (52 + (digits p - 53)) with (digits p - 1) by lia. exact L.
    - apply Z.div_lt_upper_bound; [lia|].
      rewrite Z.mul_comm, pow2_add by lia.
      replace (53 + (digits p - 53)) with (digits p) by lia. exact U. }
  exists (round_nearest_even (shr_m mrs) (loc_of_shr_record mrs)).
  rewrite A1. split; [apply round_nearest_even_cases|].
  subst e'.
  apply round_aux_finish; [|lia|lia].
  destruct (round_nearest_even_cases A (loc_of_shr_record mrs)) as [-> | ->];
    lia.
Qed.

(** ** Division *)

Lemma fdiv_coarse mx ex my ey :
  digits mx = 53 -> digits my = 53 ->
  -1074 <= ex - ey - 53 -> ex - ey - 53 + 2 <= 971 ->
  exists mr n1,
    (n1 = 0 \/ n1 = 1)
    /\ (mr = Zpos mx * 2 ^ 53 / Zpos my / 2 ^ n1
        \/ mr = Zpos mx * 2 ^ 53 / Zpos my / 2 ^ n1 + 1)
    /\ repr (fdiv (S754_finite false mx ex) (S754_finite false my ey))
            (mr * 2 ^ (ex - ey - 53 + n1 + 1074)).
Proof.
  intros Dx Dy E B. unfold fdiv, SFdiv, SFdiv_core_binary.
  cbn [Zdigits2 xorb]. fold (digits mx) (digits my). rewrite Dx, Dy.
  rewrite fexp_fexp64.
  replace (Z.min (fexp64 (53 + ex - (53 + ey))) (ex - ey))
    with (ex - ey - 53) by (unfold fexp64; lia).
  replace (ex - ey - (ex - ey - 53)) with 53 by lia.
  cbv beta iota. rewrite Z.shiftl_mul_pow2 by lia.
  pose proof (digits_bounds mx) as [Lx Ux].
  pose proof (digits_bounds my) as [Ly Uy].
  rewrite Dx in Lx, Ux. rewrite Dy in Ly, Uy.
  change (2 ^ (53 - 1)) with (2 ^ 52) in Lx, Ly.
  set (m' := Zpos mx * 2 ^ 53).
  assert (Q : fst (Z.div_eucl m' (Zpos my)) = m' / Zpos my).
  { unfold Z.div. destruct (Z.div_eucl m' (Zpos my)); reflexivity. }
  destruct (Z.div_eucl m' (Zpos my)) as [q r]. cbn [fst] in Q. subst q.
  assert (RQ : 2 ^ 52 <= m' / Zpos my < 2 ^ 54).
  { unfold m'. split.
    - apply Z.div_le_lower_bound; [lia|]. nia.
    - apply Z.div_lt_upper_bound; [lia|].
      change (2 ^ 54) with (2 * 2 ^ 53). nia. }
  destruct (m' / Zpos my) as [|pq|pq] eqn:Eq; try lia.
  assert (Dq : digits pq = 53 \/ digits pq = 54).
  { destruct (Z_lt_le_dec (Zpos pq) (2 ^ 53)).
    - left. apply digits_unique. simpl; lia.
    - right. apply digits_unique. simpl; lia. }
  destruct (round_aux_coarse pq (ex - ey - 53) (new_location (Zpos my) r))
    as (mr & Hm & R); try lia.
  exists mr, (digits pq - 53). split; [lia|]. split; [exact Hm|].
  replace (ex - ey - 53 + (digits pq - 53) + 1074)
    with (ex - ey - 53 + (digits pq - 53) + 1074) by lia.
  exact R.
Qed.

(** A float whose value is a positive integer below [2^53]. *)
Lemma repr_normal x n :
  repr x (n * W) -> 1 <= n < 2 ^ 53 ->
  exists m e, x = S754_finite false m e /\ digits m = 53
              /\ -52 <= e <= 0 /\ Zpos m = n * 2 ^ (- e).
Proof.
  intros [[Z _] | (m & e & -> & E & C & V)] H.
  { pose proof W_pos. nia. }
  unfold W in V.
  assert (L : 0 - 52 <= e).
  { apply (repr_expo m); first [assumption | lia]. }
  assert (D : digits m = 53) by (unfold fexp64 in C; lia).
  pose proof (digits_bounds m) as [Lm Um]. rewrite D in Lm, Um.
  change (2 ^ (53 - 1)) with (2 ^ 52) in Lm.
  pose proof (pow2_pos (e + 1074) ltac:(lia)) as P.
  assert (U : e <= 0).
  { destruct (Z_le_gt_dec e 0) as [|G]; [assumption|]. exfalso.
    assert (X : 2 ^ 1074 * 2 <= 2 ^ (e + 1074)).
    { change (2 ^ 1074 * 2) with (2 ^ (1 + 1074)).
      apply Z.pow_le_mono_r; lia. }
    nia. }
  exists m, e. repeat split; try lia.
  assert (S1 : 2 ^ 1074 = 2 ^ (- e) * 2 ^ (e + 1074)).
  { rewrite pow2_add by lia. f_equal. lia. }
  rewrite S1 in V. nia.
Qed.

(** Rounding a quotient of integers does not reach the next integer. *)
Lemma floor_stable n c j mr :
  0 <= n -> 0 < c < 2 ^ j -> 0 <= j ->
  mr = n * 2 ^ j / c \/ mr = n * 2 ^ j / c + 1 ->
  n / c * 2 ^ j <= mr < (n / c + 1) * 2 ^ j.
Proof.
  intros Hn Hc Hj H.
  pose proof (pow2_pos j Hj) as P.
  pose proof (Z.div_mod n c ltac:(lia)) as Dn.
  pose proof (Z.mod_pos_bound n c ltac:(lia)) as Bn.
  set (k := n / c) in *. set (r := n mod c) in *.
  pose proof (Z.div_mod (n * 2 ^ j) c ltac:(lia)) as DA.
  pose proof (Z.mod_pos_bound (n * 2 ^ j) c ltac:(lia)) as BA.
  set (A := n * 2 ^ j / c) in *. set (rA := (n * 2 ^ j) mod c) in *.
  assert (L : k * 2 ^ j <= A) by nia.
  assert (U : A + 1 < (k + 1) * 2 ^ j) by nia.
  destruct H as [-> | ->]; lia.
Qed.

Lemma fdiv_int x y n c :
  repr x (n * W) -> repr y (c * W) ->
  1 <= n < 2 ^ 52 -> 1 <= c < 2 ^ 53 ->
  exists v, repr (fdiv x y) v /\ n / c * W <= v < (n / c + 1) * W.
Proof.
  intros Rx Ry Hn Hc.
  destruct (repr_normal x n Rx ltac:(lia)) as (mx & ex & -> & Dx & Ex & Vx).
  destruct (repr_normal y c Ry ltac:(lia)) as (my & ey & -> & Dy & Ey & Vy).
  pose proof (digits_bounds mx) as [Lx Ux].
  pose proof (digits_bounds my) as [Ly Uy].
  rewrite Dx in Lx, Ux. rewrite Dy in Ly, Uy.
  change (2 ^ (53 - 1)) with (2 ^ 52) in Lx, Ly.
  pose proof (pow2_pos (- ex) ltac:(lia)) as Px.
  pose proof (pow2_pos (- ey) ltac:(lia)) as Py.
  assert (Ex1 : ex <= -1).
  { destruct (Z.eq_dec ex 0) as [->|]; [|lia]. simpl in Vx. lia. }
  destruct (fdiv_coarse mx ex my ey Dx Dy ltac:(lia) ltac:(lia))
    as (mr & n1 & Hn1 & Hm & R).
  set (j := 53 - ex + ey - n1).
  assert (Hj : 0 <= j) by (unfold j; lia).
  assert (Cj : c < 2 ^ j).
  { assert (X : c * 2 ^ (- ey) < 2 ^ (53 + ey) * 2 ^ (- ey)).
    { rewrite pow2_add by lia. replace (53 + ey + - ey) with 53 by lia.
      lia. }
    assert (Y : c < 2 ^ (53 + ey)) by nia.
    apply (Z.lt_le_trans _ _ _ Y). apply Z.pow_le_mono_r; unfold j; lia. }
  assert (Q : Zpos mx * 2 ^ 53 / Zpos my / 2 ^ n1 = n * 2 ^ j / c).
  { pose proof (pow2_pos n1 ltac:(lia)) as P1.
    rewrite Z.div_div by lia. rewrite Vx, Vy.
    pose proof (pow2_pos (n1 - ey) ltac:(lia)) as P2.
    replace (n * 2 ^ (- ex) * 2 ^ 53) with (n * 2 ^ j * 2 ^ (n1 - ey)).
    - replace (c * 2 ^ (- ey) * 2 ^ n1) with (c * 2 ^ (n1 - ey)).
      + apply Z.div_mul_cancel_r; lia.
      + rewrite <- Z.mul_assoc, pow2_add by lia. do 2 f_equal. lia.
    - rewrite <- !Z.mul_assoc, !pow2_add by lia. do 2 f_equal.
      unfold j. lia. }
  rewrite Q in Hm.
  pose proof (floor_stable n c j mr ltac:(lia) ltac:(lia) Hj Hm) as F.
  exists (mr * 2 ^ (ex - ey - 53 + n1 + 1074)). split; [exact R|].
  replace (ex - ey - 53 + n1 + 1074) with (1074 - j) by (unfold j; lia).
  assert (Wj : W = 2 ^ j * 2 ^ (1074 - j)).
  { unfold W. rewrite pow2_add by (unfold j; lia). f_equal. lia. }
  pose proof (pow2_pos (1074 - j) ltac:(unfold j; lia)) as P3.
  rewrite Wj. nia.
Qed.

(** ** Whole seconds *)

Lemma div_between v k : k * W <= v < (k + 1) * W -> v / W = k.
Proof.
  intros H. pose proof W_pos. symmetry.
  apply Z.div_unique with (v - k * W); lia.
Qed.

Lemma float_div_int_repr x n c :
  repr x (n * W) -> 1 <= n < 2 ^ 52 -> 1 <= c < 2 ^ 53 ->
  exists q v, float_div_int x c = Ok q /\ repr q v
              /\ n / c * W <= v < (n / c + 1) * W.
Proof.
  intros Rx Hn Hc. unfold float_div_int.
  replace (c =? 0) with false by (symmetry; apply Z.eqb_neq; lia).
  destruct (repr_int c ltac:(lia)) as (y & -> & Ry). cbn [bind].
  destruct (fdiv_int x y n c Rx Ry Hn Hc) as (v & R & B).
  exists (fdiv x y), v. auto.
Qed.

Lemma float_sub_int_repr x vx k t :
  repr x vx -> 0 <= k < 2 ^ 53 -> k * W <= vx ->
  (k = 0 \/ (2 ^ t <= k /\ 0 <= t /\ vx - k * W < 2 ^ (t + 1) * W)) ->
  exists d, float_sub_int x k = Ok d /\ repr d (vx - k * W).
Proof.
  intros Rx Hk L B. unfold float_sub_int.
  destruct (repr_int k Hk) as (y & -> & Ry). cbn [bind].
  exists (fsub x y). split; [reflexivity|].
  apply (fsub_exact x y vx (k * W) t Rx Ry L).
  pose proof W_pos.
  destruct B as [-> | (B1 & B2 & B3)]; [left; lia | right].
  rewrite <- (pow2_add t 1074), <- (pow2_add (t + 1) 1074) by lia.
  fold W. repeat split; try lia. nia.
Qed.

Definition whole_seconds_text (n : Z) : pystr :=
  format_02d (n / 3600) ++ ":"%char :: format_02d (n / 60 mod 60)
  ++ ":"%char :: format_02d (n mod 60) ++ str ".000".

Definition whole_seconds_ok (n : Z) : bool :=
  match float_of_int n with
  | Ok x =>
      match _to_timestamp x with
      | Ok ts => pystr_eqb ts (whole_seconds_text n)
      | Raise _ => false
      end
  | Raise _ => false
  end.

Definition seconds_ok (s : Z) : bool :=
  match float_of_int s with
  | Ok x => pystr_eqb (format_06_3f x) (format_02d s ++ str ".000")
  | Raise _ => false
  end.

Lemma below_hour n : 0 <= n < 3600 -> whole_seconds_ok n = true.
Proof.
  intros H.
  assert (A : forallb (fun k => whole_seconds_ok (Z.of_nat k)) (seq 0 3600)
              = true) by (vm_compute; reflexivity).
  rewrite forallb_forall in A.
  specialize (A (Z.to_nat n)). rewrite Z2Nat.id in A by lia.
  apply A, in_seq. lia.
Qed.

Lemma below_minute s : 0 <= s < 60 -> seconds_ok s = true.
Proof.
  intros H.
  assert (A : forallb (fun k => seconds_ok (Z.of_nat k)) (seq 0 60) = true)
    by (vm_compute; reflexivity).
  rewrite forallb_forall in A.
  specialize (A (Z.to_nat s)). rewrite Z2Nat.id in A by lia.
  apply A, in_seq. lia.
Qed.

Lemma to_timestamp_whole n :
  0 <= n < 2 ^ 52 ->
  exists x, float_of_int n = Ok x
            /\ _to_timestamp x = Ok (whole_seconds_text n).
Proof.
  intros Hn. destruct (Z_lt_le_dec n 3600) as [Small | Big].
  { pose proof (below_hour n ltac:(lia)) as A. unfold whole_seconds_ok in A.
    destruct (float_of_int n) as [x|]; [|discriminate].
    exists x. split; [reflexivity|].
    destruct (_to_timestamp x) as [ts|]; [|discriminate].
    apply pystr_eqb_eq in A. congruence. }
  destruct (repr_int n ltac:(lia)) as (x & Ex & Rx).
  exists x. split; [exact Ex|].
  pose proof W_pos as PW.
  set (h := n / 3600). set (k := n / 60).
  pose proof (Z.div_mod n 3600 ltac:(lia)) as D1.
  pose proof (Z.mod_pos_bound n 3600 ltac:(lia)) as B1.
  pose proof (Z.div_mod n 60 ltac:(lia)) as D2.
  pose proof (Z.mod_pos_bound n 60 ltac:(lia)) as B2.
  fold h in D1. fold k in D2.
  assert (Hh : 1 <= h) by (unfold h; apply Z.div_le_lower_bound; lia).
  assert (Hk : k / 60 = h).
  { unfold k, h. rewrite Z.div_div by lia. reflexivity. }
  pose proof (Z.div_mod k 60 ltac:(lia)) as D3.
  pose proof (Z.mod_pos_bound k 60 ltac:(lia)) as B3.
  rewrite Hk in D3. set (mi := k mod 60) in *.
  set (s := n mod 60) in *.
  unfold _to_timestamp.
  destruct (float_div_int_repr x n 3600 Rx ltac:(lia) ltac:(simpl; lia))
    as (q & v & -> & Rq & Bq).
  cbn [bind]. rewrite (int_of_float_repr q v Rq).
  fold h in Bq. rewrite (div_between v h Bq). cbn [bind].
  destruct (float_div_int_repr x n 60 Rx ltac:(lia) ltac:(simpl; lia))
    as (q' & v' & -> & Rq' & Bq').
  cbn [bind]. fold k in Bq'.
  destruct (float_sub_int_repr q' v' (h * 60) 5 Rq') as (d & -> & Rd).
  { simpl (2 ^ 53). lia. }
  { nia. }
  { right. simpl (2 ^ 5). simpl (2 ^ (5 + 1)). nia. }
  cbn [bind]. rewrite (int_of_float_repr d _ Rd).
  rewrite (div_between (v' - h * 60 * W) mi) by nia.
  cbn [bind].
  destruct (float_sub_int_repr x (n * W) (h * 3600) 11 Rx) as (r & -> & Rr).
  { simpl (2 ^ 53). lia. }
  { nia. }
  { right. simpl (2 ^ 11). simpl (2 ^ (11 + 1)). nia. }
  cbn [bind].
  destruct (float_sub_int_repr r (n * W - h * 3600 * W) (mi * 60) 5 Rr)
    as (sec & -> & Rs).
  { simpl (2 ^ 53). lia. }
  { nia. }
  { destruct (Z.eq_dec mi 0) as [-> | N]; [left; reflexivity | right].
    simpl (2 ^ 5). simpl (2 ^ (5 + 1)). nia. }
  cbn [bind].
  replace (n * W - h * 3600 * W - mi * 60 * W) with (s * W) in Rs by nia.
  pose proof (below_minute s ltac:(lia)) as A. unfold seconds_ok in A.
  destruct (repr_int s ltac:(simpl; lia)) as (xs & Exs & Rxs).
  rewrite Exs in A. apply pystr_eqb_eq in A.
  rewrite (repr_unique sec xs (s * W) Rs Rxs), A.
  unfold whole_seconds_text. fold h k mi s. reflexivity.
Qed.

(** ** Decimal digits *)

Lemma digit_val_chr d : 0 <= d < 10 -> digit_val (digit_chr d) = d.
Proof.
  intros H.
  assert (C : d = 0 \/ d = 1 \/ d = 2 \/ d = 3 \/ d = 4 \/ d = 5 \/ d = 6
              \/ d = 7 \/ d = 8 \/ d = 9) by lia.
  repeat (destruct C as [-> | C]; [reflexivity|]). subst d. reflexivity.
Qed.

Lemma fold_digits s : forall a,
  fold_left (fun acc c => 10 * acc + digit_val c) s a
  = a * 10 ^ Z.of_nat (length s) + digits_val s.
Proof.
  unfold digits_val. induction s as [|c s IH]; intros a.
  - simpl. lia.
  - cbn [fold_left length]. rewrite IH, (IH (10 * 0 + digit_val c)).
    rewrite Nat2Z.inj_succ, Z.pow_succ_r by lia. lia.
Qed.

Lemma digits_val_cons c s :
  digits_val (c :: s)
  = digit_val c * 10 ^ Z.of_nat (length s) + digits_val s.
Proof.
  unfold digits_val at 1. cbn [fold_left]. rewrite fold_digits. lia.
Qed.

Lemma digits_from_val fuel : forall n acc,
  0 <= n < 10 ^ Z.of_nat fuel ->
  digits_val (digits_from fuel n acc)
  = n * 10 ^ Z.of_nat (length acc) + digits_val acc.
Proof.
  induction fuel as [|fuel IH]; intros n acc H.
  - simpl in H. assert (n = 0) by lia. subst n. simpl. lia.
  - cbn [digits_from].
    rewrite Nat2Z.inj_succ, Z.pow_succ_r in H by lia.
    pose proof (Z.div_mod n 10 ltac:(lia)) as D.
    pose proof (Z.mod_pos_bound n 10 ltac:(lia)) as B.
    destruct (n <? 10) eqn:L.
    + apply Z.ltb_lt in L. rewrite digits_val_cons.
      rewrite Z.mod_small by lia. rewrite digit_val_chr by lia.
      reflexivity.
    + apply Z.ltb_ge in L. rewrite IH.
      * rewrite digits_val_cons, digit_val_chr by lia.
        cbn [length]. rewrite Nat2Z.inj_succ, Z.pow_succ_r by lia. lia.
      * split; [apply Z.div_pos; lia|].
        apply Z.div_lt_upper_bound; lia.
Qed.

Lemma int_digits_val n : 0 <= n -> digits_val (int_digits n) = n.
Proof.
  intros H. unfold int_digits. rewrite digits_from_val.
  - change (digits_val []) with 0.
    change (10 ^ Z.of_nat (length (@nil ascii))) with 1. lia.
  - split; [exact H|].
    rewrite Nat2Z.inj_succ, Z2Nat.id by apply Z.log2_nonneg.
    destruct (Z.eq_dec n 0) as [-> | N]; [reflexivity|].
    pose proof (Z.log2_spec n ltac:(lia)) as [_ U].
    apply (Z.lt_le_trans _ _ _ U).
    apply Z.pow_le_mono_l. lia.
Qed.

Lemma digits_from_digits fuel : forall n acc,
  all_digits acc -> all_digits (digits_from fuel n acc).
Proof.
  unfold all_digits.
  induction fuel as [|fuel IH]; intros n acc H; simpl; [exact H|].
  assert (A : forallb is_digit (digit_chr (n mod 10) :: acc) = true).
  { simpl. rewrite H, andb_true_r. apply digit_chr_digit.
    apply Z.mod_pos_bound. lia. }
  destruct (n <? 10); [exact A | apply IH, A].
Qed.

Lemma zfill_digits w s :
  all_digits s ->
  all_digits (zfill w s) /\ digits_val (zfill w s) = digits_val s.
Proof.
  intros H. unfold zfill. induction (w - length s)%nat as [|k [IH1 IH2]].
  - auto.
  - split.
    + unfold all_digits in *. simpl. exact IH1.
    + cbn [repeat app]. rewrite digits_val_cons, IH2.
      change (digit_val "0") with 0. lia.
Qed.

Lemma format_02d_digits n :
  0 <= n ->
  all_digits (format_02d n) /\ digits_val (format_02d n) = n.
Proof.
  intros H. unfold format_02d.
  replace (n <? 0) with false by (symmetry; apply Z.ltb_ge; lia).
  destruct (zfill_digits 2 (int_digits n)) as [A B].
  { apply digits_from_digits. reflexivity. }
  rewrite B, int_digits_val by exact H. auto.
Qed.

Lemma format_02d_length n : 0 <= n < 60 -> length (format_02d n) = 2%nat.
Proof.
  intros H.
  assert (A : forallb (fun k => (length (format_02d (Z.of_nat k)) =? 2)%nat)
                      (seq 0 60) = true) by (vm_compute; reflexivity).
  rewrite forallb_forall in A.
  specialize (A (Z.to_nat n)). rewrite Z2Nat.id in A by lia.
  apply Nat.eqb_eq, A, in_seq. lia.
Qed.

(** ** Round trip *)

Definition clock_text (H M S : Z) : pystr :=
  format_02d H ++ str ":" ++ format_02d M ++ str ":" ++ format_02d S
  ++ "."%char :: str "000".

Lemma fadd_zero x v : repr x v -> fadd x (S754_zero false) = x.
Proof.
  intros [[_ ->] | (m & e & -> & _)]; reflexivity.
Qed.

Lemma clock_round_trip H M S :
  0 <= H -> 0 <= M < 60 -> 0 <= S < 60 ->
  H * 3600 + M * 60 + S < 2 ^ 52 ->
  exists v, _parse_timestamp (clock_text H M S) = Ok v
            /\ _to_timestamp v = Ok (clock_text H M S).
Proof.
  intros HH HM HS B.
  destruct (format_02d_digits H HH) as [Ah Vh].
  destruct (format_02d_digits M ltac:(lia)) as [Am Vm].
  destruct (format_02d_digits S ltac:(lia)) as [As Vs].
  set (n := H * 3600 + M * 60 + S).
  destruct (to_timestamp_whole n ltac:(unfold n; lia)) as (x & Ex & Tx).
  exists x. split.
  - unfold clock_text.
    change ("."%char :: str "000") with ("."%char :: str "000" ++ []).
    rewrite (@parse_timestamp_canonical (format_02d H) (format_02d M)
               (format_02d S) "."%char (str "000") []);
      try assumption; try reflexivity;
      try (apply format_02d_length; lia); [|left; reflexivity].
    rewrite Vh, Vm, Vs. fold n. unfold int_add_float. rewrite Ex.
    cbn [bind]. f_equal.
    destruct (repr_int n ltac:(unfold n; lia)) as (x' & Ex' & Rx).
    assert (x' = x) by congruence. subst x'.
    apply (fadd_zero x (n * W) Rx).
  - rewrite Tx. f_equal. unfold whole_seconds_text, clock_text.
    assert (E1 : n / 3600 = H).
    { symmetry. apply Z.div_unique with (M * 60 + S); unfold n; lia. }
    assert (E2 : n / 60 = H * 60 + M).
    { symmetry. apply Z.div_unique with S; unfold n; lia. }
    assert (E3 : n mod 60 = S).
    { symmetry. apply Z.mod_unique with (H * 60 + M); unfold n; lia. }
    assert (E4 : (H * 60 + M) mod 60 = M).
    { symmetry. apply Z.mod_unique with H; lia. }
    rewrite E1, E2, E3, E4. reflexivity.
Qed.

(** X18. A whole number of seconds below [2^52], as a float, is printed
    as its hours, minutes and seconds, each with two digits at least, and
    [.000]: the quotients that [_to_timestamp] takes on floats are the
    integer quotients. *)
Theorem to_timestamp_whole_seconds (n : Z) :
  0 <= n < 2 ^ 52 ->
  exists x,
    float_of_int n = Ok x
    /\ _to_timestamp x
       = Ok (format_02d (n / 3600) ++ str ":"
             ++ format_02d (n / 60 mod 60) ++ str ":"
             ++ format_02d (n mod 60) ++ str ".000").
Proof. exact (to_timestamp_whole n). Qed.

Lemma to_timestamp_whole_seconds_witness :
  exists x,
    float_of_int 3661 = Ok x
    /\ _to_timestamp x
       = Ok (format_02d (3661 / 3600) ++ str ":"
             ++ format_02d (3661 / 60 mod 60) ++ str ":"
             ++ format_02d (3661 mod 60) ++ str ".000").
Proof.
  apply (to_timestamp_whole_seconds 3661). split; [lia | reflexivity].
Defined.

(** X19. Timestamps of whole seconds make the round trip, below [2^52]
    seconds: the text [HH:MM:SS.000] of hours, minutes below 60 and
    seconds below 60 is parsed to a time that is printed as the same
    text, so a cue whose start is set from it gives it back; and the
    float of a whole number of seconds is printed as a text that is
    parsed to the same float. *)
Theorem timestamp_round_trip :
  (forall H M S,
      0 <= H -> 0 <= M < 60 -> 0 <= S < 60 ->
      H * 3600 + M * 60 + S < 2 ^ 52 ->
      exists v,
        _parse_timestamp (clock_text H M S) = Ok v
        /\ _to_timestamp v = Ok (clock_text H M S)
        /\ forall c,
            exists c', set_start c (clock_text H M S) = Ok c'
                       /\ get_start c' = Ok (clock_text H M S))
  /\ (forall n,
         0 <= n < 2 ^ 52 ->
         exists x ts,
           float_of_int n = Ok x /\ _to_timestamp x = Ok ts
           /\ _parse_timestamp ts = Ok x).
Proof.
  split.
  - intros H M S HH HM HS B.
    destruct (clock_round_trip H M S HH HM HS B) as (v & P & T).
    exists v. split; [exact P|]. split; [exact T|].
    intros c. unfold set_start. rewrite P. cbn [bind].
    eexists. split; [reflexivity | exact T].
  - intros n Hn.
    pose proof (Z.div_mod n 3600 ltac:(lia)) as D1.
    pose proof (Z.mod_pos_bound n 3600 ltac:(lia)) as B1.
    pose proof (Z.div_mod (n mod 3600) 60 ltac:(lia)) as D2.
    pose proof (Z.mod_pos_bound (n mod 3600) 60 ltac:(lia)) as B2.
    assert (Hh : 0 <= n / 3600) by (apply Z.div_pos; lia).
    assert (Hm : 0 <= n mod 3600 / 60 < 60).
    { split; [apply Z.div_pos; lia|].
      apply Z.div_lt_upper_bound; lia. }
    destruct (clock_round_trip (n / 3600) (n mod 3600 / 60)
                               ((n mod 3600) mod 60) Hh Hm B2
                               ltac:(lia))
      as (v & P & T).
    destruct (to_timestamp_whole n Hn) as (x & Ex & Tx).
    assert (Ev : _parse_timestamp
                   (clock_text (n / 3600) (n mod 3600 / 60)
                               ((n mod 3600) mod 60)) = Ok x).
    { destruct (format_02d_digits (n / 3600) Hh) as [Ah Vh].
      destruct (format_02d_digits (n mod 3600 / 60) ltac:(lia)) as [Am Vm].
      destruct (format_02d_digits ((n mod 3600) mod 60) ltac:(lia))
        as [As Vs].
      unfold clock_text.
      change ("."%char :: str "000") with ("."%char :: str "000" ++ []).
      rewrite (@parse_timestamp_canonical
                 (format_02d (n / 3600)) (format_02d (n mod 3600 / 60))
                 (format_02d ((n mod 3600) mod 60)) "."%char (str "000")
                 []);
        try assumption; try reflexivity;
        try (apply format_02d_length; lia); [|left; reflexivity].
      rewrite Vh, Vm, Vs.
      replace (n / 3600 * 3600 + n mod 3600 / 60 * 60
               + (n mod 3600) mod 60) with n by lia.
      unfold int_add_float. rewrite Ex. cbn [bind]. f_equal.
      destruct (repr_int n ltac:(lia)) as (x' & Ex' & Rx).
      assert (x' = x) by congruence. subst x'.
      apply (fadd_zero x (n * W) Rx). }
    assert (v = x) by congruence. subst v.
    exists x, (clock_text (n / 3600) (n mod 3600 / 60)
                          ((n mod 3600) mod 60)).
    auto.
Qed.

Lemma timestamp_round_trip_witness :
  exists v,
    _parse_timestamp (clock_text 1 2 3) = Ok v
    /\ _to_timestamp v = Ok (clock_text 1 2 3)
    /\ forall c,
        exists c', set_start c (clock_text 1 2 3) = Ok c'
                   /\ get_start c' = Ok (clock_text 1 2 3).
Proof.
  apply (proj1 timestamp_round_trip 1 2 3); lia.
Defined.

(** X20. A timestamp with at most eleven hour digits is parsed without
    an exception, with or without a colon after the hours: the integer
    part is below [2^53] and its conversion to a float cannot overflow. *)
Theorem parse_timestamp_returns (h m s f rest : pystr) (sep : ascii) :
  all_digits h -> (length h <= 11)%nat ->
  all_digits m -> length m = 2%nat ->
  all_digits s -> length s = 2%nat ->
  sep = "."%char \/ sep = ","%char ->
  all_digits f -> length f = 3%nat ->
  (exists v,
      _parse_timestamp
        (h ++ str ":" ++ m ++ str ":" ++ s ++ sep :: f ++ rest) = Ok v)
  /\ (exists v,
         _parse_timestamp (h ++ m ++ str ":" ++ s ++ sep :: f ++ rest)
         = Ok v).
Proof.
  intros Hh Lh Hm Lm Hs Ls Hsep Hf Lf.
  rewrite (@parse_timestamp_canonical h m s sep f rest) by assumption.
  rewrite (@parse_timestamp_run_in h m s sep f rest) by assumption.
  pose proof (digits_val_range Hh) as Bh.
  pose proof (digits_val_range Hm) as Bm.
  pose proof (digits_val_range Hs) as Bs.
  rewrite Lm in Bm. rewrite Ls in Bs.
  change (10 ^ Z.of_nat 2) with 100 in Bm, Bs.
  assert (Ph : 10 ^ Z.of_nat (length h) <= 10 ^ 11).
  { apply Z.pow_le_mono_r; lia. }
  change (10 ^ 11) with 100000000000 in Ph.
  destruct (repr_int (digits_val h * 3600 + digits_val m * 60
                      + digits_val s)) as (x & Ex & _).
  { change (2 ^ 53) with 9007199254740992. lia. }
  unfold int_add_float. rewrite Ex. cbn [bind]. eauto.
Qed.

Lemma parse_timestamp_returns_witness :
  (exists v, _parse_timestamp (str "100:02:03,456 tail") = Ok v)
  /\ (exists v, _parse_timestamp (str "10002:03,456 tail") = Ok v).
Proof.
  apply (parse_timestamp_returns (str "100") (str "02") (str "03")
           (str "456") (str " tail") ","%char);
    try reflexivity; [simpl; lia | right; reflexivity].
Defined.

Local Close Scope Z_scope.

Local Open Scope Z_scope.

(** ** Addition *)

(** [x] is a finite float, not negative, with [lo <= x <= hi]. *)
Definition float_between (lo hi : Z) (x : float) : Prop :=
  exists v, repr x v /\ lo * W <= v <= hi * W.

Lemma normalize_coarse p e n :
  -1074 <= e <= 0 -> 1 <= n -> n + 1 <= 2 ^ 53 ->
  n * W <= Zpos p * 2 ^ (e + 1074) < (n + 1) * W ->
  float_between n (n + 1) (binary_normalize prec emax (Zpos p) e false).
Proof.
  intros E N1 N2 B. unfold binary_normalize, binary_round.
  rewrite fexp_fexp64. fold (digits p).
  pose proof (digits_bounds p) as [Lp Up]. pose proof (digits_pos p) as Dp.
  pose proof (pow2_pos (e + 1074) ltac:(lia)) as Pe.
  pose proof W_pos as PW.
  assert (D1 : 1 <= digits p + e).
  { assert (X : 2 ^ 1074 < 2 ^ (digits p + (e + 1074))).
    { rewrite <- (pow2_add (digits p) (e + 1074)) by lia.
      unfold W in B. nia. }
    apply Z.pow_lt_mono_r_iff in X; lia. }
  assert (D2 : digits p + e <= 53).
  { assert (X : 2 ^ (digits p - 1 + (e + 1074)) < 2 ^ (53 + 1074)).
    { rewrite <- (pow2_add (digits p - 1) (e + 1074)) by lia.
      rewrite <- (pow2_add 53 1074) by lia. fold W. nia. }
    apply Z.pow_lt_mono_r_iff in X; lia. }
  assert (F : fexp64 (digits p + e) = digits p + e - 53)
    by (unfold fexp64; lia).
  rewrite F. unfold shl_align.
  destruct (digits p + e - 53 - e) as [|d|d] eqn:X.
  - (* 53 digits already *)
    assert (Dg : digits p = 53) by lia.
    rewrite round_aux_exact by (rewrite ?Dg; unfold fexp64; lia).
    exists (Zpos p * 2 ^ (e + 1074)). split; [|lia].
    right. exists p, e. repeat split; lia.
  - (* more than 53 digits: rounded *)
    destruct (round_aux_coarse p e loc_Exact ltac:(lia) ltac:(lia)
                               ltac:(lia)) as (mr & Hm & R).
    set (t := digits p - 53) in *.
    set (e1 := e + t) in *.
    assert (T : 0 <= t) by (unfold t; lia).
    assert (E1 : -1074 <= e1 <= 0) by (unfold e1, t; lia).
    pose proof (pow2_pos t T) as Pt.
    pose proof (pow2_pos (- e1) ltac:(lia)) as P1.
    pose proof (pow2_pos (e1 + 1074) ltac:(lia)) as P2.
    assert (W1 : W = 2 ^ (- e1) * 2 ^ (e1 + 1074)).
    { unfold W. rewrite pow2_add by lia. f_equal. lia. }
    assert (W2 : 2 ^ (e1 + 1074) = 2 ^ t * 2 ^ (e + 1074)).
    { rewrite pow2_add by lia. f_equal. unfold e1. lia. }
    assert (LA : n * 2 ^ (- e1) <= Zpos p / 2 ^ t).
    { apply Z.div_le_lower_bound; [lia|]. rewrite W1, W2 in B. nia. }
    assert (UA : Zpos p / 2 ^ t < (n + 1) * 2 ^ (- e1)).
    { apply Z.div_lt_upper_bound; [lia|]. rewrite W1, W2 in B. nia. }
    exists (mr * 2 ^ (e + t + 1074)). split; [exact R|].
    fold e1. rewrite W1. destruct Hm as [-> | ->]; nia.
  - (* fewer than 53 digits: shifted, exact *)
    assert (Dg : digits (Pos.iter xO p d) = 53).
    { rewrite digits_shift. lia. }
    rewrite round_aux_exact by (rewrite ?Dg; unfold fexp64; lia).
    exists (Zpos p * 2 ^ (e + 1074)). split; [|lia].
    right. exists (Pos.iter xO p d), (digits p + e - 53).
    split; [reflexivity|]. split; [lia|]. split.
    + rewrite Dg. unfold fexp64. lia.
    + rewrite iter_xO, <- Z.mul_assoc, pow2_add by lia.
      do 2 f_equal. lia.
Qed.

Lemma fadd_coarse x y n vy :
  repr x (n * W) -> 0 <= n -> n + 1 <= 2 ^ 53 ->
  repr y vy -> vy < W ->
  float_between n (n + 1) (fadd x y).
Proof.
  intros Rx N1 N2 Ry By. pose proof W_pos as PW.
  pose proof (repr_nonneg y vy Ry) as Ny.
  destruct (Z.eq_dec n 0) as [-> | N0].
  { destruct Rx as [[_ ->] | (m & e & _ & E & _ & V)].
    - exists vy. split; [|lia].
      destruct Ry as [[-> ->] | (m & e & -> & R)].
      + left; auto.
      + right. exists m, e. auto.
    - exfalso. pose proof (pow2_pos (e + 1074) ltac:(lia)). nia. }
  destruct Ry as [[-> ->] | (my & ey & -> & Ey & Cy & Vy)].
  { exists (n * W). split; [|lia].
    rewrite (fadd_zero x (n * W) Rx). exact Rx. }
  destruct (repr_normal x n Rx ltac:(lia)) as (mx & ex & -> & Dx & Ex & Vx).
  unfold fadd, SFadd. cbn [cond_Zopp].
  set (ez := Z.min ex ey).
  assert (Z1 : ez <= ex) by (unfold ez; lia).
  assert (Z2 : ez <= ey) by (unfold ez; lia).
  assert (Z3 : -1074 <= ez <= 0) by (unfold ez; lia).
  pose proof (shl_align_fst mx ex ez Z1) as Sx.
  pose proof (shl_align_fst my ey ez Z2) as Sy.
  change (Zpos (fst (shl_align mx ex ez)) + Zpos (fst (shl_align my ey ez)))
    with (Zpos (fst (shl_align mx ex ez) + fst (shl_align my ey ez))).
  apply normalize_coarse; try lia.
  rewrite Pos2Z.inj_add, Sx, Sy, Z.mul_add_distr_r, <- !Z.mul_assoc.
  rewrite !pow2_add by lia.
  replace (ex - ez + (ez + 1074)) with (ex + 1074) by lia.
  replace (ey - ez + (ez + 1074)) with (ey + 1074) by lia.
  rewrite Vy.
  assert (Vx' : Zpos mx * 2 ^ (ex + 1074) = n * W).
  { rewrite Vx, <- Z.mul_assoc, pow2_add by lia. unfold W.
    do 2 f_equal. lia. }
  rewrite Vx'. lia.
Qed.

(** The thousand floats of the milliseconds are below one. *)
Definition millis_ok (f : Z) : bool :=
  match millis f with
  | S754_zero false => true
  | S754_finite false m e =>
      (-1074 <=? e) && (e <=? 971) && (e =? fexp64 (digits m + e))
      && (Zpos m * 2 ^ (e + 1074) <? W)
  | _ => false
  end.

Lemma millis_below_one f :
  0 <= f < 1000 -> exists vy, repr (millis f) vy /\ vy < W.
Proof.
  intros H.
  assert (A : forallb (fun k => millis_ok (Z.of_nat k)) (seq 0 1000) = true)
    by (vm_compute; reflexivity).
  rewrite forallb_forall in A.
  specialize (A (Z.to_nat f)). rewrite Z2Nat.id in A by lia.
  assert (B : millis_ok f = true) by (apply A, in_seq; lia).
  unfold millis_ok in B. pose proof W_pos.
  destruct (millis f) as [[]|[]| |[] m e]; try discriminate.
  - exists 0. split; [left; auto | lia].
  - apply andb_true_iff in B as [B B4]. apply andb_true_iff in B as [B B3].
    apply andb_true_iff in B as [B1 B2].
    apply Z.leb_le in B1, B2. apply Z.eqb_eq in B3. apply Z.ltb_lt in B4.
    exists (Zpos m * 2 ^ (e + 1074)). split; [|exact B4].
    right. exists m, e. auto.
Qed.

(** X21. The time parsed from a timestamp with at most eleven hour digits
    is a finite float that is not negative, at least the whole seconds
    [H*3600 + M*60 + S] of the text, and at most one second more. *)
Theorem parse_timestamp_within_second (h m s f rest : pystr) (sep : ascii) :
  all_digits h -> (length h <= 11)%nat ->
  all_digits m -> length m = 2%nat ->
  all_digits s -> length s = 2%nat ->
  sep = "."%char \/ sep = ","%char ->
  all_digits f -> length f = 3%nat ->
  exists v,
    _parse_timestamp
      (h ++ str ":" ++ m ++ str ":" ++ s ++ sep :: f ++ rest) = Ok v
    /\ float_between
         (digits_val h * 3600 + digits_val m * 60 + digits_val s)
         (digits_val h * 3600 + digits_val m * 60 + digits_val s + 1) v.
Proof.
  intros Hh Lh Hm Lm Hs Ls Hsep Hf Lf.
  rewrite (@parse_timestamp_canonical h m s sep f rest) by assumption.
  pose proof (digits_val_range Hh) as Bh.
  pose proof (digits_val_range Hm) as Bm.
  pose proof (digits_val_range Hs) as Bs.
  pose proof (digits_val_range Hf) as Bf.
  rewrite Lm in Bm. rewrite Ls in Bs. rewrite Lf in Bf.
  change (10 ^ Z.of_nat 2) with 100 in Bm, Bs.
  change (10 ^ Z.of_nat 3) with 1000 in Bf.
  assert (Ph : 10 ^ Z.of_nat (length h) <= 10 ^ 11).
  { apply Z.pow_le_mono_r; lia. }
  change (10 ^ 11) with 100000000000 in Ph.
  set (n := digits_val h * 3600 + digits_val m * 60 + digits_val s).
  assert (Bn : 0 <= n /\ n + 1 <= 2 ^ 53).
  { change (2 ^ 53) with 9007199254740992. unfold n. lia. }
  destruct (repr_int n ltac:(lia)) as (x & Ex & Rx).
  destruct (millis_below_one (digits_val f) Bf) as (vy & Ry & By).
  unfold int_add_float. rewrite Ex. cbn [bind].
  eexists. split; [reflexivity|].
  apply (fadd_coarse x _ n vy Rx); try lia; assumption.
Qed.

Lemma parse_timestamp_within_second_witness :
  exists v,
    _parse_timestamp (str "01:02:03,456 tail") = Ok v
    /\ float_between 3723 3724 v.
Proof.
  apply (parse_timestamp_within_second (str "01") (str "02") (str "03")
           (str "456") (str " tail") ","%char);
    try reflexivity; [simpl; lia | right; reflexivity].
Defined.

Local Close Scope Z_scope.

Local Open Scope Z_scope.

(** * The value of a timestamp *)















Local Close Scope Z_scope.

(** * The text setter *)

(** A text split on line breaks, in the words of the specification: a
    line is a run of characters without line break character, ended by one
    line break, where a carriage return and the line feed after it are one
    line break; what follows the last line break is a line when it is not
    empty. *)
Inductive line_split : pystr -> list pystr -> Prop :=
| LS_nil : line_split [] []
| LS_last l : l <> [] -> no_linebreak l -> line_split l [l]
| LS_break l b rest ls :
    no_linebreak l -> is_linebreak b = true ->
    ~ (b = CR /\ exists r, rest = LF :: r) ->
    line_split rest ls -> line_split (l ++ b :: rest) (l :: ls)
| LS_crlf l rest ls :
    no_linebreak l -> line_split rest ls ->
    line_split (l ++ CR :: LF :: rest) (l :: ls).

Lemma splitlines_from_split n : forall s cur,
  (length s <= n)%nat -> no_linebreak cur ->
  line_split (rev cur ++ s) (splitlines_from cur s).
Proof.
  induction n as [|n IH]; intros s cur L Hc.
  - destruct s; [|simpl in L; lia]. simpl. rewrite app_nil_r.
    destruct cur as [|c cur]; [constructor|].
    apply LS_last; [|apply no_linebreak_rev, Hc].
    simpl. intros E. apply app_eq_nil in E as [_ E]. discriminate E.
  - destruct s as [|a s]; [apply IH; [simpl; lia | exact Hc]|].
    simpl in L. cbn [splitlines_from].
    destruct (is_linebreak a) eqn:B.
    + destruct s as [|b s].
      * apply LS_break; [apply no_linebreak_rev, Hc | exact B | | constructor].
        intros [_ [r E]]. discriminate E.
      * destruct (ascii_eqb a CR && ascii_eqb b LF) eqn:C.
        -- apply andb_true_iff in C as [C1 C2].
           apply ascii_eqb_eq in C1, C2. subst a b.
           apply LS_crlf; [apply no_linebreak_rev, Hc|].
           apply (IH s []); [simpl in L; lia | reflexivity].
        -- apply LS_break; [apply no_linebreak_rev, Hc | exact B | |].
           ++ intros [-> [r E]]. injection E as -> _.
              rewrite !ascii_eqb_refl in C. discriminate C.
           ++ apply (IH (b :: s) []); [lia | reflexivity].
    + replace (rev cur ++ a :: s) with (rev (a :: cur) ++ s)
        by (simpl; rewrite <- app_assoc; reflexivity).
      apply IH; [lia|]. unfold no_linebreak. simpl. rewrite B. exact Hc.
Qed.

Lemma line_split_splitlines s ls : line_split s ls <-> splitlines s = ls.
Proof.
  split.
  - unfold splitlines.
    induction 1 as [|l N Hl|l b rest ls Hl B C _ IH|l rest ls Hl _ IH].
    + reflexivity.
    + rewrite <- (app_nil_r l) at 1.
      rewrite (@splitlines_from_app l [] [] Hl), app_nil_r. simpl.
      destruct (rev l) as [|a r] eqn:E.
      * exfalso. apply N. apply (f_equal (@rev ascii)) in E.
        rewrite rev_involutive in E. exact E.
      * rewrite <- E, rev_involutive. reflexivity.
    + rewrite (@splitlines_from_app l [] (b :: rest) Hl), app_nil_r.
      cbn [splitlines_from]. rewrite B, rev_involutive. f_equal.
      destruct rest as [|b' rest]; [exact IH|].
      destruct (ascii_eqb b CR && ascii_eqb b' LF) eqn:X; [|exact IH].
      exfalso. apply andb_true_iff in X as [X1 X2].
      apply ascii_eqb_eq in X1, X2. subst. apply C. eauto.
    + rewrite (@splitlines_from_app l [] (CR :: LF :: rest) Hl), app_nil_r.
      cbn [splitlines_from].
      change (is_linebreak CR) with true.
      rewrite !ascii_eqb_refl, rev_involutive. cbn iota. cbn [andb].
      f_equal. exact IH.
  - intros <-. apply (splitlines_from_split (length s) s []);
      [lia | reflexivity].
Qed.

(** C8. Setting the text of a caption raises the error for a wrong type
    ([AttributeError] in the code) if and only if the value is not a
    string; when it raises, the caption, and so its lines, is unchanged;
    when the value is a string, nothing is raised and the lines become the
    value split on line breaks, whatever the lines were:
    [a CR LF b LF LF c LF] gives the lines [a], [b], the empty line and
    [c]. *)
Theorem set_text_contract (c : Caption) (value : pyval) :
  (snd (set_text c value) = Some AttributeError <-> is_str value = false)
  /\ (snd (set_text c value) = None <-> is_str value = true)
  /\ (is_str value = false -> fst (set_text c value) = c)
  /\ (forall s, value = PyStr s ->
                forall ls,
                  line_split s ls <-> lines (fst (set_text c value)) = ls)
  /\ lines (fst (set_text c (PyStr (str "a" ++ [CR; LF] ++ str "b"
                                    ++ [LF; LF] ++ str "c" ++ [LF]))))
     = [str "a"; str "b"; []; str "c"]
  /\ lines (fst (set_text c (PyStr []))) = [].
Proof.
  split; [destruct value; simpl; split; congruence|].
  split; [destruct value; simpl; split; congruence|].
  split; [destruct value; simpl; intros; congruence|].
  split; [|split; reflexivity].
  intros s -> ls. unfold lines. cbn [set_text fst _lines].
  apply line_split_splitlines.
Qed.

Lemma set_text_contract_witness :
  fst (set_text (mkCaption (S754_zero false) (S754_zero false) None
                           [str "old"]) (PyInt 3%Z))
  = mkCaption (S754_zero false) (S754_zero false) None [str "old"]
  /\ lines (fst (set_text (mkCaption (S754_zero false) (S754_zero false)
                                     None [str "old"])
                          (PyStr (str "a" ++ LF :: str "b"))))
     = [str "a"; str "b"].
Proof.
  split.
  - apply (proj1 (proj2 (proj2 (set_text_contract _ (PyInt 3%Z))))).
    reflexivity.
  - apply (proj1 (proj2 (proj2 (proj2 (set_text_contract _ (PyStr _)))))
             (str "a" ++ LF :: str "b") eq_refl [str "a"; str "b"]).
    apply LS_break; [reflexivity | reflexivity | |].
    + intros [E _]. discriminate E.
    + apply LS_last; [discriminate | reflexivity].
Defined.

(** * Two spans on a line *)

Definition two_spans_cue : Caption :=
  new_caption [str "<c.red>x</c> <c.red>y</c>"].

Definition one_span_cue : Caption := new_caption [str "<c.red>x</c>"].

(** [<font color="v">content</font>] *)
Definition font_tag (v content : pystr) : pystr :=
  str "<font color=" ++ [DQ] ++ v ++ [DQ] ++ str ">" ++ content
  ++ str "</font>".

Ltac run_search :=
  repeat match goal with
         | |- context [re_search ?r ?x] =>
             let G := fresh "G" in
             destruct (re_search r x) eqn:G;
             [vm_compute in G; discriminate G | clear G]
         end.

(** C2. The translation of a cue with two spans of one class on a line,
    for an [html.unescape] that leaves a text without [&] as it is: the
    first qualifier of the pattern, [(?:\..*?)?], runs over the end of the
    first tag up to the second [.red], so the whole line is one match and
    the first span is lost with its text, where the specification has
    each of the two spans replaced. A span alone on its line is translated
    as the specification says, and so are its two examples. *)
Theorem replace_colors_two_spans (html_unescape : pystr -> pystr) :
  (forall x, amp_free x -> html_unescape x = x) ->
  to_srt_formatted html_unescape two_spans_cue [(str "red", str "#f00")]
  = Some (font_tag (str "#f00") (str "y"))
  /\ to_srt_formatted html_unescape two_spans_cue [(str "red", str "#f00")]
     <> Some (font_tag (str "#f00") (str "x") ++ str " "
              ++ font_tag (str "#f00") (str "y"))
  /\ to_srt_formatted html_unescape one_span_cue [(str "red", str "#f00")]
     = Some (font_tag (str "#f00") (str "x"))
  /\ to_srt_formatted html_unescape hello_cue [(str "red", str "#ff0000")]
     = Some (str "Hello " ++ font_tag (str "#ff0000") (str "world"))
  /\ to_srt_formatted html_unescape hi_cue [(str "blue", str "blue")]
     = Some (str "<i>" ++ font_tag (str "blue") (str "Hi") ++ str "</i>").
Proof.
  intros Hu.
  pose proof (Hu (str "x") eq_refl) as Hx.
  pose proof (Hu (str "y") eq_refl) as Hy.
  pose proof (Hu (str "world") eq_refl) as Hw.
  pose proof (Hu (str "Hi") eq_refl) as Hh.
  vm_compute in Hx, Hy, Hw, Hh.
  assert (E1 : _replace_colors html_unescape (raw_text two_spans_cue)
                 [(str "red", str "#f00")] Fc
               = Some (font_tag (str "#f00") (str "y")))
    by (vm_compute; rewrite Hy; reflexivity).
  assert (E2 : _replace_colors html_unescape (raw_text one_span_cue)
                 [(str "red", str "#f00")] Fc
               = Some (font_tag (str "#f00") (str "x")))
    by (vm_compute; rewrite Hx; reflexivity).
  assert (E3 : _replace_colors html_unescape (raw_text hello_cue)
                 [(str "red", str "#ff0000")] Fc
               = Some (str "Hello "
                       ++ font_tag (str "#ff0000") (str "world")))
    by (vm_compute; rewrite Hw; reflexivity).
  assert (E4 : _replace_colors html_unescape (raw_text hi_cue)
                 [(str "blue", str "blue")] Fi
               = Some (str "<i>" ++ font_tag (str "blue") (str "Hi")
                       ++ str "</i>"))
    by (vm_compute; rewrite Hh; reflexivity).
  assert (R1 : to_srt_formatted html_unescape two_spans_cue
                 [(str "red", str "#f00")]
               = Some (font_tag (str "#f00") (str "y"))).
  { unfold to_srt_formatted, families; cbn [srt_loop].
    destruct (re_search (tag_pattern Fc) (raw_text two_spans_cue)) eqn:G;
      [clear G | vm_compute in G; discriminate G].
    rewrite E1. run_search. reflexivity. }
  split; [exact R1|]. split.
  { rewrite R1. intros H. vm_compute in H. discriminate H. }
  split; [|split].
  - unfold to_srt_formatted, families; cbn [srt_loop].
    destruct (re_search (tag_pattern Fc) (raw_text one_span_cue)) eqn:G;
      [clear G | vm_compute in G; discriminate G].
    rewrite E2. run_search. reflexivity.
  - unfold to_srt_formatted, families; cbn [srt_loop].
    destruct (re_search (tag_pattern Fc) (raw_text hello_cue)) eqn:G;
      [clear G | vm_compute in G; discriminate G].
    rewrite E3. run_search. reflexivity.
  - unfold to_srt_formatted, families; cbn [srt_loop].
    destruct (re_search (tag_pattern Fc) (raw_text hi_cue)) eqn:G;
      [vm_compute in G; discriminate G | clear G].
    destruct (re_search (tag_pattern Fi) (raw_text hi_cue)) eqn:G;
      [clear G | vm_compute in G; discriminate G].
    rewrite E4. run_search. reflexivity.
Qed.

Lemma replace_colors_two_spans_witness :
  to_srt_formatted (fun x => x) two_spans_cue [(str "red", str "#f00")]
  = Some (font_tag (str "#f00") (str "y")).
Proof.
  apply (proj1 (replace_colors_two_spans (fun x => x)
                                         (fun x _ => eq_refl))).
Defined.
